(** * Goals.py: goal categories, entrance locks and the required-location solver

    A shallow embedding of [Goals.py] of the Ocarina of Time randomizer. The
    classes [Goal] and [GoalCategory] become records, Python exceptions an
    error monad, the list objects whose identity the code relies on cells of
    a store, and the reachability engine ([Search], [State], [World],
    [Location], the item and hint tables), which lives in other files of the
    program, an interface the solver is parameterised by. *)

From Stdlib Require Import ZArith Lia.
From stdpp Require Import base option strings gmap sets functions list.

Local Open Scope string_scope.
Local Open Scope list_scope.
Local Open Scope nat_scope.
Local Open Scope stdpp_scope.

(** ** Exceptions *)

(** The Python exceptions the embedded code can raise. *)
Inductive exn :=
| KeyError
| TypeError
| ValueError
| IndexError
| AttributeError
| Exception (msg : string).

(** The outcome of running a piece of the program: a value or a raised
    exception. *)
Inductive result (A : Type) :=
| Ok (a : A)
| Raise (e : exn).
Arguments Ok {A} a.
Arguments Raise {A} e.

Global Instance result_bind : MBind result := λ A B f m,
  match m with
  | Ok a => f a
  | Raise e => Raise e
  end.
Global Instance result_ret : MRet result := λ A a, Ok a.

(** [d[k]] on a dictionary: [KeyError] when the key is missing. *)
Definition getitem {A} (o : option A) : result A :=
  match o with
  | Some a => Ok a
  | None => Raise KeyError
  end.

(** A [for] loop threading the state [b] through the body [f]. *)
Fixpoint for_each {A B} (f : B → A → result B) (b : B) (l : list A) : result B :=
  match l with
  | [] => Ok b
  | x :: l => b' ← f b x; for_each f b' l
  end.

(** ** Data model *)

(** [validColors]. *)
Definition validColors : list string :=
  ["White"; "Red"; "Green"; "Blue"; "Light Blue"; "Pink"; "Yellow"; "Black"].

(** [GoalItem]: the dictionary with keys ['name'], ['quantity'], ['minimum']
    and ['hintable'] that describes one item a goal asks for. *)
Record GoalItem := {
  gi_name : string;
  gi_quantity : Z;
  gi_minimum : Z;
  gi_hintable : bool;
}.

(** An [Item] as the solver sees it: its name, the id of the world it
    belongs to and its [solver_id] ([None] when it takes no part in the
    search). *)
Record Item := {
  item_name : string;
  item_world : nat;
  item_solver_id : option nat;
}.

(** A [Location] object. Python compares locations by identity; [loc_id]
    stands for that identity, [loc_world] is [location.world.id]. The item a
    location holds is mutable and lives in the solver's item store. *)
Record Location := {
  loc_id : nat;
  loc_name : string;
  loc_world : nat;
}.

Global Instance GoalItem_eq_dec : EqDecision GoalItem.
Proof. solve_decision. Defined.
Global Instance Item_eq_dec : EqDecision Item.
Proof. solve_decision. Defined.
Global Instance Location_eq_dec : EqDecision Location.
Proof. solve_decision. Defined.

(** An entry of [Goal.required_locations]:
    [(location, weight, weight, world ids)]. *)
Definition ReqLoc : Type := Location * Z * Z * list nat.

(** The list objects a goal refers to. [Goal.copy] hands the very same list
    objects to the new goal, so these lists are cells of a store and a goal
    holds their addresses. *)
Definition addr := nat.

Inductive cell :=
| ItemList (l : list GoalItem)
| ReqList (l : list ReqLoc).

Abbreviation heap := (gmap addr cell).

Definition cell_length (c : cell) : nat :=
  match c with
  | ItemList l => length l
  | ReqList l => length l
  end.

(** The goal items stored at [a] (the list [goal.items] when [a] is
    [g_items goal]). *)
Definition items_at (h : heap) (a : addr) : list GoalItem :=
  match h !! a with
  | Some (ItemList l) => l
  | _ => []
  end.

(** The required locations stored at [a]. *)
Definition reqs_at (h : heap) (a : addr) : list ReqLoc :=
  match h !! a with
  | Some (ReqList l) => l
  | _ => []
  end.

(** Truth value of an argument that is [None] or a list object: a list is
    true when it is not empty. *)
Definition truthy (h : heap) (o : option addr) : bool :=
  match o with
  | None => false
  | Some a =>
      match h !! a with
      | Some c => bool_decide (cell_length c ≠ 0)
      | None => false
      end
  end.

(** The same for a list passed by value. *)
Definition truthy_list {A} (o : option (list A)) : bool :=
  match o with
  | None | Some [] => false
  | Some (_ :: _) => true
  end.

(** A new list object. *)
Definition alloc (c : cell) (h : heap) : addr * heap :=
  let a := fresh (dom h) in (a, <[a := c]> h).

(** [x or []]: the object [x] itself when it is true, a new empty list
    otherwise (also when [x] is an empty list). *)
Definition or_new (o : option addr) (c : cell) (h : heap) : addr * heap :=
  match o with
  | Some a => if truthy h o then (a, h) else alloc c h
  | None => alloc c h
  end.

(** [hint_text]: plain text, or a dictionary whose ['replace'] entry is
    resolved later by [replace_goal_names]. *)
Inductive HintText :=
| HintStr (s : string)
| HintDict (d : gmap string string).

(** ** [class Goal] *)

(** The attributes of a [Goal]. [g_world] is the id of the goal's world and
    [g_category] the name of the category that owns the goal (the back
    reference [goal.category]), [None] while the goal is unbound.
    [g_item_cache] is [goal._item_cache]: it holds, under a name, one of the
    dictionaries of [goal.items], the object itself and not a copy of it;
    the entry is the position of that dictionary in the list (the lists of
    this file are updated in place and never reordered). *)
Record Goal := {
  g_world : nat;
  g_name : string;
  g_hint_text : HintText;
  g_color : string;
  g_items : addr;
  g_locations : option (list string);
  g_lock_locations : option (list string);
  g_lock_entrances : list string;
  g_required_locations : addr;
  g_weight : Z;
  g_category : option string;
  g_item_cache : gmap string nat;
}.

(** [Goal.__init__]. *)
Definition Goal_init (h : heap) (world : nat) (name : string) (hint_text : HintText)
    (color : string) (items : option addr) (locations lock_locations : option (list string))
    (lock_entrances : option (list string)) (required_locations : option addr)
    (create_empty : bool) : result (Goal * heap) :=
  if negb (truthy h items) && negb (truthy_list locations) && negb create_empty
  then Raise (Exception "Invalid goal: no items or destinations set")
  else if bool_decide (color ∈ validColors) then
    let '(items', h) := or_new items (ItemList []) h in
    let '(required_locations', h) := or_new required_locations (ReqList []) h in
    Ok ({| g_world := world;
           g_name := name;
           g_hint_text := hint_text;
           g_color := color;
           g_items := items';
           g_locations := locations;
           g_lock_locations := lock_locations;
           g_lock_entrances := default [] lock_entrances;
           g_required_locations := required_locations';
           g_weight := 0;
           g_category := None;
           g_item_cache := ∅ |}, h)
  else Raise (Exception ("Invalid goal: Color " +:+ color +:+ " not supported")).

(** [Goal.copy]. *)
Definition Goal_copy (h : heap) (self : Goal) : result (Goal * heap) :=
  Goal_init h (g_world self) (g_name self) (g_hint_text self) (g_color self)
    (Some (g_items self)) (g_locations self) (g_lock_locations self)
    (Some (g_lock_entrances self)) (Some (g_required_locations self)) true.

(** [goal.weight = w], [goal.category = c] and
    [goal.required_locations = a]. *)
Definition set_g_weight (w : Z) (g : Goal) : Goal :=
  {| g_world := g_world g; g_name := g_name g; g_hint_text := g_hint_text g;
     g_color := g_color g; g_items := g_items g; g_locations := g_locations g;
     g_lock_locations := g_lock_locations g; g_lock_entrances := g_lock_entrances g;
     g_required_locations := g_required_locations g; g_weight := w;
     g_category := g_category g; g_item_cache := g_item_cache g |}.

Definition set_g_category (c : option string) (g : Goal) : Goal :=
  {| g_world := g_world g; g_name := g_name g; g_hint_text := g_hint_text g;
     g_color := g_color g; g_items := g_items g; g_locations := g_locations g;
     g_lock_locations := g_lock_locations g; g_lock_entrances := g_lock_entrances g;
     g_required_locations := g_required_locations g; g_weight := g_weight g;
     g_category := c; g_item_cache := g_item_cache g |}.

Definition set_g_required_locations (a : addr) (g : Goal) : Goal :=
  {| g_world := g_world g; g_name := g_name g; g_hint_text := g_hint_text g;
     g_color := g_color g; g_items := g_items g; g_locations := g_locations g;
     g_lock_locations := g_lock_locations g; g_lock_entrances := g_lock_entrances g;
     g_required_locations := a; g_weight := g_weight g;
     g_category := g_category g; g_item_cache := g_item_cache g |}.

(** ** Dictionaries that keep their insertion order *)

(** A Python [dict] whose iteration order the code relies on: the pairs in
    insertion order, every key at most once. *)
Fixpoint dict_get {K V} `{EqDecision K} (k : K) (d : list (K * V)) : option V :=
  match d with
  | [] => None
  | (k', v) :: d => if decide (k' = k) then Some v else dict_get k d
  end.

(** [d[k] = v]: a key already present keeps its place. *)
Fixpoint dict_set {K V} `{EqDecision K} (k : K) (v : V) (d : list (K * V)) : list (K * V) :=
  match d with
  | [] => [(k, v)]
  | (k', v') :: d => if decide (k' = k) then (k, v) :: d else (k', v') :: dict_set k v d
  end.

(** [enumerate(l)]. *)
Definition enumerate {A} (l : list A) : list (nat * A) := imap pair l.

(** ** [class GoalCategory] *)

(** [c_goal_cache] is [category._goal_cache]: under a name, one of the goal
    objects of [category.goals], given by its position in that list (goals
    are appended to the list and updated in place). *)
Record GoalCategory := {
  c_name : string;
  c_priority : Z;
  c_lock_locations : option (list string);
  c_lock_entrances : option (list string);
  c_goals : list Goal;
  c_goal_count : Z;
  c_minimum_goals : Z;
  c_weight : Z;
  c_goal_cache : gmap string nat;
}.

(** [GoalCategory.__init__]. *)
Definition GoalCategory_init (name : string) (priority goal_count minimum_goals : Z)
    (lock_locations lock_entrances : option (list string)) : GoalCategory :=
  {| c_name := name;
     c_priority := priority;
     c_lock_locations := lock_locations;
     c_lock_entrances := lock_entrances;
     c_goals := [];
     c_goal_count := goal_count;
     c_minimum_goals := minimum_goals;
     c_weight := 0;
     c_goal_cache := ∅ |}.

Definition set_c_goals (gs : list Goal) (c : GoalCategory) : GoalCategory :=
  {| c_name := c_name c; c_priority := c_priority c; c_lock_locations := c_lock_locations c;
     c_lock_entrances := c_lock_entrances c; c_goals := gs; c_goal_count := c_goal_count c;
     c_minimum_goals := c_minimum_goals c; c_weight := c_weight c;
     c_goal_cache := c_goal_cache c |}.

Definition set_c_weight (w : Z) (c : GoalCategory) : GoalCategory :=
  {| c_name := c_name c; c_priority := c_priority c; c_lock_locations := c_lock_locations c;
     c_lock_entrances := c_lock_entrances c; c_goals := c_goals c; c_goal_count := c_goal_count c;
     c_minimum_goals := c_minimum_goals c; c_weight := w;
     c_goal_cache := c_goal_cache c |}.

(** [list(goal.copy() for goal in goals)]. *)
Fixpoint copy_goals (h : heap) (goals : list Goal) : result (list Goal * heap) :=
  match goals with
  | [] => Ok ([], h)
  | g :: goals =>
      '(g', h) ← Goal_copy h g;
      '(goals', h) ← copy_goals h goals;
      Ok (g' :: goals', h)
  end.

(** [GoalCategory.copy]. *)
Definition GoalCategory_copy (h : heap) (self : GoalCategory) : result (GoalCategory * heap) :=
  let new_category :=
    GoalCategory_init (c_name self) (c_priority self) (c_goal_count self)
      (c_minimum_goals self) (c_lock_locations self) (c_lock_entrances self) in
  '(goals, h) ← copy_goals h (c_goals self);
  Ok (set_c_goals goals new_category, h).

(** [GoalCategory.add_goal]: binds the goal to the category and appends
    it. *)
Definition add_goal (self : GoalCategory) (goal : Goal) : GoalCategory :=
  set_c_goals (c_goals self ++ [set_g_category (Some (c_name self)) goal]) self.

(** ** Worlds *)

(** What this file reads of a [World]: its id, its [goal_categories]
    dictionary and the two settings that enable the default goal
    ([enable_goal_hints] and [hint_dist_user['use_default_goals']]). *)
Record World := {
  w_id : nat;
  w_goal_categories : list (string * GoalCategory);
  w_enable_goal_hints : bool;
  w_use_default_goals : bool;
}.

Definition set_w_goal_categories (cs : list (string * GoalCategory)) (w : World) : World :=
  {| w_id := w_id w; w_goal_categories := cs;
     w_enable_goal_hints := w_enable_goal_hints w;
     w_use_default_goals := w_use_default_goals w |}.

(** ** [Goal.requires] *)

(** [ItemList.item_table] is not part of this file; of an entry
    [(type, progressive, id, special)] the code reads [special], which is
    [None] or a dictionary that may hold an ['alias'] pair
    [(name, count)]. *)
Record Special := {
  sp_alias : option (string * Z);
}.

Record ItemInfo := {
  it_special : option Special;
}.

Section requires.
Variable item_table : string → option ItemInfo.

(** The list [names] built by [requires]: the item, then its alias. *)
Definition required_names (item : string) (info : ItemInfo) : list string :=
  item ::
  match it_special info with
  | Some sp =>
      match sp_alias sp with
      | Some (a, _) => [a]
      | None => []
      end
  | None => []
  end.

(** [Goal.requires]. *)
Definition Goal_requires (h : heap) (self : Goal) (item : string) : result bool :=
  info ← getitem (item_table item);
  let names := required_names item info in
  Ok (existsb (λ i, bool_decide (gi_name i ∈ names) && negb (gi_hintable i))
        (items_at h (g_items self))).

End requires.

(** ** [GoalCategory.update_reachable_goals] *)

Section update_reachable_goals.
(** [State] belongs to the search engine. The method reads the world of a
    state and calls [State.has_item_goal] and [State.item_name_count]. *)
Context {State : Type}.
Variable state_world : State → World.
Variable item_name_count : State → string → Z.
Variable has_item_goal : State → GoalItem → bool.

(** [i['quantity'] = min(full.item_name_count(i['name']), i['quantity'])]. *)
Definition shrink_item (full : State) (i : GoalItem) : GoalItem :=
  {| gi_name := gi_name i;
     gi_quantity := Z.min (item_name_count full (gi_name i)) (gi_quantity i);
     gi_minimum := gi_minimum i;
     gi_hintable := gi_hintable i |}.

(** The body of the loop over [world_category.goals]. The item
    dictionaries of a goal are updated in place, that is in the cell the
    goal's [items] refers to. *)
Definition shrink_goal (full_state_list : list State) (index : nat) (h : heap)
    (goal : Goal) : result heap :=
  let items := items_at h (g_items goal) in
  if bool_decide (items ≠ []) then
    match full_state_list !! index with
    | None => Raise IndexError
    | Some full =>
        if forallb (has_item_goal full) items
        then Ok (<[g_items goal := ItemList (shrink_item full <$> items)]> h)
        else Ok h
    end
  else Ok h.

(** The body of the loop over [enumerate(starting_search.state_list)]. *)
Definition shrink_world (self : GoalCategory) (full_state_list : list State) (h : heap)
    (entry : nat * State) : result heap :=
  match dict_get (c_name self) (w_goal_categories (state_world entry.2)) with
  | None => Ok h
  | Some world_category => for_each (shrink_goal full_state_list entry.1) h (c_goals world_category)
  end.

(** [GoalCategory.update_reachable_goals], on the state lists of the two
    searches. *)
Definition update_reachable_goals (self : GoalCategory)
    (starting_state_list full_state_list : list State) (h : heap) : result heap :=
  for_each (shrink_world self full_state_list) h (enumerate starting_state_list).

End update_reachable_goals.

(** ** Locking the entrances of a category *)

(** [AccessRule]: what an entrance asks of a state. *)
Definition AccessRule (State : Type) : Type := State → bool.

(** [lambda state, **kwargs: False]. *)
Definition locked_rule {State : Type} : AccessRule State := λ _, false.

Section locks.
Context {State : Type}.
Variable state_world : State → World.

(** The [access_rule] attribute of every entrance object, by the id of the
    entrance's world and its name. *)
Abbreviation entrances := (gmap (nat * string) (AccessRule State)).

(** Modelled from the spec: [World.get_entrance] is defined in World.py;
    the spec's "entrance lookup by name" finds the entrance of that world
    carrying that name, and fails when the world has none. The result is
    the entrance object, here its key in the store. *)
Definition get_entrance (es : entrances) (world : World) (name : string)
    : result (nat * string) :=
  match es !! (w_id world, name) with
  | Some _ => Ok (w_id world, name)
  | None => Raise KeyError
  end.

(** [exit.access_rule]. *)
Definition access_rule (es : entrances) (exit : nat * string) : result (AccessRule State) :=
  getitem (es !! exit).

(** The loop over [category.lock_entrances] for one state: [exits] is
    [category_locks[index]]. *)
Definition lock_entrance (state : State)
    (acc : list (string * AccessRule State) * entrances) (lock : string)
    : result (list (string * AccessRule State) * entrances) :=
  let '(exits, es) := acc in
  exit ← get_entrance es (state_world state) lock;
  rule ← access_rule es exit;
  Ok (dict_set exit.2 rule exits, <[exit := locked_rule]> es).

Definition lock_state (lock_entrances : list string)
    (acc : list (nat * list (string * AccessRule State)) * entrances)
    (entry : nat * State)
    : result (list (nat * list (string * AccessRule State)) * entrances) :=
  let '(category_locks, es) := acc in
  '(exits, es) ← for_each (lock_entrance entry.2) ([], es) lock_entrances;
  Ok (dict_set entry.1 exits category_locks, es).

(** [lock_category_entrances]: the saved rules and the store with the
    entrances locked. *)
Definition lock_category_entrances (category : GoalCategory) (state_list : list State)
    (es : entrances) : result (list (nat * list (string * AccessRule State)) * entrances) :=
  match c_lock_entrances category with
  | None => Ok ([], es)
  | Some lock_entrances =>
      for_each (lock_state lock_entrances) ([], es) (enumerate state_list)
  end.

Definition unlock_entrance (state_list : list State) (state_id : nat) (es : entrances)
    (saved : string * AccessRule State) : result entrances :=
  match state_list !! state_id with
  | None => Raise IndexError
  | Some state =>
      exit ← get_entrance es (state_world state) saved.1;
      Ok (<[exit := saved.2]> es)
  end.

(** [unlock_category_entrances]. *)
Definition unlock_category_entrances
    (category_locks : list (nat * list (string * AccessRule State)))
    (state_list : list State) (es : entrances) : result entrances :=
  for_each (λ es entry, for_each (unlock_entrance state_list entry.1) es entry.2)
    es category_locks.

End locks.

(** ** The required-location solver: [search_goals] *)

(** [Search.ValidGoals] is declared in Search.py. As this file uses it, it
    is a dictionary from category names to dictionaries from goal names to
    world ids, in which the key ['way of the hero'] holds a truth value. (A
    category's ['stateReverse'] entry is a dictionary keyed by world id;
    [set()] sees its keys, so it is a list of world ids here as well.) *)
Inductive vg_entry :=
| VGoals (d : gmap string (list nat))
| VFlag (b : bool).

Abbreviation ValidGoals := (gmap string vg_entry).

(** The tuple [(location, weight, weight)] the solver stores. *)
Definition LocationWeights : Type := Location * Z * Z.

(** [RequiredLocations]: under a category name the nested dictionary
    [goal name -> world id -> list of tuples], under ['way of the hero'] a
    flat list of locations. The nested dictionaries are
    [defaultdict]s: a missing key reads as an empty container. *)
Inductive rl_entry :=
| RLGoals (d : gmap string (gmap nat (list LocationWeights)))
| RLList (l : list Location).

Abbreviation RequiredLocations := (gmap string rl_entry).

(** [priority_locations]: world id -> location name -> category name. *)
Abbreviation PriorityLocations := (gmap nat (gmap string string)).

(** [k in entry], [entry[k]] and the truth value of an entry of a
    [ValidGoals] dictionary. *)
Definition vg_contains (e : vg_entry) (k : string) : result bool :=
  match e with
  | VGoals d => Ok (bool_decide (is_Some (d !! k)))
  | VFlag _ => Raise TypeError
  end.

Definition vg_subscript (e : vg_entry) (k : string) : result (list nat) :=
  match e with
  | VGoals d => getitem (d !! k)
  | VFlag _ => Raise TypeError
  end.

Definition vg_true (e : vg_entry) : bool :=
  match e with
  | VGoals d => bool_decide (d ≠ ∅)
  | VFlag b => b
  end.

(** [l.remove(x)]: drops the first occurrence, [ValueError] without one. *)
Fixpoint list_remove {A} `{EqDecision A} (x : A) (l : list A) : result (list A) :=
  match l with
  | [] => Raise ValueError
  | y :: l => if decide (y = x) then Ok l else l' ← list_remove x l; Ok (y :: l')
  end.

(** The part of [Search] the solver calls. [iter_reachable_locations] is one
    resumption of the generator: the next location it yields together with
    the search it leaves behind, or [None] when it is exhausted. The engine
    reads the goal items and the items the locations hold at that
    moment. [collect s i item] is [s.state_list[i].collect(item)], [None]
    when there is no such state. *)
Class SearchEngine (Search : Type) := {
  state_world_ids : Search → list nat;
  iter_reachable_locations :
    list Location → (Location → option Item) → Search → option (Location * Search);
  beatable_goals :
    heap → (Location → option Item) → list (string * GoalCategory) → Search → ValidGoals;
  collect : Search → nat → Item → option Search;
}.

(** What [search_goals] reads and writes while it runs: its local
    [required_locations] and [remaining_locations], the caller's
    [priority_locations] and categories, the [item] attribute of every
    location, the search, and two traces: the locations
    [maybe_set_misc_hints] was called on and the locations the generator
    yielded, both oldest first. *)
Record solver (Search : Type) := {
  sv_required : RequiredLocations;
  sv_priority : PriorityLocations;
  sv_categories : list (string * GoalCategory);
  sv_items : Location → option Item;
  sv_misc_hints : list Location;
  sv_remaining : list Location;
  sv_search : Search;
  sv_yielded : list Location;
}.
Arguments sv_required {Search} _.
Arguments sv_priority {Search} _.
Arguments sv_categories {Search} _.
Arguments sv_items {Search} _.
Arguments sv_misc_hints {Search} _.
Arguments sv_remaining {Search} _.
Arguments sv_search {Search} _.
Arguments sv_yielded {Search} _.

Section search_goals.
Context {Search : Type} `{!SearchEngine Search}.
(** [ItemList.item_table], the goal items, and [world.hint_exclusions] by
    world id. *)
Variable item_table : string → option ItemInfo.
Variable h : heap.
Variable hint_exclusions : nat → list string.
(** The arguments of [search_goals] that stay fixed. *)
Variable reachable_goals : ValidGoals.
Variable all_locations : list Location.
Variable item_locations : list Location.
Variable always_locations : list string.
Variable search_woth : bool.

(** The tuple stored for a location (lines 360 to 363). *)
Definition location_weights (location : Location) : LocationWeights :=
  if bool_decide (loc_name location ∈ always_locations)
     || bool_decide (loc_name location ∈ hint_exclusions (loc_world location))
  then (location, 0, 0)%Z
  else (location, 1, 1)%Z.

(** [d[goal][world_id].append(lw)] on the inner [defaultdict]s. *)
Definition add_location (gname : string) (world_id : nat) (lw : LocationWeights)
    (d : gmap string (gmap nat (list LocationWeights)))
    : gmap string (gmap nat (list LocationWeights)) :=
  let ws := default ∅ (d !! gname) in
  <[gname := <[world_id := default [] (ws !! world_id) ++ [lw]]> ws]> d.

(** [required_locations[category][goal][world_id].append(lw)]: a flat list
    cannot be indexed by a goal name. *)
Definition append_required (cname gname : string) (lw : LocationWeights)
    (rl : RequiredLocations) (world_id : nat) : result RequiredLocations :=
  match rl !! cname with
  | Some (RLList _) => Raise TypeError
  | Some (RLGoals d) => Ok (<[cname := RLGoals (add_location gname world_id lw d)]> rl)
  | None => Ok (<[cname := RLGoals (add_location gname world_id lw ∅)]> rl)
  end.

(** [required_locations['way of the hero'].append(location)]. *)
Definition append_woth (location : Location) (rl : RequiredLocations)
    : result RequiredLocations :=
  match rl !! "way of the hero" with
  | Some (RLList l) => Ok (<["way of the hero" := RLList (l ++ [location])]> rl)
  | _ => Raise AttributeError
  end.

(** [priority_locations[world][name]], [None] when the name is unclaimed. *)
Definition owner (prio : PriorityLocations) (location : Location) : option string :=
  prio !! loc_world location ≫= λ claims, claims !! loc_name location.

Section location.
(** One location of the loop, the item taken off it and the goals still
    beatable without that item. *)
Variable world_ids : list nat.
Variable valid_goals : ValidGoals.
Variable location : Location.
Variable old_item : option Item.

(** The condition of lines 346 to 351, evaluated left to right. *)
Definition goal_eligible (prio : PriorityLocations) (cname : string) (goal : Goal)
    : result bool :=
  match valid_goals !! cname with
  | None => Ok false
  | Some ve =>
      in_valid ← vg_contains ve (g_name goal);
      if negb in_valid then Ok false else
      re ← getitem (reachable_goals !! cname);
      in_reachable ← vg_contains re (g_name goal);
      if negb in_reachable then Ok false else
      claims ← getitem (prio !! loc_world location);
      if negb (bool_decide (claims !! loc_name location = None)
               || bool_decide (claims !! loc_name location = Some cname))
      then Ok false else
      item ← match old_item with Some i => Ok i | None => Raise AttributeError end;
      required ← Goal_requires item_table h goal (item_name item);
      Ok (negb required)
  end.

(** [set(world_ids) - set(valid) & set(reachable)], as a list. *)
Definition hintable_states (valid reachable : list nat) : list nat :=
  let invalid_states : gset nat := list_to_set world_ids ∖ list_to_set valid in
  elements (invalid_states ∩ list_to_set reachable).

(** The body of the loop over [category.goals] (lines 346 to 370): the new
    dictionaries, the goal, and whether the location was credited to it (in
    which case the category's weight is set as well). *)
Definition credit_goal (cname : string) (acc : RequiredLocations * PriorityLocations)
    (goal : Goal) : result (RequiredLocations * PriorityLocations * Goal * bool) :=
  let '(rl, prio) := acc in
  eligible ← goal_eligible prio cname goal;
  if eligible : bool then
    ve ← getitem (valid_goals !! cname);
    valid ← vg_subscript ve (g_name goal);
    re ← getitem (reachable_goals !! cname);
    reachable ← vg_subscript re (g_name goal);
    let states := hintable_states valid reachable in
    if bool_decide (states ≠ []) then
      rl ← for_each (append_required cname (g_name goal) (location_weights location)) rl states;
      claims ← getitem (prio !! loc_world location);
      Ok (rl, <[loc_world location := <[loc_name location := cname]> claims]> prio,
          set_g_weight 1 goal, true)
    else Ok (rl, prio, goal, false)
  else Ok (rl, prio, goal, false).

(** The loop over [category.goals]. *)
Fixpoint credit_goals (cname : string) (acc : RequiredLocations * PriorityLocations)
    (goals : list Goal) : result (RequiredLocations * PriorityLocations * list Goal * bool) :=
  match goals with
  | [] => Ok (acc, [], false)
  | goal :: goals =>
      '(rl, prio, goal, credited) ← credit_goal cname acc goal;
      '(rl, prio, goals, credited') ← credit_goals cname (rl, prio) goals;
      Ok (rl, prio, goal :: goals, credited || credited')
  end.

(** The body of the loop over [categories.items()] (lines 343 to 370). *)
Definition credit_category (acc : RequiredLocations * PriorityLocations)
    (entry : string * GoalCategory)
    : result (RequiredLocations * PriorityLocations * (string * GoalCategory)) :=
  let '(cat_name, category) := entry in
  match reachable_goals !! c_name category with
  | Some re =>
      if vg_true re then
        '(rl, prio, goals, credited) ← credit_goals (c_name category) acc (c_goals category);
        let category := set_c_goals goals category in
        Ok (rl, prio, (cat_name, if credited : bool then set_c_weight 1 category else category))
      else Ok (acc, entry)
  | None => Ok (acc, entry)
  end.

(** The loop over [categories.items()]. *)
Fixpoint credit_categories (acc : RequiredLocations * PriorityLocations)
    (categories : list (string * GoalCategory))
    : result (RequiredLocations * PriorityLocations * list (string * GoalCategory)) :=
  match categories with
  | [] => Ok (acc, [])
  | entry :: categories =>
      '(rl, prio, entry) ← credit_category acc entry;
      '(rl, prio, categories) ← credit_categories (rl, prio) categories;
      Ok (rl, prio, entry :: categories)
  end.

(** Lines 371 and 372. *)
Definition credit_woth (rl : RequiredLocations) : result RequiredLocations :=
  if search_woth then
    woth ← getitem (valid_goals !! "way of the hero");
    if negb (vg_true woth) then append_woth location rl else Ok rl
  else Ok rl.

End location.

(** The body of the loop over the reachable locations (lines 335 to
    377). *)
Definition visit (world_ids : list nat) (st : solver Search) (location : Location)
    : result (solver Search) :=
  st ← (if bool_decide (location ∈ item_locations) then
          let old_item := sv_items st location in
          let detached := <[location := None]> (sv_items st) in
          let valid_goals := beatable_goals h detached (sv_categories st) (sv_search st) in
          '(rl, prio, categories) ←
            credit_categories world_ids valid_goals location old_item
              (sv_required st, sv_priority st) (sv_categories st);
          rl ← credit_woth valid_goals location rl;
          Ok {| sv_required := rl;
                sv_priority := prio;
                sv_categories := categories;
                sv_items := <[location := old_item]> detached;
                sv_misc_hints := sv_misc_hints st;
                sv_remaining := sv_remaining st;
                sv_search := sv_search st;
                sv_yielded := sv_yielded st |}
        else Ok st);
  remaining ← list_remove location (sv_remaining st);
  item ← match sv_items st location with Some i => Ok i | None => Raise AttributeError end;
  search ← match item_solver_id item with
           | Some _ =>
               match collect (sv_search st) (item_world item) item with
               | Some s => Ok s
               | None => Raise IndexError
               end
           | None => Ok (sv_search st)
           end;
  Ok {| sv_required := sv_required st;
        sv_priority := sv_priority st;
        sv_categories := sv_categories st;
        sv_items := sv_items st;
        sv_misc_hints := sv_misc_hints st ++ [location];
        sv_remaining := remaining;
        sv_search := search;
        sv_yielded := sv_yielded st |}.

(** Lines 378 to 381: the locations left over are marked as well. *)
Definition finish (st : solver Search) : solver Search :=
  {| sv_required := sv_required st;
     sv_priority := sv_priority st;
     sv_categories := sv_categories st;
     sv_items := sv_items st;
     sv_misc_hints := sv_misc_hints st ++ sv_remaining st;
     sv_remaining := sv_remaining st;
     sv_search := sv_search st;
     sv_yielded := sv_yielded st |}.

(** The generator handed the search back and yielded [location]. *)
Definition yield (st : solver Search) (location : Location) (search : Search)
    : solver Search :=
  {| sv_required := sv_required st;
     sv_priority := sv_priority st;
     sv_categories := sv_categories st;
     sv_items := sv_items st;
     sv_misc_hints := sv_misc_hints st;
     sv_remaining := sv_remaining st;
     sv_search := search;
     sv_yielded := sv_yielded st ++ [location] |}.

(** The loop over [search.iter_reachable_locations(all_locations)]. Every
    pass that does not raise takes one location off [remaining_locations],
    which bounds the number of passes; [None] is the model running out of
    [fuel]. *)
Fixpoint search_loop (world_ids : list nat) (fuel : nat) (st : solver Search)
    : option (result (solver Search)) :=
  match iter_reachable_locations all_locations (sv_items st) (sv_search st) with
  | None => Some (Ok (finish st))
  | Some (location, search) =>
      match visit world_ids (yield st location search) location with
      | Raise e => Some (Raise e)
      | Ok st =>
          match fuel with
          | 0 => None
          | S fuel => search_loop world_ids fuel st
          end
      end
  end.

(** [search_goals]. The result is the final state; [sv_required] of it is
    the dictionary the function returns. *)
Definition search_goals (categories : list (string * GoalCategory)) (search : Search)
    (priority_locations : PriorityLocations) (items : Location → option Item)
    : option (result (solver Search)) :=
  search_loop (state_world_ids search) (length all_locations)
    {| sv_required := if search_woth then {["way of the hero" := RLList []]} else ∅;
       sv_priority := priority_locations;
       sv_categories := categories;
       sv_items := items;
       sv_misc_hints := [];
       sv_remaining := all_locations;
       sv_search := search;
       sv_yielded := [] |}.

End search_goals.

(** ** The end of [update_goal_items] (lines 247 to 300) *)

(** What [update_goal_items] writes to the [Spoiler]: [required_locations]
    (the way of the hero by world id), [goal_categories] (a copy of every
    world's categories) and [goal_locations]
    (goal world -> category -> goal -> world -> locations). *)
Record Spoiler := {
  sp_required_locations : gmap nat (list Location);
  sp_goal_categories : gmap nat (list (string * GoalCategory));
  sp_goal_locations : gmap nat (gmap string (gmap string (gmap nat (list Location))));
}.

(** Lines 247 to 249: the solver's result is merged into
    [required_locations], the way of the hero is read and its key
    deleted. Reading a missing key of the [defaultdict] creates an empty
    dictionary, and [list()] of a dictionary is the list of its keys: goal
    names, on which line 254 fails for want of a [world] attribute. *)
Definition take_way_of_the_hero (required_locations identified_locations : RequiredLocations)
    : result (list Location * RequiredLocations) :=
  let required_locations := identified_locations ∪ required_locations in
  woth_locations ←
    match required_locations !! "way of the hero" with
    | Some (RLList l) => Ok l
    | Some (RLGoals d) => if bool_decide (d = ∅) then Ok [] else Raise AttributeError
    | None => Ok []
    end;
  Ok (woth_locations, delete "way of the hero" required_locations).

(** Lines 252 to 254: the way of the hero of each world. *)
Definition woth_locations_dict (worlds : list World) (woth_locations : list Location)
    : gmap nat (list Location) :=
  foldl (λ d world,
           <[w_id world := filter (λ location, loc_world location = w_id world) woth_locations]> d)
    ∅ worlds.

(** The goal item of the default goal. *)
Definition triforce : GoalItem :=
  {| gi_name := "Triforce"; gi_quantity := 1; gi_minimum := 1; gi_hintable := true |}.

(** The body of the loop of lines 263 to 272. The state is the worlds
    already visited, the spoiler's [goal_categories],
    [required_locations_dict] and the store. *)
Definition default_goal (required : gmap nat (list Location))
    (acc : list World * gmap nat (list (string * GoalCategory))
           * gmap nat (gmap string (gmap string (gmap nat (list Location)))) * heap)
    (world : World)
    : result (list World * gmap nat (list (string * GoalCategory))
              * gmap nat (gmap string (gmap string (gmap nat (list Location)))) * heap) :=
  let '(worlds, goal_categories, required_locations_dict, h) := acc in
  woth ← getitem (required !! w_id world);
  let locations : list ReqLoc := (λ location, (location, 1, 1, [w_id world])%Z) <$> woth in
  let '(locations_ref, h) := alloc (ReqList locations) h in
  let c := GoalCategory_init "ganon" 30 1 1 None None in
  let '(items, h) := alloc (ItemList [triforce]) h in
  '(g, h) ← Goal_init h (w_id world) "the hero" (HintStr "way of the hero") "White"
              (Some items) None None None None false;
  let g := set_g_required_locations locations_ref g in
  let c := add_goal c g in
  let world := set_w_goal_categories (dict_set (c_name c) c (w_goal_categories world)) world in
  let required_locations_dict :=
    <[w_id world := {["ganon" := {["the hero" := {[w_id world := (λ l : ReqLoc, l.1.1.1) <$> locations]}]}]}]>
      required_locations_dict in
  '(c', h) ← GoalCategory_copy h c;
  Ok (worlds ++ [world], <[w_id world := [(c_name c, c')]]> goal_categories,
      required_locations_dict, h).

Section update_goal_items.
(** Lines 274 to 299, the branch taken when the default goal is not used,
    regroups [required_locations] by world. Its result depends on the
    iteration order of the solver's dictionaries, which their
    representation as finite maps does not keep; the branch is left
    abstract. *)
Variable regroup :
  list World → RequiredLocations → Spoiler → heap → result (list World * Spoiler * heap).

(** The condition of line 262. *)
Definition use_default_goal (worlds : list World) (required_locations : RequiredLocations)
    : result bool :=
  if bool_decide (required_locations = ∅) then
    match worlds with
    | [] => Raise IndexError
    | world0 :: _ =>
        Ok (bool_decide (dict_get "ganon" (w_goal_categories world0) = None)
            && w_use_default_goals world0 && w_enable_goal_hints world0)
    end
  else Ok false.

(** Lines 247 to 300. *)
Definition report_goal_items (worlds : list World) (spoiler : Spoiler)
    (required_locations identified_locations : RequiredLocations) (h : heap)
    : result (list World * Spoiler * heap) :=
  '(woth_locations, required_locations) ←
    take_way_of_the_hero required_locations identified_locations;
  let spoiler :=
    {| sp_required_locations := woth_locations_dict worlds woth_locations;
       sp_goal_categories := sp_goal_categories spoiler;
       sp_goal_locations := sp_goal_locations spoiler |} in
  fallback ← use_default_goal worlds required_locations;
  if fallback : bool then
    '(worlds, goal_categories, required_locations_dict, h) ←
      for_each (default_goal (sp_required_locations spoiler))
        ([], sp_goal_categories spoiler, ∅, h) worlds;
    Ok (worlds,
        {| sp_required_locations := sp_required_locations spoiler;
           sp_goal_categories := goal_categories;
           sp_goal_locations := required_locations_dict |}, h)
  else regroup worlds required_locations spoiler h.

End update_goal_items.

(** ** [Goal.get_item] and [GoalCategory.get_goal] *)

(** [goal._item_cache = cache] and [category._goal_cache = cache]. *)
Definition set_g_item_cache (cache : gmap string nat) (g : Goal) : Goal :=
  {| g_world := g_world g; g_name := g_name g; g_hint_text := g_hint_text g;
     g_color := g_color g; g_items := g_items g; g_locations := g_locations g;
     g_lock_locations := g_lock_locations g; g_lock_entrances := g_lock_entrances g;
     g_required_locations := g_required_locations g; g_weight := g_weight g;
     g_category := g_category g; g_item_cache := cache |}.

Definition set_c_goal_cache (cache : gmap string nat) (c : GoalCategory) : GoalCategory :=
  {| c_name := c_name c; c_priority := c_priority c; c_lock_locations := c_lock_locations c;
     c_lock_entrances := c_lock_entrances c; c_goals := c_goals c;
     c_goal_count := c_goal_count c; c_minimum_goals := c_minimum_goals c;
     c_weight := c_weight c; c_goal_cache := cache |}.

(** The loops of lines 69 to 72 and 114 to 117: the first element of the
    list that carries the name, as its position in the list. *)
Fixpoint first_named {A} (name_of : A → string) (name : string) (l : list A) : option nat :=
  match l with
  | [] => None
  | x :: l => if decide (name_of x = name) then Some 0 else S <$> first_named name_of name l
  end.

(** [Goal.get_item]. The method returns one of the dictionaries of
    [goal.items], the object itself: the result is the position of that
    dictionary in the list, together with the goal and its cache. What the
    dictionary holds is read from the store, at the time it is read. *)
Definition Goal_get_item (h : heap) (self : Goal) (item : string) : result (nat * Goal) :=
  match g_item_cache self !! item with
  | Some i => Ok (i, self)
  | None =>
      match first_named gi_name item (items_at h (g_items self)) with
      | Some i => Ok (i, set_g_item_cache (<[item := i]> (g_item_cache self)) self)
      | None => Raise KeyError
      end
  end.

(** The dictionary at position [i] of [goal.items]. *)
Definition item_at (h : heap) (goal : Goal) (i : nat) : option GoalItem :=
  items_at h (g_items goal) !! i.

(** The goal object [get_goal] returns: the one it was handed, or the one
    at a position of [category.goals]. *)
Inductive GoalRef :=
| Given (g : Goal)
| Listed (k : nat).

(** The goal a reference stands for. *)
Definition goal_at (c : GoalCategory) (r : GoalRef) : option Goal :=
  match r with
  | Given g => Some g
  | Listed k => c_goals c !! k
  end.

(** [GoalCategory.get_goal]: the argument is a [Goal], which is handed
    back, or the name of one. *)
Definition GoalCategory_get_goal (self : GoalCategory) (goal : Goal + string)
    : result (GoalRef * GoalCategory) :=
  match goal with
  | inl g => Ok (Given g, self)
  | inr name =>
      match c_goal_cache self !! name with
      | Some g => Ok (Listed g, self)
      | None =>
          match first_named g_name name (c_goals self) with
          | Some g => Ok (Listed g, set_c_goal_cache (<[name := g]> (c_goal_cache self)) self)
          | None => Raise KeyError
          end
      end
  end.

(** ** [replace_goal_names] *)

(** [goal.hint_text = t] and [goal.color = c]. *)
Definition set_g_hint_text (t : HintText) (g : Goal) : Goal :=
  {| g_world := g_world g; g_name := g_name g; g_hint_text := t;
     g_color := g_color g; g_items := g_items g; g_locations := g_locations g;
     g_lock_locations := g_lock_locations g; g_lock_entrances := g_lock_entrances g;
     g_required_locations := g_required_locations g; g_weight := g_weight g;
     g_category := g_category g; g_item_cache := g_item_cache g |}.

Definition set_g_color (c : string) (g : Goal) : Goal :=
  {| g_world := g_world g; g_name := g_name g; g_hint_text := g_hint_text g;
     g_color := c; g_items := g_items g; g_locations := g_locations g;
     g_lock_locations := g_lock_locations g; g_lock_entrances := g_lock_entrances g;
     g_required_locations := g_required_locations g; g_weight := g_weight g;
     g_category := g_category g; g_item_cache := g_item_cache g |}.

(** The three entries of [world.settings] the function reads. *)
Record Settings := {
  shuffle_dungeon_rewards : string;
  skip_reward_from_rauru : bool;
  clearer_hints : bool;
}.

(** A loop that rewrites the elements of a list one after the other. *)
Fixpoint map_each {A B} (f : A → result B) (l : list A) : result (list B) :=
  match l with
  | [] => Ok []
  | x :: l => y ← f x; l' ← map_each f l; Ok (y :: l')
  end.

Section replace_goal_names.
(** What belongs to other files: the settings and the filled locations of a
    world (by its id), the [type] of a location, the item each location
    holds, and the two tables of HintList.py, whose entries are
    [(flavor_text, clear_text, color)] by boss location and
    [(flavor_text, clear_text)] by reward. *)
Variable settings : nat → Settings.
Variable get_filled_locations : nat → list Location.
Variable loc_type : Location → string.
Variable items : Location → option Item.
Variable BOSS_GOAL_TABLE : gmap string (string * string * string).
Variable REWARD_GOAL_TABLE : gmap string (string * string).

(** The list [bosses] of lines 152 to 157. *)
Definition bosses (world : World) : list Location :=
  filter (λ location,
            loc_type location = "Boss"
            ∨ (loc_name location = "ToT Reward from Rauru"
               ∧ skip_reward_from_rauru (settings (w_id world)) = false))
    (get_filled_locations (w_id world)).

(** The loop over [bosses] (lines 161 to 169) for a goal whose hint text is
    the dictionary [d]: the first boss that holds the reward names the
    goal. *)
Fixpoint boss_goal_name (world : World) (d : gmap string string) (goal : Goal)
    (bosses : list Location) : result Goal :=
  match bosses with
  | [] => Ok goal
  | boss :: bosses =>
      item ← match items boss with Some i => Ok i | None => Raise AttributeError end;
      wanted ← getitem (d !! "replace");
      if decide (item_name item = wanted) then
        '(flavor_text, clear_text, color) ← getitem (BOSS_GOAL_TABLE !! loc_name boss);
        Ok (set_g_color color
              (set_g_hint_text
                 (HintStr (if clearer_hints (settings (w_id world))
                           then clear_text else flavor_text))
                 goal))
      else boss_goal_name world d goal bosses
  end.

(** Lines 160 to 169. *)
Definition boss_goal (world : World) (bosses : list Location) (goal : Goal) : result Goal :=
  match g_hint_text goal with
  | HintDict d => boss_goal_name world d goal bosses
  | HintStr _ => Ok goal
  end.

(** Lines 173 to 178. *)
Definition reward_goal (world : World) (goal : Goal) : result Goal :=
  match g_hint_text goal with
  | HintDict d =>
      wanted ← getitem (d !! "replace");
      '(flavor_text, clear_text) ← getitem (REWARD_GOAL_TABLE !! wanted);
      Ok (set_g_hint_text
            (HintStr (if clearer_hints (settings (w_id world))
                      then clear_text else flavor_text))
            goal)
  | HintStr _ => Ok goal
  end.

(** The two loops over [world.goal_categories.values()] and
    [category.goals], with the body [f] for a goal. The goals are rewritten
    where they stand: a goal object is taken to be a goal of one category
    of one world. *)
Definition rename_category (f : Goal → result Goal) (entry : string * GoalCategory)
    : result (string * GoalCategory) :=
  goals ← map_each f (c_goals entry.2);
  Ok (entry.1, set_c_goals goals entry.2).

Definition rename_goals (f : Goal → result Goal) (world : World) : result World :=
  categories ← map_each (rename_category f) (w_goal_categories world);
  Ok (set_w_goal_categories categories world).

(** The body of the loop over [worlds]. *)
Definition replace_world_goal_names (world : World) : result World :=
  if bool_decide (shuffle_dungeon_rewards (settings (w_id world)) ∈ ["vanilla"; "reward"])
  then rename_goals (boss_goal world (bosses world)) world
  else rename_goals (reward_goal world) world.

(** [replace_goal_names]. *)
Definition replace_goal_names (worlds : list World) : result (list World) :=
  map_each replace_world_goal_names worlds.

End replace_goal_names.

(** * Properties *)

(** ** Vocabulary of the statements *)

(** An item dictionary after [update_reachable_goals]: the same name,
    minimum and hintable flag, and a quantity that either did not change or
    went down without passing below the minimum. *)
Definition item_shrunk (i i' : GoalItem) : Prop :=
  gi_name i' = gi_name i ∧ gi_minimum i' = gi_minimum i ∧ gi_hintable i' = gi_hintable i ∧
  (gi_quantity i' = gi_quantity i ∨ (gi_minimum i ≤ gi_quantity i' < gi_quantity i)%Z).

(** The same for every list of the store; the lists of required locations
    are not touched. *)
Definition heap_shrunk (h h' : heap) : Prop :=
  ∀ a, Forall2 item_shrunk (items_at h a) (items_at h' a) ∧ reqs_at h' a = reqs_at h a.


(** The rules [lock_category_entrances] saves for the state of world [w]. *)
Definition saved_rules {State} (es : gmap (nat * string) (AccessRule State)) (w : nat)
    (locks : list string) : list (string * AccessRule State) :=
  (λ n, (n, default locked_rule (es !! (w, n)))) <$> locks.


(** [x] is one of the tuples stored under category [c], goal [g] and world
    [w]. *)
Definition recorded (rl : RequiredLocations) (c g : string) (w : nat) (x : LocationWeights)
    : Prop :=
  ∃ d ws l, rl !! c = Some (RLGoals d) ∧ d !! g = Some ws ∧ ws !! w = Some l ∧ x ∈ l.

(** [rl'] is [rl] with more tuples: all of them satisfy [P], and a key that
    is new satisfies [Q]; flat lists are where they were. *)
Definition rl_grows (P : string → string → nat → LocationWeights → Prop) (Q : string → Prop)
    (rl rl' : RequiredLocations) : Prop :=
  (∀ c g w x, recorded rl c g w x → recorded rl' c g w x)
  ∧ (∀ c g w x, recorded rl' c g w x → recorded rl c g w x ∨ P c g w x)
  ∧ (∀ k l, rl' !! k = Some (RLList l) ↔ rl !! k = Some (RLList l))
  ∧ (∀ k, rl !! k = None → rl' !! k = None ∨ Q k).


(** A claim in [priority_locations] is never taken back or changed. *)
Definition owner_mono (prio prio' : PriorityLocations) : Prop :=
  ∀ L c, owner prio L = Some c → owner prio' L = Some c.

(** The location went to category [c]: it was unclaimed or claimed by [c]
    before, and it is claimed by [c] after. *)
Definition claimed (prio prio' : PriorityLocations) (location : Location) (c : string) : Prop :=
  owner prio' location = Some c
  ∧ (owner prio location = None ∨ owner prio location = Some c).

(** The solver changes goals and categories in their weights only, from 0
    to 1. *)
Definition goal_le (g g' : Goal) : Prop :=
  g_name g' = g_name g ∧ g_items g' = g_items g
  ∧ (g_weight g = 1%Z → g_weight g' = 1%Z).

Definition category_le (e e' : string * GoalCategory) : Prop :=
  e'.1 = e.1 ∧ c_name e'.2 = c_name e.2
  ∧ (c_weight e.2 = 1%Z → c_weight e'.2 = 1%Z)
  ∧ Forall2 goal_le (c_goals e.2) (c_goals e'.2).

(** Among [goals] there is a goal named [g] of weight 1 that does not
    require the item [item]. *)
Definition credited_goal (item_table : string → option ItemInfo) (h : heap)
    (item : option Item) (goals : list Goal) (g : string) : Prop :=
  ∃ goal i, goal ∈ goals ∧ g_name goal = g ∧ g_weight goal = 1%Z
    ∧ item = Some i ∧ Goal_requires item_table h goal (item_name i) = Ok false.

(** Among [categories] there is a category named [c] of weight 1 with such
    a goal. *)
Definition credited_category (item_table : string → option ItemInfo) (h : heap)
    (item : option Item) (categories : list (string * GoalCategory)) (c g : string) : Prop :=
  ∃ e, e ∈ categories ∧ c_name e.2 = c ∧ c_weight e.2 = 1%Z
    ∧ credited_goal item_table h item (c_goals e.2) g.

(** The entry of a category in a [ValidGoals] dictionary is a dictionary of
    goals. *)
Definition has_goals (valid_goals : ValidGoals) (c : string) : Prop :=
  ∃ d, valid_goals !! c = Some (VGoals d).


(** What holds of the solver's state at every turn of the loop of
    [search_goals] started with the claims [prio0], the categories
    [categories0] and the items [items0]: every stored tuple is the one
    [location_weights] gives for its location, which was yielded, went to
    the category it is stored under and was credited to a goal that does
    not require its item; a key of [required_locations] is
    ['way of the hero'] (in that mode) or the name of one of the categories,
    whose entry the engine returned as a dictionary of goals; the way of the hero is a flat list
    of yielded locations; claims, categories and items are as described
    above; [maybe_set_misc_hints] was called on the yielded locations; and
    a location of [all_locations] not yet yielded is still in
    [remaining_locations]. *)
Record solver_inv {Search : Type} `{!SearchEngine Search}
    (item_table : string → option ItemInfo) (h : heap) (hint_exclusions : nat → list string)
    (all_locations : list Location) (always_locations : list string) (search_woth : bool)
    (prio0 : PriorityLocations) (categories0 : list (string * GoalCategory))
    (items0 : Location → option Item) (st : solver Search) : Prop := {
  inv_recorded : ∀ c g w x, recorded (sv_required st) c g w x →
    x = location_weights hint_exclusions always_locations x.1.1
    ∧ x.1.1 ∈ sv_yielded st
    ∧ claimed prio0 (sv_priority st) x.1.1 c
    ∧ credited_category item_table h (items0 x.1.1) (sv_categories st) c g;
  inv_keys : ∀ k, is_Some (sv_required st !! k) →
    (k = "way of the hero" ∧ search_woth = true)
    ∨ ((∃ items categories search, has_goals (beatable_goals h items categories search) k)
       ∧ ∃ e, e ∈ categories0 ∧ c_name e.2 = k);
  inv_woth :
    if search_woth
    then ∃ l, sv_required st !! "way of the hero" = Some (RLList l)
              ∧ ∀ L, L ∈ l → L ∈ sv_yielded st
    else ∀ k l, sv_required st !! k ≠ Some (RLList l);
  inv_owner : owner_mono prio0 (sv_priority st);
  inv_categories : Forall2 category_le categories0 (sv_categories st);
  inv_items : ∀ L, sv_items st L = items0 L;
  inv_misc : sv_misc_hints st = sv_yielded st;
  inv_remaining : ∀ L, L ∈ all_locations → L ∈ sv_yielded st ∨ L ∈ sv_remaining st;
}.


(** The category of the default goal of the world [world_id] whose way of
    the hero is [woth]: named ['ganon'], of priority 30, holding the one
    goal ['the hero'], whose required locations are the locations of
    [woth], each with weights 1 and 1 and the world's id. *)
Definition default_category (h : heap) (world_id : nat) (woth : list Location)
    (c : GoalCategory) : Prop :=
  c_name c = "ganon" ∧ c_priority c = 30%Z ∧ c_goal_count c = 1%Z ∧ c_minimum_goals c = 1%Z
  ∧ ∃ g, c_goals c = [g] ∧ g_name g = "the hero" ∧ g_color g = "White"
      ∧ g_hint_text g = HintStr "way of the hero"
      ∧ h !! g_items g = Some (ItemList [triforce])
      ∧ h !! g_required_locations g
        = Some (ReqList ((λ location, (location, 1, 1, [world_id])%Z) <$> woth)).

(** The way of the hero of one world. *)
Definition world_woth (woth_locations : list Location) (world_id : nat) : list Location :=
  filter (λ location, loc_world location = world_id) woth_locations.


(** What the fallback does to one world: its categories get the default
    category under ['ganon']. *)
Definition default_world (h : heap) (woth_locations : list Location) (world world' : World)
    : Prop :=
  ∃ c, world' = set_w_goal_categories (dict_set "ganon" c (w_goal_categories world)) world
       ∧ default_category h (w_id world) (world_woth woth_locations (w_id world)) c.

(** What the fallback writes to the spoiler for one world: a copy of the
    default category, and the way of the hero of the world as the locations
    of the goal. *)
Definition default_spoiler (h : heap) (woth_locations : list Location)
    (goal_categories : gmap nat (list (string * GoalCategory)))
    (goal_locations : gmap nat (gmap string (gmap string (gmap nat (list Location)))))
    (world : World) : Prop :=
  (∃ c', goal_categories !! w_id world = Some [("ganon", c')]
         ∧ default_category h (w_id world) (world_woth woth_locations (w_id world)) c')
  ∧ goal_locations !! w_id world
    = Some {["ganon" := {["the hero" :=
              {[w_id world := world_woth woth_locations (w_id world)]}]}]}.


(** The goal can take the location for world [w], the claims of
    [priority_locations] apart (lines 346 to 353): the engine and
    [reachable_goals] both list the goal under the category's name, the goal
    does not require the item taken off the location, and [w] is a world of
    the search for which the goal is reachable and, without the item, no
    longer beatable. *)
Definition goal_claims (item_table : string → option ItemInfo) (h : heap)
    (reachable_goals valid_goals : ValidGoals) (world_ids : list nat)
    (old_item : option Item) (cname : string) (goal : Goal) (w : nat) : Prop :=
  ∃ ve valid re reachable item,
    valid_goals !! cname = Some ve ∧ vg_subscript ve (g_name goal) = Ok valid
    ∧ reachable_goals !! cname = Some re ∧ vg_subscript re (g_name goal) = Ok reachable
    ∧ old_item = Some item ∧ Goal_requires item_table h goal (item_name item) = Ok false
    ∧ w ∈ world_ids ∧ (w ∉ valid) ∧ w ∈ reachable.

(** The same for a category, which must have reachable goals (line 344),
    and one of its goals. *)
Definition can_claim (item_table : string → option ItemInfo) (h : heap)
    (reachable_goals valid_goals : ValidGoals) (world_ids : list nat)
    (old_item : option Item) (entry : string * GoalCategory) (goal : Goal) (w : nat) : Prop :=
  goal ∈ c_goals entry.2
  ∧ (∃ re, reachable_goals !! c_name entry.2 = Some re ∧ vg_true re = true)
  ∧ goal_claims item_table h reachable_goals valid_goals world_ids old_item
      (c_name entry.2) goal w.

(** The categories come in the order of their priorities. *)
Definition by_priority (categories : list (string * GoalCategory)) : Prop :=
  ∀ j k e1 e2, j < k → categories !! j = Some e1 → categories !! k = Some e2 →
    (c_priority e1.2 ≤ c_priority e2.2)%Z.

(** ** Vocabulary of the further statements *)

(** Position [k] of [l] holds the first element that carries the name. *)
Definition first_at {A} (name_of : A → string) (name : string) (l : list A) (k : nat) : Prop :=
  (∃ x, l !! k = Some x ∧ name_of x = name)
  ∧ ∀ j y, j < k → l !! j = Some y → name_of y ≠ name.

(** The elements of [l'] are those of [l], with the names they had. *)
Definition same_names {A} (name_of : A → string) (l l' : list A) : Prop :=
  Forall2 (λ x y, name_of y = name_of x) l l'.

(** What [get_item] and [get_goal] fill the caches with: under a name, the
    first item (goal) of the list that carries it. The empty cache every
    goal and category starts with is of this kind, and a cache stays of
    this kind when the items and goals are updated in place and keep their
    names. *)
Definition item_cache_coherent (h : heap) (g : Goal) : Prop :=
  ∀ name k, g_item_cache g !! name = Some k →
    first_at gi_name name (items_at h (g_items g)) k.

Definition goal_cache_coherent (c : GoalCategory) : Prop :=
  ∀ name k, c_goal_cache c !! name = Some k → first_at g_name name (c_goals c) k.

(** [g'] is a copy of [g] made by [Goal.copy] between the stores [h] and
    [h']: the attributes given to the constructor are those of [g], the two
    lists have the contents they had, and weight, category and cache are
    those of a new goal. *)
Definition goal_copied (h h' : heap) (g g' : Goal) : Prop :=
  g_world g' = g_world g ∧ g_name g' = g_name g ∧ g_hint_text g' = g_hint_text g
  ∧ g_color g' = g_color g ∧ g_locations g' = g_locations g
  ∧ g_lock_locations g' = g_lock_locations g ∧ g_lock_entrances g' = g_lock_entrances g
  ∧ g_weight g' = 0%Z ∧ g_category g' = None ∧ g_item_cache g' = ∅
  ∧ items_at h' (g_items g') = items_at h (g_items g)
  ∧ reqs_at h' (g_required_locations g') = reqs_at h (g_required_locations g).

(** The store [h'] is [h] with more lists, all of them empty. *)
Definition grown_empty (h h' : heap) : Prop :=
  h ⊆ h' ∧ ∀ a c, h !! a = None → h' !! a = Some c → cell_length c = 0.

(** [g] is the first goal of the list whose color is not a valid one. *)
Definition first_invalid_color (goals : list Goal) (g : Goal) : Prop :=
  ∃ k, goals !! k = Some g ∧ (g_color g ∉ validColors)
       ∧ ∀ j g0, j < k → goals !! j = Some g0 → g_color g0 ∈ validColors.

(** The category [e'] is [e] with its goals rewritten one by one, each
    related to the goal it replaces by [R]; and the same for the
    categories of a world. *)
Definition category_renamed (R : Goal → Goal → Prop) (e e' : string * GoalCategory) : Prop :=
  e'.1 = e.1 ∧ ∃ goals, e'.2 = set_c_goals goals e.2 ∧ Forall2 R (c_goals e.2) goals.

Definition world_renamed (R : Goal → Goal → Prop) (w w' : World) : Prop :=
  ∃ categories,
    w' = set_w_goal_categories categories w
    ∧ Forall2 (category_renamed R) (w_goal_categories w) categories.

(** The goal is left as it is, or its hint text was a dictionary and is now
    a text, with its color possibly another one and nothing else
    changed. *)
Definition goal_renamed (g g' : Goal) : Prop :=
  g' = g
  ∨ ∃ d text color,
      g_hint_text g = HintDict d ∧ g' = set_g_color color (set_g_hint_text (HintStr text) g).

(** The goals of a list of worlds. *)
Definition goal_of (worlds : list World) (g : Goal) : Prop :=
  ∃ w e, w ∈ worlds ∧ e ∈ w_goal_categories w ∧ g ∈ c_goals e.2.

(** The location holds an item of that name, and is the first of the list
    to do so. *)
Definition holds (items : Location → option Item) (wanted : string) (location : Location)
    : Prop :=
  ∃ i, items location = Some i ∧ item_name i = wanted.

Definition first_holding (items : Location → option Item) (wanted : string)
    (locations : list Location) (location : Location) : Prop :=
  ∃ k, locations !! k = Some location ∧ holds items wanted location
       ∧ ∀ j l, j < k → locations !! j = Some l → ¬ holds items wanted l.

(** The solver left the goal as it is, or set its weight to 1 and then
    stored a location under the goal's name in category [c]; and the same
    for a category and its goals. *)
Definition goal_step (rl : RequiredLocations) (c : string) (g g' : Goal) : Prop :=
  g' = g ∨ (g' = set_g_weight 1 g ∧ ∃ w x, recorded rl c (g_name g) w x).

Definition category_step (rl : RequiredLocations) (e e' : string * GoalCategory) : Prop :=
  e'.1 = e.1
  ∧ ∃ goals,
      Forall2 (goal_step rl (c_name e.2)) (c_goals e.2) goals
      ∧ (e'.2 = set_c_goals goals e.2
         ∨ (e'.2 = set_c_weight 1 (set_c_goals goals e.2)
            ∧ ∃ g w x, recorded rl (c_name e.2) g w x)).

(** Why a location is stored for goal [g] of category [c] and world [w]:
    [w] is a world of the search, [reachable_goals] lists [w] for the goal,
    and the engine, asked with the item of the location taken off and every
    other location holding what it held at the start, did not list [w] for
    the goal. *)
Definition hintable {Search : Type} `{!SearchEngine Search} (h : heap)
    (reachable_goals : ValidGoals) (world_ids : list nat) (items0 : Location → option Item)
    (c g : string) (w : nat) (location : Location) : Prop :=
  w ∈ world_ids
  ∧ (∃ re reachable,
       reachable_goals !! c = Some re ∧ vg_subscript re g = Ok reachable ∧ w ∈ reachable)
  ∧ (∃ items categories search ve valid,
       (∀ L, items L = if decide (L = location) then None else items0 L)
       ∧ beatable_goals h items categories search !! c = Some ve
       ∧ vg_subscript ve g = Ok valid ∧ w ∉ valid).

(** More of what holds at every turn of the loop of [search_goals]: a
    stored tuple is that of a location of [item_locations] and was
    [hintable]; a key of [required_locations] other than
    ['way of the hero'] has a tuple stored under it; the way of the hero
    lists locations of [item_locations] in the order they were yielded; the
    locations yielded and the remaining ones are together those of
    [all_locations]; the categories differ from those at the start by
    [category_step]; and a claim of [priority_locations] was there at the
    start or is that of a stored location. *)
Record solver_trace {Search : Type} `{!SearchEngine Search} (h : heap)
    (reachable_goals : ValidGoals) (all_locations item_locations : list Location)
    (search_woth : bool) (world_ids : list nat)
    (prio0 : PriorityLocations) (categories0 : list (string * GoalCategory))
    (items0 : Location → option Item) (st : solver Search) : Prop := {
  tr_recorded : ∀ c g w x, recorded (sv_required st) c g w x →
    x.1.1 ∈ item_locations ∧ hintable h reachable_goals world_ids items0 c g w x.1.1;
  tr_keys : ∀ k, is_Some (sv_required st !! k) →
    (k = "way of the hero" ∧ search_woth = true)
    ∨ ∃ g w x, recorded (sv_required st) k g w x;
  tr_woth : ∀ l, sv_required st !! "way of the hero" = Some (RLList l) →
    sublist l (filter (λ L, L ∈ item_locations) (sv_yielded st));
  tr_locations : sv_yielded st ++ sv_remaining st ≡ₚ all_locations;
  tr_categories : Forall2 (category_step (sv_required st)) categories0 (sv_categories st);
  tr_claims : ∀ L c, owner (sv_priority st) L = Some c →
    owner prio0 L = Some c
    ∨ ∃ g w x, recorded (sv_required st) c g w x
        ∧ loc_world x.1.1 = loc_world L ∧ loc_name x.1.1 = loc_name L;
  tr_untouched : (∀ c g w x, ¬ recorded (sv_required st) c g w x) → sv_priority st = prio0;
}.

(** The item lists of [h'] are those of [h] with quantities that are the
    same or lower. *)
Definition item_lowered (i i' : GoalItem) : Prop :=
  gi_name i' = gi_name i ∧ gi_minimum i' = gi_minimum i ∧ gi_hintable i' = gi_hintable i
  ∧ (gi_quantity i' ≤ gi_quantity i)%Z.

Definition heap_lowered (h h' : heap) : Prop :=
  ∀ a, Forall2 item_lowered (items_at h a) (items_at h' a).

(** The goals [update_reachable_goals] of a category named [name] looks
    at: those of the category each starting state's world lists under that
    name. *)
Definition reachable_target {State : Type} (state_world : State → World) (name : string)
    (starting : list State) (index : nat) (goal : Goal) : Prop :=
  ∃ state world_category,
    starting !! index = Some state
    ∧ dict_get name (w_goal_categories (state_world state)) = Some world_category
    ∧ goal ∈ c_goals world_category.

(** ** A small world to run the definitions on *)

(** One world with three locations: a medallion in the Deku Tree, a token
    in the Skull House and a rupee in a cave the search never reaches. *)
Definition deku_tree : Location := {| loc_id := 1; loc_name := "Deku Tree"; loc_world := 0 |}.
Definition skull_house : Location := {| loc_id := 2; loc_name := "Skull House"; loc_world := 0 |}.
Definition sealed_cave : Location := {| loc_id := 3; loc_name := "Sealed Cave"; loc_world := 0 |}.

Definition medallion : Item :=
  {| item_name := "Medallion"; item_world := 0; item_solver_id := Some 7 |}.
Definition token : Item :=
  {| item_name := "Gold Skulltula Token"; item_world := 0; item_solver_id := Some 8 |}.
Definition rupee : Item :=
  {| item_name := "Rupee"; item_world := 0; item_solver_id := None |}.

Definition sample_items (location : Location) : option Item :=
  if decide (location = deku_tree) then Some medallion
  else if decide (location = skull_house) then Some token
  else Some rupee.

Definition sample_item_table (name : string) : option ItemInfo :=
  Some {| it_special := None |}.

(** The item lists of the goals, and an empty list of required
    locations. *)
Definition sample_heap : heap :=
  {[ 0 := ItemList [ {| gi_name := "Medallion"; gi_quantity := 1; gi_minimum := 1;
                        gi_hintable := true |} ];
     1 := ItemList [ {| gi_name := "Gold Skulltula Token"; gi_quantity := 100;
                        gi_minimum := 50; gi_hintable := false |} ];
     2 := ReqList [] ]}.

Definition sample_goal (name : string) (items : addr) : Goal :=
  {| g_world := 0; g_name := name; g_hint_text := HintStr name; g_color := "White";
     g_items := items; g_locations := None; g_lock_locations := None;
     g_lock_entrances := []; g_required_locations := 2; g_weight := 0;
     g_category := None; g_item_cache := ∅ |}.

(** Two categories that both ask for the medallion; the first one also
    has a goal on tokens, which may not be hinted. *)
Definition bridge : GoalCategory :=
  add_goal
    (add_goal (GoalCategory_init "bridge" 10 2 1 None (Some ["Bridge"; "Castle Door"]))
       (sample_goal "open bridge" 0))
    (sample_goal "tokens" 1).
Definition trials : GoalCategory :=
  add_goal (GoalCategory_init "trials" 20 1 1 None None) (sample_goal "trial" 0).

Definition sample_categories : list (string * GoalCategory) :=
  [("bridge", bridge); ("trials", trials)].

Definition sample_world (id : nat) : World :=
  {| w_id := id; w_goal_categories := sample_categories;
     w_enable_goal_hints := true; w_use_default_goals := true |}.

(** A search engine for this world: it yields the locations of its queue
    one by one, and a goal is beatable for world 0 when every item it
    names is held by one of the two reachable locations. *)
Definition available (items : Location → option Item) (name : string) : bool :=
  existsb (λ location, match items location with
                       | Some i => bool_decide (item_name i = name)
                       | None => false
                       end) [deku_tree; skull_house].

Definition beatable_worlds (h : heap) (items : Location → option Item) (g : Goal) : list nat :=
  if forallb (λ i, available items (gi_name i)) (items_at h (g_items g)) then [0] else [].

Definition sample_valid_goals (h : heap) (items : Location → option Item)
    (categories : list (string * GoalCategory)) : ValidGoals :=
  <["way of the hero" := VFlag (available items "Medallion")]>
    (list_to_map
       ((λ e : string * GoalCategory,
           (c_name e.2,
            VGoals (list_to_map ((λ g, (g_name g, beatable_worlds h items g)) <$> c_goals e.2))))
        <$> categories)).

Global Instance sample_engine : SearchEngine (list Location) := {|
  state_world_ids := λ _, [0];
  iter_reachable_locations := λ _ _ queue,
    match queue with
    | [] => None
    | location :: queue => Some (location, queue)
    end;
  beatable_goals := λ h items categories _, sample_valid_goals h items categories;
  collect := λ queue i _, if decide (i = 0) then Some queue else None |}.

(** [search_goals] on this world, with the Skull House always hinted. *)
Definition sample_search (search_woth : bool) : option (result (solver (list Location))) :=
  search_goals sample_item_table sample_heap (λ _, [])
    (sample_valid_goals sample_heap sample_items sample_categories)
    [deku_tree; skull_house; sealed_cave] [deku_tree; skull_house] ["Skull House"] search_woth
    sample_categories [deku_tree; skull_house] {[0 := ∅]} sample_items.

(** The loop over the categories for the Deku Tree, its medallion taken
    off and nothing stored or claimed yet: with the categories as they are,
    and in the other order. *)
Definition sample_detached : ValidGoals :=
  sample_valid_goals sample_heap (<[deku_tree := None]> sample_items) sample_categories.

Definition sample_credit (categories : list (string * GoalCategory))
    : result (RequiredLocations * PriorityLocations * list (string * GoalCategory)) :=
  credit_categories sample_item_table sample_heap (λ _, [])
    (sample_valid_goals sample_heap sample_items sample_categories) ["Skull House"] [0]
    sample_detached deku_tree (Some medallion) (∅, {[0 := ∅]}) categories.

Definition sample_credited (categories : list (string * GoalCategory))
    : RequiredLocations * PriorityLocations * list (string * GoalCategory) :=
  match sample_credit categories with
  | Ok r => r
  | Raise _ => (∅, ∅, [])
  end.

(** The states of two searches, as the number of each item collected. *)
Definition sample_has_item_goal (state : gmap string Z) (i : GoalItem) : bool :=
  bool_decide (gi_minimum i ≤ default 0 (state !! gi_name i))%Z.

Definition sample_full_state : gmap string Z :=
  {[ "Medallion" := 6%Z; "Gold Skulltula Token" := 70%Z ]}.

(** The entrances of two worlds, open to every state. *)
Definition sample_entrances : gmap (nat * string) (AccessRule nat) :=
  {[ (0, "Bridge") := λ _, true; (0, "Castle Door") := λ _, true;
     (1, "Bridge") := λ _, true; (1, "Castle Door") := λ _, true ]}.

(** A category that names one entrance twice. *)
Definition twice_locked : GoalCategory :=
  GoalCategory_init "bridge" 10 1 1 None (Some ["Bridge"; "Bridge"]).

(** The state [search_goals] ends in on this world. *)
Definition sample_final (search_woth : bool) : solver (list Location) :=
  match sample_search search_woth with
  | Some (Ok st) => st
  | _ => {| sv_required := ∅; sv_priority := ∅; sv_categories := []; sv_items := λ _, None;
            sv_misc_hints := []; sv_remaining := []; sv_search := []; sv_yielded := [] |}
  end.


(** [lock_category_entrances] followed by [unlock_category_entrances] on the
    same states, and what an entrance then answers to a state. *)
Definition lock_then_unlock {State} (state_world : State → World) (category : GoalCategory)
    (state_list : list State) (es : gmap (nat * string) (AccessRule State))
    : result (gmap (nat * string) (AccessRule State)) :=
  '(category_locks, locked) ← lock_category_entrances state_world category state_list es;
  unlock_category_entrances state_world category_locks state_list locked.

Definition passable {State} (es : gmap (nat * string) (AccessRule State))
    (entrance : nat * string) (state : State) : result bool :=
  rule ← getitem (es !! entrance); Ok (rule state).


(** An empty spoiler, two worlds without a ['ganon'] category, and a stand-in
    for the branch of [update_goal_items] the default goal does not take. *)
Definition sample_spoiler : Spoiler :=
  {| sp_required_locations := ∅; sp_goal_categories := ∅; sp_goal_locations := ∅ |}.

Definition no_regroup (worlds : list World) (required_locations : RequiredLocations)
    (spoiler : Spoiler) (h : heap) : result (list World * Spoiler * heap) :=
  Raise (Exception "not reached").

Definition sample_world_without_ganon (id : nat) : World :=
  {| w_id := id; w_goal_categories := [("trials", trials)];
     w_enable_goal_hints := true; w_use_default_goals := true |}.


(** ** More of the small world *)

(** [search_goals] on the small world when goal hints are off:
    [reachable_goals] is the empty dictionary. *)
Definition sample_search_unhinted : option (result (solver (list Location))) :=
  search_goals sample_item_table sample_heap (λ _, []) ∅
    [deku_tree; skull_house; sealed_cave] [deku_tree; skull_house] ["Skull House"] true
    sample_categories [deku_tree; skull_house] {[0 := ∅]} sample_items.

Definition sample_final_unhinted : solver (list Location) :=
  match sample_search_unhinted with
  | Some (Ok st) => st
  | _ => {| sv_required := ∅; sv_priority := ∅; sv_categories := []; sv_items := λ _, None;
            sv_misc_hints := []; sv_remaining := []; sv_search := []; sv_yielded := [] |}
  end.

(** A state of the solver in which the engine is about to yield the sealed
    cave while only the Deku Tree is left in [remaining_locations]. *)
Definition sample_stray : solver (list Location) :=
  {| sv_required := ∅; sv_priority := {[0 := ∅]}; sv_categories := sample_categories;
     sv_items := sample_items; sv_misc_hints := []; sv_remaining := [deku_tree];
     sv_search := [sealed_cave]; sv_yielded := [] |}.

(** The store after [update_reachable_goals] for the bridge category, with
    70 tokens obtainable. *)
Definition sample_count (state : gmap string Z) (name : string) : Z :=
  default 0%Z (state !! name).

Definition sample_updated_heap : heap :=
  match update_reachable_goals (λ _, sample_world 0) sample_count sample_has_item_goal
          bridge [∅] [sample_full_state] sample_heap with
  | Ok h => h
  | Raise _ => sample_heap
  end.

(** The goal on tokens once [get_item] has found its dictionary; the bridge
    category once [get_goal] has found the goal of the bridge, before the
    solver ran and after it set the weights. *)
Definition sample_cached_goal : Goal :=
  set_g_item_cache {["Gold Skulltula Token" := 0]} (sample_goal "tokens" 1).

Definition sample_cached_bridge : GoalCategory :=
  set_c_goal_cache {["open bridge" := 0]} bridge.

Definition sample_bridge_after : GoalCategory :=
  set_c_goal_cache {["open bridge" := 0]}
    (default bridge (dict_get "bridge" (sv_categories (sample_final true)))).

(** A lock map that holds the rule of one entrance of world 0, and the
    entrances after unlocking with it. *)
Definition sample_locks : list (nat * list (string * AccessRule nat)) :=
  [(0, [("Bridge", λ _, true)])].

Definition sample_unlocked : gmap (nat * string) (AccessRule nat) :=
  match unlock_category_entrances sample_world sample_locks [0; 1] sample_entrances with
  | Ok es => es
  | Raise _ => sample_entrances
  end.

(** A copy of the bridge category. *)
Definition sample_copy : GoalCategory * heap :=
  match GoalCategory_copy sample_heap bridge with
  | Ok r => r
  | Raise _ => (bridge, sample_heap)
  end.

(** Two worlds with a goal that asks for the Kokiri Emerald, which Queen
    Gohma holds. In world 0 the dungeon rewards are vanilla, in world 1
    they are shuffled into the dungeons. *)
Definition queen_gohma : Location := {| loc_id := 4; loc_name := "Queen Gohma"; loc_world := 0 |}.

Definition emerald : Item :=
  {| item_name := "Kokiri Emerald"; item_world := 0; item_solver_id := Some 9 |}.

Definition sample_settings (world_id : nat) : Settings :=
  {| shuffle_dungeon_rewards := if decide (world_id = 0) then "vanilla" else "dungeon";
     skip_reward_from_rauru := false;
     clearer_hints := true |}.

Definition sample_filled (world_id : nat) : list Location := [deku_tree; queen_gohma].

Definition sample_type (location : Location) : string :=
  if decide (location = queen_gohma) then "Boss" else "Chest".

Definition sample_boss_items (location : Location) : option Item :=
  if decide (location = queen_gohma) then Some emerald else sample_items location.

Definition sample_boss_table : gmap string (string * string * string) :=
  {[ "Queen Gohma" := ("the spider's lair", "Queen Gohma", "Green") ]}.

Definition sample_reward_table : gmap string (string * string) :=
  {[ "Kokiri Emerald" := ("the tree's jewel", "the Kokiri Emerald") ]}.

Definition stone_goal : Goal :=
  {| g_world := 0; g_name := "stone";
     g_hint_text := HintDict {[ "replace" := "Kokiri Emerald" ]}; g_color := "White";
     g_items := 0; g_locations := None; g_lock_locations := None;
     g_lock_entrances := []; g_required_locations := 2; g_weight := 0;
     g_category := None; g_item_cache := ∅ |}.

Definition stones : GoalCategory :=
  add_goal (add_goal (GoalCategory_init "stones" 5 2 1 None None) stone_goal)
    (sample_goal "trial" 0).

Definition naming_world (id : nat) : World :=
  {| w_id := id; w_goal_categories := [("stones", stones)];
     w_enable_goal_hints := true; w_use_default_goals := true |}.

Definition sample_replace (worlds : list World) : result (list World) :=
  replace_goal_names sample_settings sample_filled sample_type sample_boss_items
    sample_boss_table sample_reward_table worlds.

Definition sample_renamed (worlds : list World) : list World :=
  match sample_replace worlds with
  | Ok worlds' => worlds'
  | Raise _ => []
  end.

(** ** The error monad and the store *)

Lemma bind_Ok {A B} (m : result A) (f : A → result B) (b : B) :
  m ≫= f = Ok b → ∃ a, m = Ok a ∧ f a = Ok b.
Proof. destruct m; simpl; [eauto | discriminate]. Qed.

Lemma for_each_invariant {A B} (P : B → Prop) (f : B → A → result B) (l : list A) :
  (∀ b x b', P b → f b x = Ok b' → P b') →
  ∀ b b', P b → for_each f b l = Ok b' → P b'.
Proof.
  intros Hf. induction l as [|x l IH]; simpl; intros b b' Hb Hrun.
  - by inversion Hrun; subst.
  - apply bind_Ok in Hrun as (b1 & H1 & H2). eauto.
Qed.

Lemma or_new_spec (o : option addr) (c : cell) (h h' : heap) (a : addr) :
  or_new o c h = (a, h') →
  (truthy h o = true ∧ o = Some a ∧ h' = h) ∨
  (truthy h o = false ∧ (a ∉ dom h) ∧ h' = <[a := c]> h).
Proof.
  unfold or_new, alloc. destruct o as [a0|].
  - destruct (truthy h (Some a0)) eqn:Ht; intros [= <- <-]; [by left | right].
    split_and!; [done | apply is_fresh | done].
  - intros [= <- <-]. right. split_and!; [done | apply is_fresh | done].
Qed.

Lemma or_new_subseteq (o : option addr) (c : cell) (h h' : heap) (a : addr) :
  or_new o c h = (a, h') → h ⊆ h'.
Proof.
  intros [(_ & _ & ->) | (_ & Ha & ->)]%or_new_spec; [done|].
  apply insert_subseteq. by apply not_elem_of_dom.
Qed.

Lemma for_each_total {A B} (P : A → Prop) (f : B → A → result B) (l : list A) :
  (∀ b x, P x → ∃ b', f b x = Ok b') →
  Forall P l → ∀ b, ∃ b', for_each f b l = Ok b'.
Proof.
  intros Hf. induction 1 as [|x l Hx Hl IH]; simpl; intros b; [eauto|].
  destruct (Hf b x Hx) as [b1 ->]. simpl. apply IH.
Qed.


Lemma Ok_bind {A B} (a : A) (f : A → result B) : Ok a ≫= f = f a.
Proof. done. Qed.

Lemma dict_get_app_None {K V} `{EqDecision K} (k : K) (d1 d2 : list (K * V)) :
  dict_get k d1 = None → dict_get k (d1 ++ d2) = dict_get k d2.
Proof.
  induction d1 as [|[k' v'] d1 IH]; simpl; [done|].
  destruct (decide (k' = k)); [done | apply IH].
Qed.

Lemma dict_set_fresh {K V} `{EqDecision K} (k : K) (v : V) (d : list (K * V)) :
  dict_get k d = None → dict_set k v d = d ++ [(k, v)].
Proof.
  induction d as [|[k' v'] d IH]; simpl; [done|].
  destruct (decide (k' = k)); [done|]. intros Hd. by rewrite IH.
Qed.


(** ** [Goal.__init__] and [Goal.copy] *)

(** C8. [Goal.__init__] raises exactly when no items and no locations are
    given (each is [None] or empty) while [create_empty] is false, or when
    the color is not one of the eight entries of [validColors]. A goal
    that is created has weight 0, no category and an empty item cache. *)
Theorem Goal_init_raises_iff (h : heap) (world : nat) (name : string) (hint_text : HintText)
    (color : string) (items : option addr) (locations lock_locations lock_entrances : option (list string))
    (required_locations : option addr) (create_empty : bool) :
  ((∃ e, Goal_init h world name hint_text color items locations lock_locations lock_entrances
           required_locations create_empty = Raise e) ↔
   (truthy h items = false ∧ truthy_list locations = false ∧ create_empty = false)
   ∨ color ∉ validColors)
  ∧ (∀ g h', Goal_init h world name hint_text color items locations lock_locations lock_entrances
               required_locations create_empty = Ok (g, h') →
       g_weight g = 0%Z ∧ g_category g = None ∧ g_item_cache g = ∅)
  ∧ length validColors = 8 ∧ NoDup validColors.
Proof.
  unfold Goal_init. split_and!.
  - destruct (truthy h items), (truthy_list locations), create_empty; simpl;
      try (split; [intros _; left; done | eauto]);
      (case_bool_decide as Hc;
       [ destruct (or_new items _ h) as [a1 h1], (or_new required_locations _ h1) as [a2 h2];
         split; [intros [e [=]] | intros [(? & ? & ?) | ?]; done]
       | split; [intros _; by right | eauto] ]).
  - intros g h'. destruct (_ && _); [done|]. case_bool_decide; [|done].
    destruct (or_new items _ h) as [a1 h1], (or_new required_locations _ h1) as [a2 h2].
    by intros [= <- <-].
  - done.
  - by apply (bool_decide_unpack _); vm_compute.
Qed.

(** C9, as amended. For a goal whose color is a valid one, [copy] returns a
    new goal with weight 0 and no category, whatever the goal's own weight
    and category are. The copy refers to the very list object of the
    goal's [items] (of its [required_locations]) when that list is not
    empty; when it is empty the copy gets a new empty list of its own. No
    list of the store is changed. *)
Theorem Goal_copy_shares_nonempty_lists (h : heap) (g : Goal) :
  g_color g ∈ validColors →
  ∃ g' h', Goal_copy h g = Ok (g', h')
    ∧ g_weight g' = 0%Z ∧ g_category g' = None
    ∧ g_name g' = g_name g ∧ g_color g' = g_color g ∧ g_hint_text g' = g_hint_text g
    ∧ (if truthy h (Some (g_items g)) then g_items g' = g_items g
       else (g_items g' ∉ dom h) ∧ h' !! g_items g' = Some (ItemList []))
    ∧ (if truthy h (Some (g_required_locations g))
       then g_required_locations g' = g_required_locations g
       else (g_required_locations g' ∉ dom h)
            ∧ h' !! g_required_locations g' = Some (ReqList []))
    ∧ h ⊆ h'.
Proof.
  intros Hcolor. unfold Goal_copy, Goal_init.
  rewrite andb_false_r. rewrite bool_decide_eq_true_2 by done.
  destruct (or_new (Some (g_items g)) _ h) as [a1 h1] eqn:H1.
  destruct (or_new (Some (g_required_locations g)) _ h1) as [a2 h2] eqn:H2.
  eexists _, _. split; [done|].
  cbn [g_weight g_category g_name g_color g_hint_text g_items g_required_locations].
  pose proof (or_new_subseteq _ _ _ _ _ H1) as Hsub1.
  pose proof (or_new_subseteq _ _ _ _ _ H2) as Hsub2.
  apply or_new_spec in H1, H2.
  assert (truthy h1 (Some (g_required_locations g)) = truthy h (Some (g_required_locations g)))
    as Hsame.
  { destruct H1 as [(_ & _ & ->) | (_ & Ha1 & ->)]; [done|].
    unfold truthy. destruct (decide (a1 = g_required_locations g)) as [<-|Hne].
    - rewrite lookup_insert_eq. apply not_elem_of_dom in Ha1. by rewrite Ha1.
    - by rewrite lookup_insert_ne. }
  repeat (split; [done|]). split; [|split; [|by etrans]].
  - destruct H1 as [(-> & [= <-] & ->) | (-> & Ha1 & ->)]; [done|].
    split; [done|].
    destruct H2 as [(_ & _ & ->) | (_ & Ha2 & ->)]; [by rewrite lookup_insert_eq|].
    rewrite lookup_insert_ne; [by rewrite lookup_insert_eq|].
    intros <-. apply Ha2. rewrite dom_insert_L.
    by apply elem_of_union_l, elem_of_singleton.
  - rewrite <-Hsame.
    destruct H2 as [(-> & [= <-] & ->) | (-> & Ha2 & ->)]; [done|].
    split; [|by rewrite lookup_insert_eq].
    intros Hin. apply Ha2. by apply (subseteq_dom _ _ Hsub1).
Qed.


(** C9 as stated fails: a goal created with items and no required
    locations holds an empty [required_locations] list, and its copy
    refers to another list object. *)
Lemma Goal_copy_empty_list_not_shared :
  ∃ g g' h h',
    Goal_init {[0 := ItemList [triforce]]} 0 "the hero" (HintStr "way of the hero") "White"
      (Some 0) None None None None false = Ok (g, h)
    ∧ reqs_at h (g_required_locations g) = []
    ∧ Goal_copy h g = Ok (g', h')
    ∧ g_required_locations g' ≠ g_required_locations g.
Proof.
  eexists _, _, _, _. split_and!.
  - vm_compute. reflexivity.
  - vm_compute. reflexivity.
  - vm_compute. reflexivity.
  - vm_compute. discriminate.
Qed.


(** ** [GoalCategory.update_reachable_goals] *)

Lemma item_shrunk_refl i : item_shrunk i i.
Proof. unfold item_shrunk. auto. Qed.

Lemma item_shrunk_trans i1 i2 i3 : item_shrunk i1 i2 → item_shrunk i2 i3 → item_shrunk i1 i3.
Proof.
  unfold item_shrunk. intros (-> & -> & -> & H12) (-> & -> & -> & H23).
  split_and!; try done. lia.
Qed.

Lemma heap_shrunk_refl h : heap_shrunk h h.
Proof.
  intros a. split; [|done]. apply Forall2_same_length_lookup. split; [done|].
  intros k i i' ? ?. simplify_eq. apply item_shrunk_refl.
Qed.

Lemma heap_shrunk_trans h1 h2 h3 : heap_shrunk h1 h2 → heap_shrunk h2 h3 → heap_shrunk h1 h3.
Proof.
  intros H12 H23 a. destruct (H12 a) as [Ha Hr], (H23 a) as [Ha' Hr']. split; [|congruence].
  eapply Forall2_trans; [|done..]. intros ???. apply item_shrunk_trans.
Qed.

Section update_reachable_goals_facts.
(** What the caller of [State.has_item_goal] relies on (the comment at the
    head of the method): an item goal that holds can be met with at least
    its minimum. *)
Context {State : Type}.
Variable state_world : State → World.
Variable item_name_count : State → string → Z.
Variable has_item_goal : State → GoalItem → bool.
Hypothesis has_item_goal_minimum :
  ∀ st i, has_item_goal st i = true → (gi_minimum i ≤ item_name_count st (gi_name i))%Z.

Lemma shrink_item_shrunk full i :
  has_item_goal full i = true → item_shrunk i (shrink_item item_name_count full i).
Proof.
  intros Hi%has_item_goal_minimum. unfold item_shrunk, shrink_item; simpl.
  split_and!; try done. lia.
Qed.

Lemma shrink_goal_shrunk full_state_list index h goal h' :
  shrink_goal item_name_count has_item_goal full_state_list index h goal = Ok h' →
  heap_shrunk h h'.
Proof.
  unfold shrink_goal. case_bool_decide as Hne; [|intros [= <-]; apply heap_shrunk_refl].
  destruct (full_state_list !! index) as [full|]; [|done].
  destruct (forallb _ _) eqn:Hall; intros [= <-]; [|apply heap_shrunk_refl].
  intros a. unfold items_at, reqs_at in *.
  destruct (decide (a = g_items goal)) as [->|Ha].
  - rewrite lookup_insert_eq.
    destruct (h !! g_items goal) as [[l|l]|] eqn:Hl; try done.
    split; [|done]. apply Forall2_fmap_r, Forall_Forall2_diag.
    rewrite forallb_forall in Hall. apply Forall_forall.
    intros i Hi. apply shrink_item_shrunk, Hall. by apply list_elem_of_In.
  - rewrite lookup_insert_ne by done. apply heap_shrunk_refl.
Qed.

Lemma update_reachable_goals_shrunk self starting full h h' :
  update_reachable_goals state_world item_name_count has_item_goal self starting full h = Ok h' →
  heap_shrunk h h'.
Proof.
  unfold update_reachable_goals.
  apply (for_each_invariant (heap_shrunk h)); [|apply heap_shrunk_refl].
  intros h1 [index state] h2 H1. unfold shrink_world; simpl.
  destruct (dict_get _ _) as [world_category|]; [|by intros [= <-]].
  apply (for_each_invariant (heap_shrunk h)); [|done].
  intros h3 goal h4 H3 Hgoal. eapply heap_shrunk_trans; [done|].
  by eapply shrink_goal_shrunk.
Qed.

Lemma shrink_goal_total full_state_list index h goal :
  index < length full_state_list →
  ∃ h', shrink_goal item_name_count has_item_goal full_state_list index h goal = Ok h'.
Proof.
  intros [full Hfull]%lookup_lt_is_Some_2. unfold shrink_goal. rewrite Hfull.
  case_bool_decide; [|eauto]. destruct (forallb _ _); eauto.
Qed.

Lemma update_reachable_goals_total self starting full h :
  length starting ≤ length full →
  ∃ h', update_reachable_goals state_world item_name_count has_item_goal self starting full h
        = Ok h'.
Proof.
  intros Hlen. unfold update_reachable_goals.
  apply (for_each_total (λ entry, entry.1 < length full)).
  - intros h1 [index state] Hindex. unfold shrink_world; simpl in *.
    destruct (dict_get _ _) as [world_category|]; [|eauto].
    apply (for_each_total (λ _, True)); [|by apply Forall_true].
    intros h2 goal _. by apply shrink_goal_total.
  - apply Forall_forall. intros [index state] Hin.
    apply list_elem_of_lookup in Hin as [k Hk]. unfold enumerate in Hk.
    apply list_lookup_imap_Some in Hk as (state' & Hk & [= -> ->]). simpl.
    apply lookup_lt_Some in Hk. lia.
Qed.

End update_reachable_goals_facts.

(** ** More on [update_reachable_goals] *)

Lemma for_each_invariant_elem {A B} (P : B → Prop) (f : B → A → result B) (l : list A) :
  (∀ b x b', x ∈ l → P b → f b x = Ok b' → P b') →
  ∀ b b', P b → for_each f b l = Ok b' → P b'.
Proof.
  induction l as [|x l IH]; simpl; intros Hf b b' Hb Hrun.
  - by inversion Hrun; subst.
  - apply bind_Ok in Hrun as (b1 & H1 & H2).
    eapply IH; [|eapply Hf; [by left | done..]|exact H2].
    intros b0 y b0' Hy. apply Hf. by right.
Qed.

Lemma for_each_raises {A B} (f : B → A → result B) (l : list A) (e : exn) :
  ∀ b, for_each f b l = Raise e → ∃ b1 x, x ∈ l ∧ f b1 x = Raise e.
Proof.
  induction l as [|x l IH]; simpl; intros b; [done|].
  destruct (f b x) as [b1|e1] eqn:Hx; simpl.
  - intros (b2 & y & Hy & Hraise)%IH. exists b2, y. split; [by right | done].
  - intros [= <-]. exists b, x. split; [by left | done].
Qed.

(** A loop whose steps are all related by a preorder [R] passes, for each
    element of the list, through the step of that element. *)
Lemma for_each_visits {A B} (R : B → B → Prop) (f : B → A → result B) (l : list A) :
  (∀ b, R b b) → (∀ b1 b2 b3, R b1 b2 → R b2 b3 → R b1 b3) →
  (∀ b1 x b2, f b1 x = Ok b2 → R b1 b2) →
  ∀ b b', for_each f b l = Ok b' →
    R b b' ∧ ∀ x, x ∈ l → ∃ b1 b2, R b b1 ∧ f b1 x = Ok b2 ∧ R b2 b'.
Proof.
  intros Hrefl Htrans Hstep. induction l as [|x l IH]; simpl; intros b b'.
  - intros [= <-]. split; [done|]. intros x Hx. by apply elem_of_nil in Hx.
  - intros (b1 & H1 & H2)%bind_Ok. destruct (IH _ _ H2) as [Hrest Hvisits].
    pose proof (Hstep _ _ _ H1) as Hfirst. split; [by eapply Htrans|].
    intros y [->|Hy]%elem_of_cons.
    + exists b, b1. done.
    + destruct (Hvisits y Hy) as (b2 & b3 & ? & ? & ?). exists b2, b3.
      split_and!; [by eapply Htrans | done..].
Qed.

Lemma items_at_insert (h : heap) (a : addr) (l : list GoalItem) :
  items_at (<[a := ItemList l]> h) a = l.
Proof. unfold items_at. by rewrite lookup_insert_eq. Qed.

Lemma item_lowered_refl i : item_lowered i i.
Proof. unfold item_lowered. split_and!; [done..|lia]. Qed.

Lemma item_lowered_trans i1 i2 i3 :
  item_lowered i1 i2 → item_lowered i2 i3 → item_lowered i1 i3.
Proof.
  unfold item_lowered. intros (-> & -> & -> & ?) (-> & -> & -> & ?).
  split_and!; [done..|lia].
Qed.

Lemma heap_lowered_refl h : heap_lowered h h.
Proof.
  intros a. apply Forall_Forall2_diag, Forall_forall. intros i _. apply item_lowered_refl.
Qed.

Lemma heap_lowered_trans h1 h2 h3 : heap_lowered h1 h2 → heap_lowered h2 h3 → heap_lowered h1 h3.
Proof.
  intros H12 H23 a. eapply Forall2_trans; [|apply H12|apply H23].
  intros ???. apply item_lowered_trans.
Qed.

Section update_reachable_goals_more.
Context {State : Type}.
Variable state_world : State → World.
Variable item_name_count : State → string → Z.
Variable has_item_goal : State → GoalItem → bool.

Local Abbreviation run := (update_reachable_goals state_world item_name_count has_item_goal).
Local Abbreviation run_goal := (shrink_goal item_name_count has_item_goal).

Lemma enumerate_elem (starting : list State) (index : nat) (state : State) :
  (index, state) ∈ enumerate starting ↔ starting !! index = Some state.
Proof.
  unfold enumerate. split.
  - intros [k Hk]%list_elem_of_lookup.
    by apply list_lookup_imap_Some in Hk as (state' & Hk & [= -> ->]).
  - intros Hk. apply list_elem_of_lookup. exists index. apply list_lookup_imap_Some. eauto.
Qed.

Lemma shrink_goal_cases full index h goal h' :
  run_goal full index h goal = Ok h' →
  h' = h
  ∨ ∃ items st, h !! g_items goal = Some (ItemList items) ∧ items ≠ []
      ∧ full !! index = Some st ∧ forallb (has_item_goal st) items = true
      ∧ h' = <[g_items goal := ItemList (shrink_item item_name_count st <$> items)]> h.
Proof.
  unfold shrink_goal. case_bool_decide as Hne; [|intros [= <-]; by left].
  destruct (full !! index) as [st|]; [|done].
  destruct (forallb _ _) eqn:Hall; intros [= <-]; [|by left].
  right. unfold items_at in *. destruct (h !! g_items goal) as [[items|?]|]; try done.
  by exists items, st.
Qed.

Lemma shrink_goal_lowered full index h goal h' :
  run_goal full index h goal = Ok h' → heap_lowered h h'.
Proof.
  intros [->|(items & st & Hitems & _ & _ & _ & ->)]%shrink_goal_cases;
    [apply heap_lowered_refl|].
  intros a. unfold items_at. destruct (decide (a = g_items goal)) as [->|Ha].
  - rewrite lookup_insert_eq, Hitems. apply Forall2_fmap_r, Forall_Forall2_diag, Forall_forall.
    intros i _. unfold item_lowered, shrink_item. cbn. split_and!; [done..|lia].
  - rewrite lookup_insert_ne by done. apply heap_lowered_refl.
Qed.

(** X9. [update_reachable_goals] writes to nothing but the item lists of the
    goals the worlds of the starting states list under the category's name
    (whether or not these are the goals of the category it is called on):
    every other list of the store is left as it is, no list is created, and
    the lists of required locations are not touched. It raises only the
    [IndexError] of [full_search.state_list[index]], and only when that list
    is shorter than the starting one. *)
Theorem update_reachable_goals_frame self starting full h :
  (∀ h', run self starting full h = Ok h' →
     dom h' = dom h
     ∧ (∀ a, reqs_at h' a = reqs_at h a)
     ∧ (∀ a, (∀ index goal, reachable_target state_world (c_name self) starting index goal →
                g_items goal ≠ a) →
             h' !! a = h !! a))
  ∧ (∀ e, run self starting full h = Raise e →
       e = IndexError ∧ length full < length starting).
Proof.
  split.
  - intros h' Hrun.
    enough (dom h' = dom h
            ∧ ∀ a, (∀ index goal, reachable_target state_world (c_name self) starting index goal
                      → g_items goal ≠ a) →
                   h' !! a = h !! a ∧ reqs_at h' a = reqs_at h a) as [Hdom Hframe].
    { split; [done|]. split; [|intros a Ha; by apply Hframe].
      intros a. revert Hrun. unfold update_reachable_goals.
      apply (for_each_invariant (λ h1, reqs_at h1 a = reqs_at h a)); [|done].
      intros h1 [index state] h2 H1. unfold shrink_world. cbn.
      destruct (dict_get _ _) as [wc|]; [|by intros [= <-]].
      apply (for_each_invariant (λ h1, reqs_at h1 a = reqs_at h a)); [|done].
      intros h3 goal h4 H3 [->|(items & st & Hitems & _ & _ & _ & ->)]%shrink_goal_cases;
        [done|].
      rewrite <-H3. unfold reqs_at. destruct (decide (a = g_items goal)) as [->|Hne].
      + by rewrite lookup_insert_eq, Hitems.
      + by rewrite lookup_insert_ne. }
    revert Hrun. unfold update_reachable_goals.
    apply (for_each_invariant_elem
             (λ h1, dom h1 = dom h
                    ∧ ∀ a, (∀ index goal,
                              reachable_target state_world (c_name self) starting index goal →
                              g_items goal ≠ a) →
                           h1 !! a = h !! a ∧ reqs_at h1 a = reqs_at h a)); [|done].
    intros h1 [index state] h2 Hentry%enumerate_elem H1. unfold shrink_world. cbn.
    destruct (dict_get _ _) as [wc|] eqn:Hwc; [|by intros [= <-]].
    apply (for_each_invariant_elem
             (λ h1, dom h1 = dom h
                    ∧ ∀ a, (∀ index goal,
                              reachable_target state_world (c_name self) starting index goal →
                              g_items goal ≠ a) →
                           h1 !! a = h !! a ∧ reqs_at h1 a = reqs_at h a)); [|done].
    intros h3 goal h4 Hgoal [Hdom3 Hframe3]
      [->|(items & st & Hitems & _ & _ & _ & ->)]%shrink_goal_cases; [done|].
    split.
    + rewrite dom_insert_L, <-Hdom3. apply (elem_of_dom_2 (D := gset nat)) in Hitems.
      by apply subseteq_union_1_L, singleton_subseteq_l.
    + intros a Ha. assert (g_items goal ≠ a) as Hne.
      { apply (Ha index). by exists state, wc. }
      unfold reqs_at. rewrite lookup_insert_ne by done. by apply Hframe3.
  - intros e (h1 & [index state] & Hentry%enumerate_elem & Hraise)%for_each_raises.
    unfold shrink_world in Hraise. cbn in Hraise.
    destruct (dict_get _ _) as [wc|]; [|done].
    apply for_each_raises in Hraise as (h2 & goal & _ & Hraise).
    unfold shrink_goal in Hraise. case_bool_decide; [|done].
    destruct (full !! index) as [st|] eqn:Hfull; [by destruct (forallb _ _)|].
    injection Hraise as <-. split; [done|].
    apply lookup_ge_None in Hfull. apply lookup_lt_Some in Hentry. lia.
Qed.

Lemma shrink_world_lowered self full h entry h' :
  shrink_world state_world item_name_count has_item_goal self full h entry = Ok h' →
  heap_lowered h h'.
Proof.
  unfold shrink_world. destruct (dict_get _ _) as [wc|]; [|intros [= <-]; apply heap_lowered_refl].
  apply (for_each_invariant (heap_lowered h)); [|apply heap_lowered_refl].
  intros h1 goal h2 H1 H2%shrink_goal_lowered. by eapply heap_lowered_trans.
Qed.

Section quantity.
(** [State.has_item_goal] does not read the quantity of the item it is
    given: it answers the same for two items that differ in their quantity
    only. *)
Hypothesis has_item_goal_quantity :
  ∀ st i i', gi_name i' = gi_name i → gi_minimum i' = gi_minimum i →
    gi_hintable i' = gi_hintable i → has_item_goal st i' = has_item_goal st i.

Lemma forallb_lowered st (l l' : list GoalItem) :
  Forall2 item_lowered l l' → forallb (has_item_goal st) l' = forallb (has_item_goal st) l.
Proof.
  induction 1 as [|i i' l l' (Hn & Hm & Hh & _) _ IH]; [done|]. cbn.
  by rewrite IH, (has_item_goal_quantity st i i').
Qed.

(** The run passes, for every goal it looks at, through the step of that
    goal, between two stores that lie between the first and the last. *)
Lemma update_reachable_goals_visits self starting full h h' index goal :
  run self starting full h = Ok h' →
  reachable_target state_world (c_name self) starting index goal →
  ∃ h1 h2, heap_lowered h h1 ∧ run_goal full index h1 goal = Ok h2 ∧ heap_lowered h2 h'.
Proof.
  intros Hrun (state & wc & Hstate & Hwc & Hgoal).
  unfold update_reachable_goals in Hrun.
  destruct (for_each_visits heap_lowered _ _ heap_lowered_refl heap_lowered_trans
              (λ h1 entry h2, shrink_world_lowered self full h1 entry h2) _ _ Hrun)
    as [_ Hvisits].
  destruct (Hvisits (index, state)) as (h1 & h2 & L1 & Hworld & L2);
    [by apply enumerate_elem|].
  unfold shrink_world in Hworld. cbn [fst snd] in Hworld. rewrite Hwc in Hworld.
  destruct (for_each_visits heap_lowered _ _ heap_lowered_refl heap_lowered_trans
              (shrink_goal_lowered full index) _ _ Hworld) as [_ Hgoals].
  destruct (Hgoals goal Hgoal) as (h3 & h4 & L3 & Hstep & L4).
  exists h3, h4. split_and!; [|done|]; by eapply heap_lowered_trans.
Qed.

Lemma for_each_fixed {A B} (f : B → A → result B) (b : B) (l : list A) :
  (∀ x, x ∈ l → f b x = Ok b) → for_each f b l = Ok b.
Proof.
  induction l as [|x l IH]; intros Hf; cbn [for_each]; [done|].
  rewrite (Hf x) by (by left). cbn. apply IH. intros y Hy. apply Hf. by right.
Qed.

Lemma shrink_item_fixed st (i : GoalItem) :
  (gi_quantity i ≤ item_name_count st (gi_name i))%Z →
  shrink_item item_name_count st i = i.
Proof. intros Hq. destruct i. unfold shrink_item. cbn in *. f_equal. lia. Qed.

(** A goal the method looked at, all of whose items the full state can
    meet, ends with quantities the state can obtain. *)
Lemma update_reachable_goals_capped self starting full h h' :
  run self starting full h = Ok h' →
  ∀ index goal full_state,
    reachable_target state_world (c_name self) starting index goal →
    full !! index = Some full_state →
    forallb (has_item_goal full_state) (items_at h (g_items goal)) = true →
    ∀ i, i ∈ items_at h' (g_items goal) →
      (gi_quantity i ≤ item_name_count full_state (gi_name i))%Z.
Proof.
  intros Hrun index goal full_state Htarget Hfull Hall i Hi.
  destruct (update_reachable_goals_visits _ _ _ _ _ _ _ Hrun Htarget)
    as (h3 & h4 & L3 & Hstep & L4).
  pose proof (L3 (g_items goal)) as Lbefore. pose proof (L4 (g_items goal)) as Lafter.
  unfold shrink_goal in Hstep. rewrite Hfull in Hstep.
  rewrite (forallb_lowered _ _ _ Lbefore), Hall in Hstep.
  case_bool_decide as Hne.
  - injection Hstep as <-. apply list_elem_of_lookup in Hi as [k Hk].
    destruct (Forall2_lookup_r _ _ _ _ _ Lafter Hk) as (i4 & Hi4 & Hn & _ & _ & Hq).
    rewrite items_at_insert in Hi4.
    apply list_lookup_fmap_Some in Hi4 as (i3 & -> & Hi3). cbn in *. rewrite Hn. lia.
  - injection Hstep as <-. assert (items_at h3 (g_items goal) = []) as Hnil.
    { destruct (items_at h3 (g_items goal)); [done|]. by destruct Hne. }
    rewrite Hnil in Lafter. apply Forall2_nil_inv_l in Lafter. rewrite Lafter in Hi.
    by apply elem_of_nil in Hi.
Qed.

(** X10. After [update_reachable_goals], a goal the method looked at in the
    world of the state at [index], all of whose items the state of the full
    search at [index] can meet, asks for no more of any item than that
    state can obtain: each quantity is at most the obtainable count, also
    when the goal's item list is shared with goals of other worlds. *)
Theorem update_reachable_goals_caps_quantities self starting full h h' :
  run self starting full h = Ok h' →
  ∀ index goal full_state,
    reachable_target state_world (c_name self) starting index goal →
    full !! index = Some full_state →
    forallb (has_item_goal full_state) (items_at h (g_items goal)) = true →
    ∀ i, i ∈ items_at h' (g_items goal) →
      (gi_quantity i ≤ item_name_count full_state (gi_name i))%Z.
Proof. apply update_reachable_goals_capped. Qed.

(** X24. [update_reachable_goals] is idempotent: called again with the same
    two searches on the store a first call left, it returns and changes
    nothing, whatever lists the goals share. *)
Theorem update_reachable_goals_idempotent self starting full h h' :
  update_reachable_goals state_world item_name_count has_item_goal self starting full h
  = Ok h' →
  update_reachable_goals state_world item_name_count has_item_goal self starting full h'
  = Ok h'.
Proof.
  intros Hrun. unfold update_reachable_goals. apply for_each_fixed.
  intros [index state] Hstate%enumerate_elem. unfold shrink_world. cbn [fst snd].
  destruct (dict_get _ _) as [wc|] eqn:Hwc; [|done].
  apply for_each_fixed. intros goal Hgoal.
  destruct (update_reachable_goals_visits self starting full h h' index goal Hrun)
    as (h3 & h4 & L3 & Hstep & L4); [by exists state, wc|].
  pose proof (shrink_goal_lowered _ _ _ _ _ Hstep (g_items goal)) as Lstep.
  pose proof (L4 (g_items goal)) as Lafter.
  assert (Forall2 item_lowered (items_at h3 (g_items goal)) (items_at h' (g_items goal)))
    as Lboth.
  { eapply Forall2_trans; [|exact Lstep|exact Lafter]. intros ???. apply item_lowered_trans. }
  unfold shrink_goal in *. cbv zeta in *.
  destruct (decide (items_at h' (g_items goal) = [])) as [Hnil'|Hne'];
    [by rewrite bool_decide_false by (by intros ?)|].
  rewrite bool_decide_true by done. rewrite bool_decide_true in Hstep.
  2:{ intros Hnil. rewrite Hnil in Lboth. by apply Forall2_nil_inv_l in Lboth. }
  destruct (full !! index) as [full_state|]; [|done].
  rewrite <-(forallb_lowered _ _ _ Lboth) in Hstep.
  destruct (forallb _ (items_at h' _)); [|done].
  injection Hstep as <-. rewrite items_at_insert in Lafter.
  assert (shrink_item item_name_count full_state <$> items_at h' (g_items goal)
          = items_at h' (g_items goal)) as ->.
  { rewrite <-(list_fmap_id (items_at h' (g_items goal))) at 2.
    apply Forall_fmap_ext_1, Forall_forall. intros i [k Hk]%list_elem_of_lookup.
    destruct (Forall2_lookup_r _ _ _ _ _ Lafter Hk) as (i4 & Hi4 & Hn & _ & _ & Hq).
    apply list_lookup_fmap_Some in Hi4 as (i3 & -> & Hi3). cbn in *.
    apply shrink_item_fixed. rewrite Hn. lia. }
  f_equal. apply insert_id. unfold items_at in *.
  destruct (h' !! g_items goal) as [[l|?]|]; done.
Qed.

Lemma update_reachable_goals_lowered self starting full h h' :
  run self starting full h = Ok h' → heap_lowered h h'.
Proof.
  unfold update_reachable_goals.
  apply (for_each_invariant (heap_lowered h)); [|apply heap_lowered_refl].
  intros h1 entry h2 H1 H2%shrink_world_lowered. by eapply heap_lowered_trans.
Qed.

(** A quantity that the method changed is the count of a state of the full
    search that can meet every item of a goal the method looked at. *)
Lemma update_reachable_goals_attained self starting full h h' :
  run self starting full h = Ok h' →
  ∀ a k i i', items_at h a !! k = Some i → items_at h' a !! k = Some i' →
    gi_quantity i' = gi_quantity i
    ∨ ∃ index goal st,
        reachable_target state_world (c_name self) starting index goal
        ∧ g_items goal = a ∧ full !! index = Some st
        ∧ forallb (has_item_goal st) (items_at h a) = true
        ∧ gi_quantity i' = item_name_count st (gi_name i).
Proof.
  pose (P := λ h1 : heap,
          heap_lowered h h1
          ∧ ∀ a k i i', items_at h a !! k = Some i → items_at h1 a !! k = Some i' →
              gi_quantity i' = gi_quantity i
              ∨ ∃ index goal st,
                  reachable_target state_world (c_name self) starting index goal
                  ∧ g_items goal = a ∧ full !! index = Some st
                  ∧ forallb (has_item_goal st) (items_at h a) = true
                  ∧ gi_quantity i' = item_name_count st (gi_name i)).
  intros Hrun. enough (P h') as [_ HP] by done.
  revert Hrun. unfold update_reachable_goals. apply (for_each_invariant_elem P).
  2:{ split; [apply heap_lowered_refl|]. intros a k i i' Hi Hi'. left. congruence. }
  intros h1 [index state] h2 Hstate%enumerate_elem H1. unfold shrink_world. cbn [fst snd].
  destruct (dict_get _ _) as [wc|] eqn:Hwc; [|by intros [= <-]].
  apply (for_each_invariant_elem P); [|done].
  intros h3 goal h4 Hgoal [L3 H3] Hstep.
  pose proof (shrink_goal_lowered _ _ _ _ _ Hstep) as L34.
  split; [by eapply heap_lowered_trans|]. intros a k i i4 Hi Hi4.
  apply shrink_goal_cases in Hstep as [->|(items & st & Hitems & _ & Hst & Hall & ->)];
    [by eapply H3|].
  destruct (decide (a = g_items goal)) as [->|Ha].
  - rewrite items_at_insert in Hi4.
    apply list_lookup_fmap_Some in Hi4 as (i3 & -> & Hi3).
    assert (items_at h3 (g_items goal) = items) as Hitems3
      by (unfold items_at; by rewrite Hitems).
    rewrite <-Hitems3 in Hi3, Hall.
    destruct (Forall2_lookup_l _ _ _ _ _ (L3 (g_items goal)) Hi) as (i3' & Hi3' & Hn & _).
    assert (i3' = i3) as -> by congruence.
    cbn [shrink_item gi_quantity].
    destruct (Z.min_spec (item_name_count st (gi_name i3)) (gi_quantity i3))
      as [[_ ->]|[_ ->]].
    + right. exists index, goal, st. split_and!; [by exists state, wc | done..| |by rewrite Hn].
      by rewrite <-(forallb_lowered _ _ _ (L3 (g_items goal))).
    + by eapply H3.
  - unfold items_at in Hi4. rewrite lookup_insert_ne in Hi4 by done. by eapply H3.
Qed.

Lemma GoalItem_eq (i i' : GoalItem) :
  gi_name i' = gi_name i → gi_quantity i' = gi_quantity i → gi_minimum i' = gi_minimum i →
  gi_hintable i' = gi_hintable i → i' = i.
Proof. destruct i, i'. cbn. by intros -> -> -> ->. Qed.

(** The outcome for an item list that is looked at for one state of the
    full search only. *)
Lemma update_reachable_goals_exact self starting full h h' index goal st :
  run self starting full h = Ok h' →
  reachable_target state_world (c_name self) starting index goal →
  full !! index = Some st →
  (∀ index' goal', reachable_target state_world (c_name self) starting index' goal' →
     g_items goal' = g_items goal → full !! index' = Some st) →
  items_at h' (g_items goal) =
    if forallb (has_item_goal st) (items_at h (g_items goal))
    then shrink_item item_name_count st <$> items_at h (g_items goal)
    else items_at h (g_items goal).
Proof.
  intros Hrun Htarget Hst Hone.
  pose proof (update_reachable_goals_lowered _ _ _ _ _ Hrun (g_items goal)) as Hlow.
  assert (∀ k i i', items_at h (g_items goal) !! k = Some i →
            items_at h' (g_items goal) !! k = Some i' →
            gi_quantity i' = gi_quantity i
            ∨ (forallb (has_item_goal st) (items_at h (g_items goal)) = true
               ∧ gi_quantity i' = item_name_count st (gi_name i))) as Hattained.
  { intros k i i' Hi Hi'.
    destruct (update_reachable_goals_attained _ _ _ _ _ Hrun _ _ _ _ Hi Hi')
      as [?|(index' & goal' & st' & Ht & Ha & Hst' & Hall & Hq)]; [by left|].
    right. rewrite (Hone _ _ Ht Ha) in Hst'. by injection Hst' as <-. }
  apply list_eq. intros k.
  destruct (items_at h (g_items goal) !! k) as [i|] eqn:Hi.
  - destruct (Forall2_lookup_l _ _ _ _ _ Hlow Hi) as (i' & Hi' & Hn & Hm & Hh & Hq).
    rewrite Hi'. destruct (forallb _ _) eqn:Hall.
    + rewrite list_lookup_fmap, Hi. cbn. f_equal.
      pose proof (update_reachable_goals_capped _ _ _ _ _ Hrun _ _ _ Htarget Hst Hall i'
                    (list_elem_of_lookup_2 _ _ _ Hi')) as Hcap.
      rewrite Hn in Hcap.
      apply GoalItem_eq; cbn; [done| |done..].
      destruct (Hattained _ _ _ Hi Hi') as [?|[_ ?]]; lia.
    + rewrite Hi. f_equal. apply GoalItem_eq; [done| |done..].
      by destruct (Hattained _ _ _ Hi Hi') as [?|[? _]].
  - assert (items_at h' (g_items goal) !! k = None) as ->.
    { apply lookup_ge_None. rewrite <-(Forall2_length _ _ _ Hlow). by apply lookup_ge_None. }
    destruct (forallb _ _); [|done]. by rewrite list_lookup_fmap, Hi.
Qed.

Section minimum.
(** What the caller of [State.has_item_goal] relies on (the comment at the
    head of the method): an item goal that holds can be met with at least
    its minimum. *)
Hypothesis has_item_goal_minimum :
  ∀ st i, has_item_goal st i = true → (gi_minimum i ≤ item_name_count st (gi_name i))%Z.

(** C2. [update_reachable_goals] returns when the state list of the full
    search is at least as long as the starting one. When it returns, every
    item dictionary of every goal keeps its name and minimum; its quantity
    is either unchanged or lower than before and not below the minimum; and
    a quantity that changed is the count obtainable in a state of the full
    search that can meet every item of a goal the method looked at. A goal
    the method looked at, all of whose items the state of the full search
    can meet, ends with no quantity above the obtainable count. So, for an
    item list looked at for one state of the full search only: when that
    state can meet every item of the list, each quantity becomes the lesser
    of the obtainable count and the quantity, and otherwise the list is
    left as it is. The last part is the rule for one goal at one turn of
    the loop. *)
Theorem update_reachable_goals_keeps_minimum self starting full h :
  (length starting ≤ length full →
   ∃ h', update_reachable_goals state_world item_name_count has_item_goal self starting full h
         = Ok h')
  ∧ (∀ h', update_reachable_goals state_world item_name_count has_item_goal self starting full h
           = Ok h' →
     (∀ a k i, items_at h a !! k = Some i →
        ∃ i', items_at h' a !! k = Some i'
          ∧ gi_name i' = gi_name i ∧ gi_minimum i' = gi_minimum i
          ∧ (gi_quantity i' = gi_quantity i
             ∨ (gi_minimum i ≤ gi_quantity i' < gi_quantity i)%Z)
          ∧ (gi_quantity i' = gi_quantity i
             ∨ ∃ index goal st,
                 reachable_target state_world (c_name self) starting index goal
                 ∧ g_items goal = a ∧ full !! index = Some st
                 ∧ forallb (has_item_goal st) (items_at h a) = true
                 ∧ gi_quantity i' = item_name_count st (gi_name i)))
     ∧ (∀ index goal st,
          reachable_target state_world (c_name self) starting index goal →
          full !! index = Some st →
          forallb (has_item_goal st) (items_at h (g_items goal)) = true →
          ∀ i', i' ∈ items_at h' (g_items goal) →
            (gi_quantity i' ≤ item_name_count st (gi_name i'))%Z)
     ∧ (∀ index goal st,
          reachable_target state_world (c_name self) starting index goal →
          full !! index = Some st →
          (∀ index' goal',
             reachable_target state_world (c_name self) starting index' goal' →
             g_items goal' = g_items goal → full !! index' = Some st) →
          items_at h' (g_items goal) =
            if forallb (has_item_goal st) (items_at h (g_items goal))
            then shrink_item item_name_count st <$> items_at h (g_items goal)
            else items_at h (g_items goal)))
  ∧ (∀ index goal h1 h2,
       shrink_goal item_name_count has_item_goal full index h1 goal = Ok h2 →
       (∃ st, full !! index = Some st
          ∧ forallb (has_item_goal st) (items_at h1 (g_items goal)) = true
          ∧ items_at h2 (g_items goal) =
              (λ i, {| gi_name := gi_name i;
                       gi_quantity := Z.min (item_name_count st (gi_name i)) (gi_quantity i);
                       gi_minimum := gi_minimum i;
                       gi_hintable := gi_hintable i |}) <$> items_at h1 (g_items goal))
       ∨ h2 = h1).
Proof.
  split_and!.
  - apply update_reachable_goals_total.
  - intros h' Hrun. split_and!.
    + intros a k i Hi.
      pose proof (update_reachable_goals_shrunk _ _ _ has_item_goal_minimum _ _ _ _ _ Hrun)
        as Hshrunk.
      destruct (Hshrunk a) as [Hitems _].
      destruct (Forall2_lookup_l _ _ _ _ _ Hitems Hi) as (i' & Hi' & Hn & Hm & _ & Hq).
      exists i'. split_and!; [done..|].
      by eapply update_reachable_goals_attained.
    + intros index goal st. by eapply update_reachable_goals_capped.
    + intros index goal st. by apply update_reachable_goals_exact.
  - intros index goal h1 h2. unfold shrink_goal.
    case_bool_decide as Hne; [|intros [= <-]; by right].
    destruct (full !! index) as [st|]; [|done].
    destruct (forallb _ _) eqn:Hall; intros [= <-]; [left | by right].
    exists st. split_and!; try done.
    unfold items_at at 1. by rewrite lookup_insert_eq.
Qed.

End minimum.

End quantity.

End update_reachable_goals_more.

(** ** [lock_category_entrances] and [unlock_category_entrances] *)

Section locks_facts.
Context {State : Type}.
Variable state_world : State → World.

Local Abbreviation world_of state := (w_id (state_world state)).

Lemma lock_entrances_spec state locks :
  ∀ exits es,
    NoDup locks →
    (∀ n, n ∈ locks → is_Some (es !! (world_of state, n))) →
    (∀ n, n ∈ locks → dict_get n exits = None) →
    ∃ es',
      for_each (lock_entrance state_world state) (exits, es) locks
      = Ok (exits ++ saved_rules es (world_of state) locks, es')
      ∧ ∀ k, es' !! k =
             if decide (k.1 = world_of state ∧ k.2 ∈ locks)
             then Some locked_rule else es !! k.
Proof.
  induction locks as [|n locks IH]; intros exits es Hnodup Hsome Hfresh.
  - exists es. simpl. rewrite app_nil_r. split; [done|]. intros k.
    rewrite decide_False; [done|]. intros [_ Hk]. by apply elem_of_nil in Hk.
  - apply NoDup_cons in Hnodup as [Hn Hnodup].
    destruct (Hsome n) as [r Hr]; [by left|].
    cbn [for_each]. unfold lock_entrance at 2, get_entrance, access_rule.
    rewrite Hr, Ok_bind. cbn beta. rewrite Hr. unfold getitem. rewrite !Ok_bind. cbn [snd].
    rewrite dict_set_fresh by (apply Hfresh; by left).
    destruct (IH (exits ++ [(n, r)]) (<[(world_of state, n) := locked_rule]> es))
      as (es' & Hrun & Hes'); [done|..].
    + intros n' Hn'. rewrite lookup_insert_ne; [apply Hsome; by right|].
      intros [= ->]. done.
    + intros n' Hn'. rewrite dict_get_app_None by (apply Hfresh; by right).
      simpl. rewrite decide_False; [done|]. intros ->. done.
    + exists es'. split.
      * rewrite Hrun. f_equal. f_equal. rewrite <-app_assoc. f_equal.
        unfold saved_rules. cbn. rewrite Hr. cbn. f_equal.
        apply list_fmap_ext. intros i n' Hn'%list_elem_of_lookup_2.
        rewrite lookup_insert_ne; [done|]. intros [= ->]. done.
      * intros [w' n']. rewrite Hes'. cbn.
        destruct (decide ((w', n') = (world_of state, n))) as [[= -> ->]|Hne].
        -- rewrite (decide_True (P := world_of state = world_of state ∧ n ∈ n :: locks)) by (split; [done | by left]).
           destruct (decide _); [done|]. by rewrite lookup_insert_eq.
        -- rewrite lookup_insert_ne by done.
           destruct (decide (w' = world_of state ∧ n' ∈ locks)) as [[-> Hin]|Hnin].
           ++ rewrite decide_True; [done|]. split; [done | by right].
           ++ rewrite decide_False; [done|]. intros [-> Hin].
              apply elem_of_cons in Hin as [->|Hin]; [done|]. by apply Hnin.
Qed.

Lemma unlock_entrances_spec state_list state_id state es0 locks :
  state_list !! state_id = Some state →
  ∀ es1,
    (∀ n, n ∈ locks → is_Some (es1 !! (world_of state, n))) →
    ∃ es2,
      for_each (unlock_entrance state_world state_list state_id) es1
        (saved_rules es0 (world_of state) locks) = Ok es2
      ∧ ∀ k, es2 !! k =
             if decide (k.1 = world_of state ∧ k.2 ∈ locks)
             then Some (default locked_rule (es0 !! k)) else es1 !! k.
Proof.
  intros Hstate.
  induction locks as [|n locks IH]; intros es1 Hsome.
  - exists es1. split; [done|]. intros k.
    rewrite decide_False; [done|]. intros [_ Hk]. by apply elem_of_nil in Hk.
  - destruct (Hsome n) as [r Hr]; [by left|].
    cbn [saved_rules fmap list_fmap for_each].
    unfold unlock_entrance at 2, get_entrance. rewrite Hstate. cbn [fst snd].
    rewrite Hr, !Ok_bind. cbn beta.
    destruct (IH (<[(world_of state, n) := default locked_rule (es0 !! (world_of state, n))]> es1))
      as (es2 & Hrun & Hes2).
    + intros n' Hn'. destruct (decide (n' = n)) as [->|Hne].
      * rewrite lookup_insert_eq. eauto.
      * rewrite lookup_insert_ne; [apply Hsome; by right|]. by intros [= ->].
    + exists es2. split; [exact Hrun|].
      intros [w' n']. rewrite Hes2. cbn.
      destruct (decide (w' = world_of state ∧ n' ∈ locks)) as [[-> Hin]|Hnin].
      * rewrite decide_True; [done|]. split; [done | by right].
      * destruct (decide ((w', n') = (world_of state, n))) as [[= -> ->]|Hne].
        -- rewrite lookup_insert_eq. rewrite decide_True; [done|]. split; [done | by left].
        -- rewrite lookup_insert_ne by done.
           rewrite decide_False; [done|]. intros [-> Hin].
           apply elem_of_cons in Hin as [->|Hin]; [done|]. by apply Hnin.
Qed.

Lemma saved_rules_ext (es es' : gmap (nat * string) (AccessRule State)) w locks :
  (∀ n, n ∈ locks → es' !! (w, n) = es !! (w, n)) →
  saved_rules es' w locks = saved_rules es w locks.
Proof.
  intros Hext. unfold saved_rules. apply list_fmap_ext.
  intros i n Hn%list_elem_of_lookup_2. by rewrite Hext.
Qed.

Lemma lock_states_spec locks :
  NoDup locks →
  ∀ state_list off category_locks es,
    NoDup ((λ state, world_of state) <$> state_list) →
    (∀ state n, state ∈ state_list → n ∈ locks → is_Some (es !! (world_of state, n))) →
    (∀ i, off ≤ i → dict_get i category_locks = None) →
    ∃ es',
      for_each (lock_state state_world locks) (category_locks, es)
        (imap (λ i state, (off + i, state)) state_list)
      = Ok (category_locks
            ++ imap (λ i state, (off + i, saved_rules es (world_of state) locks)) state_list,
            es')
      ∧ ∀ k, es' !! k =
             if decide (k.1 ∈ (λ state, world_of state) <$> state_list ∧ k.2 ∈ locks)
             then Some locked_rule else es !! k.
Proof.
  intros Hlocks. induction state_list as [|state state_list IH];
    intros off category_locks es Hworlds Hsome Hfresh.
  - exists es. cbn [imap for_each]. rewrite app_nil_r. split; [done|]. intros k.
    rewrite decide_False; [done|]. intros [Hk _]. by apply elem_of_nil in Hk.
  - rewrite fmap_cons in Hworlds. apply NoDup_cons in Hworlds as [Hw Hworlds].
    cbn [imap for_each]. unfold lock_state at 2. cbn [fst snd].
    destruct (lock_entrances_spec state locks [] es) as (es1 & Hrun1 & Hes1); [done|..].
    { intros n Hn. apply Hsome; [by left | done]. }
    { done. }
    rewrite Hrun1. cbn. rewrite Nat.add_0_r.
    rewrite dict_set_fresh by (by apply Hfresh).
    destruct (IH (S off) (category_locks ++ [(off, saved_rules es (world_of state) locks)]) es1)
      as (es' & Hrun & Hes'); [done|..].
    + intros state' n Hstate' Hn. rewrite Hes1. cbn.
      destruct (decide _); [done|]. apply Hsome; [by right | done].
    + intros i Hi. rewrite dict_get_app_None by (apply Hfresh; lia).
      simpl. rewrite decide_False; [done | lia].
    + exists es'. split.
      * erewrite imap_ext; [rewrite Hrun|]; last first.
        { intros i state' _. cbn. f_equal. lia. }
        f_equal. f_equal. rewrite <-app_assoc. f_equal. cbn. f_equal.
        apply imap_ext. intros i state' Hstate'%list_elem_of_lookup_2. cbn.
        f_equal; [lia|]. apply saved_rules_ext. intros n Hn. rewrite Hes1. cbn.
        rewrite decide_False; [done|]. intros [Heq _]. apply Hw. rewrite <-Heq.
        by apply (list_elem_of_fmap_2 (λ state, world_of state)).
      * intros [w' n']. rewrite Hes', Hes1. cbn [fst snd].
        destruct (decide (w' ∈ (λ state, world_of state) <$> state_list ∧ n' ∈ locks))
          as [[Hin Hn']|Hnin].
        -- rewrite decide_True; [done|]. split; [by right | done].
        -- destruct (decide (w' = world_of state ∧ n' ∈ locks)) as [[-> Hn']|Hne].
           ++ rewrite decide_True; [done|]. split; [by left | done].
           ++ rewrite decide_False; [done|]. intros [Hin Hn'].
              apply elem_of_cons in Hin as [->|Hin]; [by apply Hne | by apply Hnin].
Qed.

Lemma unlock_states_spec locks es0 state_list :
  ∀ (states : list State) off es1,
    (∀ i state, states !! i = Some state → state_list !! (off + i) = Some state) →
    (∀ state n, state ∈ states → n ∈ locks → is_Some (es1 !! (world_of state, n))) →
    ∃ es2,
      unlock_category_entrances state_world
        (imap (λ i state, (off + i, saved_rules es0 (world_of state) locks)) states)
        state_list es1 = Ok es2
      ∧ ∀ k, es2 !! k =
             if decide (k.1 ∈ (λ state, world_of state) <$> states ∧ k.2 ∈ locks)
             then Some (default locked_rule (es0 !! k)) else es1 !! k.
Proof.
  unfold unlock_category_entrances.
  induction states as [|state states IH]; intros off es1 Hlookup Hsome.
  - exists es1. split; [done|]. intros k.
    rewrite decide_False; [done|]. intros [Hk _]. by apply elem_of_nil in Hk.
  - cbn [imap for_each fst snd].
    destruct (unlock_entrances_spec state_list (off + 0) state es0 locks) with (es1 := es1)
      as (es1' & Hrun1 & Hes1').
    { by apply (Hlookup 0). }
    { intros n Hn. apply Hsome; [by left | done]. }
    rewrite Hrun1. cbn.
    destruct (IH (S off) es1') as (es2 & Hrun & Hes2).
    + intros i state' Hi. replace (S off + i) with (off + S i) by lia. by apply Hlookup.
    + intros state' n Hstate' Hn. rewrite Hes1'. cbn.
      destruct (decide _); [done|]. apply Hsome; [by right | done].
    + exists es2. split.
      * erewrite imap_ext; [exact Hrun|]. intros i state' _. cbn. f_equal. lia.
      * intros [w' n']. rewrite Hes2, Hes1'. cbn [fst snd].
        destruct (decide (w' ∈ (λ state, world_of state) <$> states ∧ n' ∈ locks))
          as [[Hin Hn']|Hnin].
        -- rewrite decide_True; [done|]. split; [by right | done].
        -- destruct (decide (w' = world_of state ∧ n' ∈ locks)) as [[-> Hn']|Hne].
           ++ rewrite decide_True; [done|]. split; [by left | done].
           ++ rewrite decide_False; [done|]. intros [Hin Hn'].
              apply elem_of_cons in Hin as [->|Hin]; [by apply Hne | by apply Hnin].
Qed.

(** C3, as amended. When the names in [lock_entrances] are pairwise
    distinct, no two states of the list belong to the same world and every
    named entrance exists in the world of every state, locking returns the
    saved rules and a store in which each of these entrances has the
    constant-false rule, and unlocking with the saved rules and the same
    state list gives back the store as it was before the lock. A category
    without lock entrances ([None] or an empty list) leaves the store as it
    is. *)
Theorem unlock_restores_locked_entrances (category : GoalCategory) (state_list : list State)
    (es : gmap (nat * string) (AccessRule State)) :
  NoDup (default [] (c_lock_entrances category)) →
  NoDup ((λ state, w_id (state_world state)) <$> state_list) →
  (∀ state n, state ∈ state_list → n ∈ default [] (c_lock_entrances category) →
     is_Some (es !! (w_id (state_world state), n))) →
  ∃ category_locks locked,
    lock_category_entrances state_world category state_list es = Ok (category_locks, locked)
    ∧ (∀ state n, state ∈ state_list → n ∈ default [] (c_lock_entrances category) →
         locked !! (w_id (state_world state), n) = Some locked_rule)
    ∧ (default [] (c_lock_entrances category) = [] → locked = es)
    ∧ unlock_category_entrances state_world category_locks state_list locked = Ok es.
Proof.
  intros Hlocks Hworlds Hsome. unfold lock_category_entrances.
  destruct (c_lock_entrances category) as [locks|]; cbn [default] in *.
  - destruct (lock_states_spec locks Hlocks state_list 0 [] es) as (es1 & Hrun & Hes1);
      [done..|].
    unfold enumerate.
    change (imap pair state_list) with (imap (λ i state, (0 + i, state)) state_list).
    rewrite Hrun. cbn [app].
    destruct (unlock_states_spec locks es state_list state_list 0 es1) as (es2 & Hrun2 & Hes2).
    { done. }
    { intros state n Hstate Hn. rewrite Hes1. cbn. destruct (decide _); [done | by apply Hsome]. }
    eexists _, _. split; [done|]. split_and!.
    + intros state n Hstate Hn. rewrite Hes1. cbn.
      rewrite decide_True; [done|].
      split; [by apply (list_elem_of_fmap_2 (λ state, world_of state)) | done].
    + intros Hnil. change (locks = []) in Hnil. subst locks.
      apply map_eq. intros k. rewrite Hes1.
      rewrite decide_False; [done|]. intros [_ Hk]. by apply elem_of_nil in Hk.
    + rewrite Hrun2. f_equal. apply map_eq. intros [w n]. rewrite Hes2, Hes1. cbn.
      destruct (decide _) as [[Hw Hn]|]; [|done].
      apply list_elem_of_fmap in Hw as (state & -> & Hstate).
      destruct (Hsome state n Hstate Hn) as [r ->]. done.
  - eexists _, _. split; [done|]. split_and!; try done.
    intros state n _ Hn. by apply elem_of_nil in Hn.
Qed.

End locks_facts.

(** ** More on locking and unlocking *)

Section locks_more.
Context {State : Type}.
Variable state_world : State → World.

Local Abbreviation world_of state := (w_id (state_world state)).

Lemma lock_entrances_cases state locks :
  ∀ exits es,
    match for_each (lock_entrance state_world state) (exits, es) locks with
    | Ok (exits', es') =>
        (∀ n, n ∈ locks → is_Some (es !! (world_of state, n)))
        ∧ ∀ k, es' !! k =
               if decide (k.1 = world_of state ∧ k.2 ∈ locks)
               then Some locked_rule else es !! k
    | Raise e => ∃ n, n ∈ locks ∧ es !! (world_of state, n) = None
    end.
Proof.
  induction locks as [|n locks IH]; intros exits es; cbn [for_each].
  - split; [intros n Hn; by apply elem_of_nil in Hn|]. intros k.
    rewrite decide_False; [done|]. intros [_ Hk]. by apply elem_of_nil in Hk.
  - unfold lock_entrance at 2, get_entrance, access_rule.
    destruct (es !! (world_of state, n)) as [r|] eqn:Hr; cbn; [|exists n; split; [by left | done]].
    rewrite Hr. cbn.
    specialize (IH (dict_set n r exits) (<[(world_of state, n) := locked_rule]> es)).
    destruct (for_each _ _ locks) as [[exits' es']|e].
    + destruct IH as [Hsome Hes']. split.
      * intros n' [->|Hn']%elem_of_cons; [by rewrite Hr|].
        specialize (Hsome n' Hn'). destruct (decide (n' = n)) as [->|Hne]; [by rewrite Hr|].
        rewrite lookup_insert_ne in Hsome; [done|]. by intros [= ->].
      * intros [w' n']. rewrite Hes'. cbn [fst snd].
        destruct (decide (w' = world_of state ∧ n' ∈ locks)) as [[-> Hin]|Hnin].
        -- rewrite decide_True; [done|]. split; [done | by right].
        -- destruct (decide ((w', n') = (world_of state, n))) as [[= -> ->]|Hne].
           ++ rewrite lookup_insert_eq. rewrite decide_True; [done|]. split; [done | by left].
           ++ rewrite lookup_insert_ne by done.
              rewrite decide_False; [done|]. intros [-> Hin].
              apply elem_of_cons in Hin as [->|Hin]; [done|]. by apply Hnin.
    + destruct IH as (n' & Hn' & Hnone). exists n'. split; [by right|].
      destruct (decide (n' = n)) as [->|Hne]; [by rewrite lookup_insert_eq in Hnone|].
      rewrite lookup_insert_ne in Hnone; [done|]. by intros [= ->].
Qed.

Lemma lock_states_cases locks (entries : list (nat * State)) :
  ∀ category_locks es,
    match for_each (lock_state state_world locks) (category_locks, es) entries with
    | Ok (category_locks', es') =>
        (∀ entry n, entry ∈ entries → n ∈ locks →
           is_Some (es !! (world_of entry.2, n)))
        ∧ ∀ k, es' !! k =
               if decide (k.1 ∈ (λ entry : nat * State, world_of entry.2) <$> entries
                          ∧ k.2 ∈ locks)
               then Some locked_rule else es !! k
    | Raise e =>
        ∃ entry n, entry ∈ entries ∧ n ∈ locks ∧ es !! (world_of entry.2, n) = None
    end.
Proof.
  induction entries as [|entry entries IH]; intros category_locks es; cbn [for_each].
  - split; [intros entry n Hentry; by apply elem_of_nil in Hentry|]. intros k.
    rewrite decide_False; [done|]. intros [Hk _]. by apply elem_of_nil in Hk.
  - unfold lock_state at 2.
    pose proof (lock_entrances_cases entry.2 locks [] es) as Hfirst.
    destruct (for_each (lock_entrance state_world entry.2) _ locks) as [[exits es1]|e]; cbn.
    + destruct Hfirst as [Hsome1 Hes1].
      specialize (IH (dict_set entry.1 exits category_locks) es1).
      destruct (for_each _ _ entries) as [[category_locks' es']|e].
      * destruct IH as [Hsome Hes']. split.
        -- intros entry' n [->|Hentry']%elem_of_cons Hn; [by apply Hsome1|].
           specialize (Hsome entry' n Hentry' Hn). rewrite Hes1 in Hsome. cbn in Hsome.
           destruct (decide _) as [[Heq _]|]; [|done]. rewrite Heq. by apply Hsome1.
        -- intros [w' n']. rewrite Hes', Hes1. cbn [fst snd fmap list_fmap].
           destruct (decide (w' ∈ (λ entry : nat * State, world_of entry.2) <$> entries
                             ∧ n' ∈ locks)) as [[Hin Hn']|Hnin].
           ++ rewrite decide_True; [done|]. split; [by right | done].
           ++ destruct (decide (w' = world_of entry.2 ∧ n' ∈ locks)) as [[-> Hn']|Hne].
              ** rewrite decide_True; [done|]. split; [by left | done].
              ** rewrite decide_False; [done|]. intros [Hin Hn'].
                 apply elem_of_cons in Hin as [->|Hin]; [by apply Hne | by apply Hnin].
      * destruct IH as (entry' & n & Hentry' & Hn & Hnone). rewrite Hes1 in Hnone.
        cbn in Hnone. destruct (decide _); [done|].
        exists entry', n. split; [by right | done].
    + destruct Hfirst as (n & Hn & Hnone). exists entry, n. split; [by left | done].
Qed.

Lemma enumerate_worlds (state_list : list State) :
  (λ entry : nat * State, world_of entry.2) <$> enumerate state_list
  = (λ state, world_of state) <$> state_list.
Proof.
  unfold enumerate.
  enough (∀ f : nat → State → nat * State, (∀ i state, (f i state).2 = state) →
            (λ entry : nat * State, world_of entry.2) <$> imap f state_list
            = (λ state, world_of state) <$> state_list) as Hgen by (by apply Hgen).
  induction state_list as [|state state_list IH]; intros f Hf; [done|].
  cbn. rewrite Hf. f_equal. apply IH. intros i state'. apply Hf.
Qed.

(** X11. [lock_category_entrances] raises exactly when one of the named
    entrances does not exist in the world of one of the states. When it
    returns, each entrance named by the category in the world of one of
    the states has the constant-false rule, whether or not an entrance is
    named twice or two states share a world, and every other entrance has
    the rule it had. *)
Theorem lock_category_entrances_effect (category : GoalCategory) (state_list : list State)
    (es : gmap (nat * string) (AccessRule State)) :
  ((∃ e, lock_category_entrances state_world category state_list es = Raise e) ↔
   ∃ state n, state ∈ state_list ∧ n ∈ default [] (c_lock_entrances category)
              ∧ es !! (world_of state, n) = None)
  ∧ (∀ category_locks locked,
       lock_category_entrances state_world category state_list es
       = Ok (category_locks, locked) →
       ∀ k, locked !! k =
            if decide (k.1 ∈ (λ state, world_of state) <$> state_list
                       ∧ k.2 ∈ default [] (c_lock_entrances category))
            then Some locked_rule else es !! k).
Proof.
  unfold lock_category_entrances. destruct (c_lock_entrances category) as [locks|]; cbn.
  - pose proof (lock_states_cases locks (enumerate state_list) [] es) as Hcases.
    destruct (for_each _ _ (enumerate state_list)) as [[category_locks locked]|e].
    + destruct Hcases as [Hsome Hlocked]. split.
      * split; [by intros [e [=]]|]. intros (state & n & Hstate & Hn & Hnone).
        apply list_elem_of_lookup in Hstate as [index Hindex].
        destruct (Hsome (index, state) n) as [r Hr]; [by apply enumerate_elem | done|].
        cbn in Hr. congruence.
      * intros ? ? [= <- <-] k. rewrite Hlocked, enumerate_worlds. done.
    + destruct Hcases as ([index state] & n & Hentry%enumerate_elem & Hn & Hnone). split.
      * split; [|eauto]. intros _. exists state, n.
        split; [by eapply list_elem_of_lookup_2 | done].
      * done.
  - split.
    + split; [by intros [e [=]]|]. intros (state & n & _ & Hn & _). by apply elem_of_nil in Hn.
    + intros ? ? [= <- <-] k. rewrite decide_False; [done|]. intros [_ Hk].
      by apply elem_of_nil in Hk.
Qed.

Lemma unlock_entrances_frame state_list state_id saved_list :
  ∀ es es',
    for_each (unlock_entrance state_world state_list state_id) es saved_list = Ok es' →
    (∀ k, is_Some (es' !! k) ↔ is_Some (es !! k))
    ∧ (∀ k, (∀ saved state, saved ∈ saved_list → state_list !! state_id = Some state →
               k ≠ (world_of state, saved.1)) →
            es' !! k = es !! k)
    ∧ (saved_list ≠ [] → state_id < length state_list).
Proof.
  induction saved_list as [|saved saved_list IH]; intros es es'; cbn [for_each].
  - by intros [= <-].
  - intros (es1 & H1 & H2)%bind_Ok. unfold unlock_entrance in H1.
    destruct (state_list !! state_id) as [state|] eqn:Hstate; [|done].
    apply bind_Ok in H1 as (exit & Hexit & [= <-]). unfold get_entrance in Hexit.
    destruct (es !! (world_of state, saved.1)) as [r|] eqn:Hr; [|done].
    injection Hexit as <-. destruct (IH _ _ H2) as (Hdom & Hframe & _). split_and!.
    + intros k. rewrite Hdom. destruct (decide (k = (world_of state, saved.1))) as [->|Hne].
      * rewrite lookup_insert_eq, Hr. split; eauto.
      * by rewrite lookup_insert_ne.
    + intros k Hk. rewrite Hframe.
      * rewrite lookup_insert_ne; [done|]. intros <-. by apply (Hk saved state); [left| |].
      * intros saved' state' Hsaved'. apply Hk. by right.
    + intros _. by apply lookup_lt_Some in Hstate.
Qed.

(** X12. [unlock_category_entrances] writes to nothing but the entrances the
    lock map names, in the worlds of the states at the map's indices: it
    creates no entrance and leaves every other entrance with the rule it
    had. It returns only if every index of the map with an entrance to
    restore is an index of the state list. *)
Theorem unlock_category_entrances_frame
    (category_locks : list (nat * list (string * AccessRule State)))
    (state_list : list State) (es es' : gmap (nat * string) (AccessRule State)) :
  unlock_category_entrances state_world category_locks state_list es = Ok es' →
  (∀ k, is_Some (es' !! k) ↔ is_Some (es !! k))
  ∧ (∀ k, (∀ entry saved state, entry ∈ category_locks → saved ∈ entry.2 →
             state_list !! entry.1 = Some state → k ≠ (world_of state, saved.1)) →
          es' !! k = es !! k)
  ∧ (∀ entry, entry ∈ category_locks → entry.2 ≠ [] → entry.1 < length state_list).
Proof.
  unfold unlock_category_entrances. revert es.
  induction category_locks as [|entry category_locks IH]; intros es; cbn [for_each].
  - intros [= <-]. split_and!; [done..|]. intros entry Hentry. by apply elem_of_nil in Hentry.
  - intros (es1 & H1 & H2)%bind_Ok.
    apply unlock_entrances_frame in H1 as (Hdom1 & Hframe1 & Hindex1).
    destruct (IH _ H2) as (Hdom & Hframe & Hindex). split_and!.
    + intros k. by rewrite Hdom, Hdom1.
    + intros k Hk. rewrite Hframe, Hframe1; [done|..].
      * intros saved state Hsaved. apply (Hk entry); [by left | done].
      * intros entry' saved state Hentry'. apply Hk. by right.
    + intros entry' [->|Hentry']%elem_of_cons; [done | by apply Hindex].
Qed.

End locks_more.

(** ** [search_goals] *)

Lemma rl_grows_refl P Q rl : rl_grows P Q rl rl.
Proof. unfold rl_grows. naive_solver. Qed.

Lemma rl_grows_trans P Q rl1 rl2 rl3 :
  rl_grows P Q rl1 rl2 → rl_grows P Q rl2 rl3 → rl_grows P Q rl1 rl3.
Proof.
  intros (A1 & B1 & C1 & D1) (A2 & B2 & C2 & D2). split_and!.
  - eauto.
  - intros c g w x Hx. destruct (B2 _ _ _ _ Hx) as [Hx'|]; [|by right]. eauto.
  - intros k l. by rewrite C2.
  - intros k Hk. destruct (D1 k Hk); [|by right]. eauto.
Qed.

Lemma rl_grows_weaken (P P' : string → string → nat → LocationWeights → Prop)
    (Q Q' : string → Prop) rl rl' :
  (∀ c g w x, P c g w x → P' c g w x) → (∀ k, Q k → Q' k) →
  rl_grows P Q rl rl' → rl_grows P' Q' rl rl'.
Proof.
  intros HP HQ (A & B & C & D). split_and!; [done| |done|].
  - intros c g w x Hx. destruct (B _ _ _ _ Hx); eauto.
  - intros k Hk. destruct (D k Hk); eauto.
Qed.


Section solver_facts.
Context {Search : Type} `{!SearchEngine Search}.
Variable item_table : string → option ItemInfo.
Variable h : heap.
Variable hint_exclusions : nat → list string.
Variable reachable_goals : ValidGoals.
Variable all_locations : list Location.
Variable item_locations : list Location.
Variable always_locations : list string.
Variable search_woth : bool.

Lemma add_location_spec (g : string) (w : nat) (x : LocationWeights)
    (d : gmap string (gmap nat (list LocationWeights))) (g' : string) (w' : nat)
    (y : LocationWeights) :
  (∃ ws l, add_location g w x d !! g' = Some ws ∧ ws !! w' = Some l ∧ y ∈ l)
  ↔ (∃ ws l, d !! g' = Some ws ∧ ws !! w' = Some l ∧ y ∈ l) ∨ (g' = g ∧ w' = w ∧ y = x).
Proof.
  unfold add_location. destruct (decide (g' = g)) as [->|Hg].
  - rewrite lookup_insert_eq. destruct (decide (w' = w)) as [->|Hw].
    + split.
      * intros (ws & l & [= <-] & Hl & Hy). rewrite lookup_insert_eq in Hl.
        injection Hl as <-. apply elem_of_app in Hy as [Hy|Hy].
        -- left. destruct (d !! g) as [ws|]; simpl in *; [|by rewrite lookup_empty in Hy; apply elem_of_nil in Hy].
           destruct (ws !! w) as [l|] eqn:Hl; simpl in *; [eauto | by apply elem_of_nil in Hy].
        -- right. by apply list_elem_of_singleton in Hy.
      * intros [(ws & l & Hws & Hl & Hy) | (_ & _ & ->)].
        -- eexists _, _. split; [done|]. rewrite lookup_insert_eq. split; [done|].
           rewrite Hws. simpl. rewrite Hl. simpl. apply elem_of_app. by left.
        -- eexists _, _. split; [done|]. rewrite lookup_insert_eq. split; [done|].
           apply elem_of_app. right. by apply list_elem_of_singleton.
    + split.
      * intros (ws & l & [= <-] & Hl & Hy). rewrite lookup_insert_ne in Hl by done.
        left. destruct (d !! g) as [ws|]; simpl in *; [eauto | by rewrite lookup_empty in Hl].
      * intros [(ws & l & Hws & Hl & Hy) | (_ & -> & _)]; [|done].
        eexists _, _. split; [done|]. rewrite lookup_insert_ne by done.
        rewrite Hws. simpl. eauto.
  - rewrite lookup_insert_ne by done. split; [by left | intros [?|(-> & _)]; done].
Qed.

Lemma insert_goals_grows (c g : string) (x : LocationWeights) (rl : RequiredLocations)
    (w : nat) (d0 : gmap string (gmap nat (list LocationWeights))) :
  (rl !! c = Some (RLGoals d0) ∨ (rl !! c = None ∧ d0 = ∅)) →
  rl_grows (λ c' g' w' y, c' = c ∧ g' = g ∧ w' = w ∧ y = x) (λ k, k = c) rl
    (<[c := RLGoals (add_location g w x d0)]> rl)
  ∧ recorded (<[c := RLGoals (add_location g w x d0)]> rl) c g w x.
Proof.
  intros Hc.
  assert (∀ g' w' y, recorded rl c g' w' y ↔
            ∃ ws l, d0 !! g' = Some ws ∧ ws !! w' = Some l ∧ y ∈ l) as Hold.
  { intros g' w' y. unfold recorded. destruct Hc as [Hc | [Hc ->]]; rewrite Hc.
    - split; [intros (d & ws & l & [= <-] & ?); eauto | intros (ws & l & ?); eauto 10].
    - split; [intros (d & ws & l & [=] & ?) | intros (ws & l & Hl & _)].
      by rewrite lookup_empty in Hl. }
  assert (∀ g' w' y, recorded (<[c := RLGoals (add_location g w x d0)]> rl) c g' w' y ↔
            recorded rl c g' w' y ∨ (g' = g ∧ w' = w ∧ y = x)) as Hnew.
  { intros g' w' y. rewrite Hold, <-add_location_spec. unfold recorded.
    rewrite lookup_insert_eq.
    split; [intros (d & ws & l & [= <-] & ?); eauto | intros (ws & l & ?); eauto 10]. }
  assert (∀ c' g' w' y, c' ≠ c →
            recorded (<[c := RLGoals (add_location g w x d0)]> rl) c' g' w' y ↔
            recorded rl c' g' w' y) as Hother.
  { intros c' g' w' y Hc'. unfold recorded. by rewrite lookup_insert_ne. }
  split; [split_and!|].
  - intros c' g' w' y Hy. destruct (decide (c' = c)) as [->|Hc'].
    + apply Hnew. by left.
    + by apply Hother.
  - intros c' g' w' y Hy. destruct (decide (c' = c)) as [->|Hc'].
    + apply Hnew in Hy as [?|(-> & -> & ->)]; [by left | by right].
    + left. by apply Hother in Hy.
  - intros k l. destruct (decide (k = c)) as [->|Hk].
    + rewrite lookup_insert_eq. split; [done|]. destruct Hc as [Hc | [Hc _]]; by rewrite Hc.
    + by rewrite lookup_insert_ne.
  - intros k Hk. destruct (decide (k = c)) as [->|Hne]; [by right|].
    left. by rewrite lookup_insert_ne.
  - apply Hnew. by right.
Qed.

Lemma append_required_spec (c g : string) (x : LocationWeights) (rl rl' : RequiredLocations)
    (w : nat) :
  append_required c g x rl w = Ok rl' →
  rl_grows (λ c' g' w' y, c' = c ∧ g' = g ∧ w' = w ∧ y = x) (λ k, k = c) rl rl'
  ∧ recorded rl' c g w x.
Proof.
  unfold append_required. destruct (rl !! c) as [[d|l]|] eqn:Hc; intros [= <-].
  - apply insert_goals_grows. by left.
  - apply insert_goals_grows. by right.
Qed.

(** The loop over [hintable_states]. *)
Lemma append_states_spec (c g : string) (x : LocationWeights) (states : list nat) :
  ∀ rl rl',
    for_each (append_required c g x) rl states = Ok rl' →
    rl_grows (λ c' g' w' y, c' = c ∧ g' = g ∧ w' ∈ states ∧ y = x)
      (λ k, k = c ∧ states ≠ []) rl rl'
    ∧ (∀ w, w ∈ states → recorded rl' c g w x).
Proof.
  induction states as [|w states IH]; intros rl rl'; cbn [for_each].
  - intros [= <-]. split; [apply rl_grows_refl|]. intros w Hw. by apply elem_of_nil in Hw.
  - intros (rl1 & H1 & H2)%bind_Ok. apply append_required_spec in H1 as [G1 R1].
    apply IH in H2 as [G2 R2]. split.
    + eapply rl_grows_trans; (eapply rl_grows_weaken; [| |done]); cbn beta.
      * intros c' g' w' y (-> & -> & -> & ->). split_and!; try done. by left.
      * intros k ->. done.
      * intros c' g' w' y (-> & -> & Hw' & ->). split_and!; try done. by right.
      * intros k [-> _]. done.
    + intros w' [->|Hw']%elem_of_cons; [|by apply R2].
      destruct G2 as (A2 & _). by apply A2.
Qed.


Lemma owner_mono_refl prio : owner_mono prio prio.
Proof. by intros L c. Qed.

Lemma owner_mono_trans prio1 prio2 prio3 :
  owner_mono prio1 prio2 → owner_mono prio2 prio3 → owner_mono prio1 prio3.
Proof. intros H1 H2 L c Hc. eauto. Qed.

Lemma claimed_mono_l prio0 prio prio' location c :
  owner_mono prio0 prio → claimed prio prio' location c → claimed prio0 prio' location c.
Proof.
  intros Hmono [Hafter Hbefore]. split; [done|].
  destruct (owner prio0 location) as [c0|] eqn:H0; [|by left].
  right. apply Hmono in H0. destruct Hbefore; congruence.
Qed.

Lemma claimed_mono_r prio prio' prio'' location c :
  owner_mono prio' prio'' → claimed prio prio' location c → claimed prio prio'' location c.
Proof. intros Hmono [Hafter Hbefore]. split; [by apply Hmono | done]. Qed.

Lemma owner_claim (prio : PriorityLocations) (claims : gmap string string)
    (location L : Location) (c : string) :
  prio !! loc_world location = Some claims →
  owner (<[loc_world location := <[loc_name location := c]> claims]> prio) L =
  if decide (loc_world L = loc_world location ∧ loc_name L = loc_name location)
  then Some c else owner prio L.
Proof.
  intros Hclaims. unfold owner.
  destruct (decide (loc_world L = loc_world location)) as [Hw|Hw].
  - rewrite Hw, lookup_insert_eq, Hclaims. cbn.
    destruct (decide (loc_name L = loc_name location)) as [Hn|Hn].
    + rewrite Hn, lookup_insert_eq. by rewrite decide_True.
    + rewrite lookup_insert_ne by done. rewrite decide_False; [done|]. by intros [_ ?].
  - rewrite lookup_insert_ne by done. rewrite decide_False; [done|]. by intros [? _].
Qed.

Lemma goal_le_refl g : goal_le g g.
Proof. by unfold goal_le. Qed.

Lemma goal_le_trans g1 g2 g3 : goal_le g1 g2 → goal_le g2 g3 → goal_le g1 g3.
Proof. unfold goal_le. intros (-> & -> & ?) (-> & -> & ?). auto. Qed.

Lemma category_le_refl e : category_le e e.
Proof.
  unfold category_le. split_and!; try done.
  apply Forall_Forall2_diag, Forall_forall. intros g _. apply goal_le_refl.
Qed.

Lemma category_le_trans e1 e2 e3 : category_le e1 e2 → category_le e2 e3 → category_le e1 e3.
Proof.
  unfold category_le. intros (-> & -> & ? & H12) (-> & -> & ? & H23). split_and!; auto.
  eapply Forall2_trans; [|done..]. intros ???. apply goal_le_trans.
Qed.

Section location.
Variable world_ids : list nat.
Variable valid_goals : ValidGoals.
Variable location : Location.
Variable old_item : option Item.

Local Abbreviation weights := (location_weights hint_exclusions always_locations location).

Lemma goal_eligible_true prio cname goal :
  goal_eligible item_table h reachable_goals valid_goals location old_item prio cname goal
  = Ok true →
  has_goals valid_goals cname
  ∧ (owner prio location = None ∨ owner prio location = Some cname)
  ∧ is_Some (prio !! loc_world location)
  ∧ ∃ i, old_item = Some i ∧ Goal_requires item_table h goal (item_name i) = Ok false.
Proof.
  unfold goal_eligible. destruct (valid_goals !! cname) as [ve|] eqn:Hve; [|done].
  intros (in_valid & Hin_valid & H)%bind_Ok. destruct in_valid; [|done]. cbn in H.
  apply bind_Ok in H as (re & Hre & H).
  apply bind_Ok in H as (in_reachable & Hin_reachable & H).
  destruct in_reachable; [|done]. cbn in H.
  apply bind_Ok in H as (claims & Hclaims & H).
  destruct (negb _) eqn:Hown in H; [done|].
  apply bind_Ok in H as (i & Hi & H). apply bind_Ok in H as (required & Hrequired & H).
  injection H as Hnot. apply negb_true_iff in Hnot as ->.
  split_and!.
  - destruct ve as [d|b]; [by exists d | done].
  - apply negb_false_iff, orb_true_iff in Hown. unfold owner.
    destruct (prio !! loc_world location) as [claims'|]; [|done]. injection Hclaims as ->.
    cbn. destruct Hown as [Hown|Hown]; apply bool_decide_eq_true in Hown; auto.
  - destruct (prio !! loc_world location); [eauto | done].
  - destruct old_item as [i'|]; [|done]. injection Hi as ->. eauto.
Qed.

Lemma credit_goal_spec cname rl prio goal rl' prio' goal' credited :
  credit_goal item_table h hint_exclusions reachable_goals always_locations world_ids
    valid_goals location old_item cname (rl, prio) goal = Ok (rl', prio', goal', credited) →
  owner_mono prio prio' ∧ goal_le goal goal'
  ∧ rl_grows
      (λ c g w x, c = cname ∧ x = weights ∧ credited = true ∧ claimed prio prio' location cname
                  ∧ has_goals valid_goals cname
                  ∧ credited_goal item_table h old_item [goal'] g)
      (λ k, k = cname ∧ has_goals valid_goals cname) rl rl'
  ∧ (credited = false → rl' = rl ∧ prio' = prio ∧ goal' = goal)
  ∧ (credited = true →
       claimed prio prio' location cname ∧ goal' = set_g_weight 1 goal
       ∧ ∃ w, recorded rl' cname (g_name goal) w weights).
Proof.
  unfold credit_goal. intros (eligible & Heligible & H)%bind_Ok.
  assert (∀ P Q, rl' = rl → prio' = prio → goal' = goal → credited = false →
            owner_mono prio prio' ∧ goal_le goal goal' ∧ rl_grows P Q rl rl'
            ∧ (credited = false → rl' = rl ∧ prio' = prio ∧ goal' = goal)
            ∧ (credited = true →
                 claimed prio prio' location cname ∧ goal' = set_g_weight 1 goal
                 ∧ ∃ w, recorded rl' cname (g_name goal) w weights)) as Hsame.
  { intros P Q -> -> -> ->. split_and!; try done.
    - apply owner_mono_refl.
    - apply rl_grows_refl. }
  destruct eligible; [|injection H as <- <- <- <-; by apply Hsame].
  apply goal_eligible_true in Heligible as (Hgoals & Hown & [claims Hclaims] & i & Hi & Hreq).
  apply bind_Ok in H as (ve & _ & H). apply bind_Ok in H as (valid & _ & H).
  apply bind_Ok in H as (re & _ & H). apply bind_Ok in H as (reachable & _ & H).
  case_bool_decide as Hstates; [|injection H as <- <- <- <-; by apply Hsame].
  apply bind_Ok in H as (rl1 & Hrl1 & H). apply bind_Ok in H as (claims' & Hclaims' & H).
  rewrite Hclaims in Hclaims'. injection Hclaims' as <-.
  injection H as <- <- <- <-.
  apply append_states_spec in Hrl1 as [Hgrows Hrec].
  assert (claimed prio (<[loc_world location := <[loc_name location := cname]> claims]> prio)
            location cname) as Hclaimed.
  { split; [|done]. rewrite owner_claim by done. by rewrite decide_True. }
  split_and!.
  - intros L c Hc. rewrite owner_claim by done. destruct (decide _) as [[Hw Hn]|]; [|done].
    assert (owner prio L = owner prio location) as HL by (unfold owner; by rewrite Hw, Hn).
    destruct Hown; congruence.
  - by unfold goal_le.
  - eapply rl_grows_weaken; [| |done]; cbn beta.
    + intros c g w x (-> & -> & _ & ->). split_and!; try done.
      exists (set_g_weight 1 goal), i. split_and!; try done. by left.
    + intros k [-> _]. done.
  - done.
  - intros _. split_and!; [done..|].
    destruct (hintable_states world_ids valid reachable) as [|w states] eqn:Hs; [done|].
    exists w. apply Hrec. by left.
Qed.

Lemma credited_goal_incl (goals goals' : list Goal) g :
  (∀ goal, goal ∈ goals → goal ∈ goals') →
  credited_goal item_table h old_item goals g → credited_goal item_table h old_item goals' g.
Proof. intros Hincl (goal & i & Hin & ?). exists goal, i. split; [by apply Hincl | done]. Qed.

Lemma credited_category_incl (cats cats' : list (string * GoalCategory)) c g :
  (∀ e, e ∈ cats → e ∈ cats') →
  credited_category item_table h old_item cats c g →
  credited_category item_table h old_item cats' c g.
Proof. intros Hincl (e & Hin & ?). exists e. split; [by apply Hincl | done]. Qed.

Lemma credit_goals_spec cname goals :
  ∀ rl prio rl' prio' goals' credited,
    credit_goals item_table h hint_exclusions reachable_goals always_locations world_ids
      valid_goals location old_item cname (rl, prio) goals = Ok (rl', prio', goals', credited) →
    owner_mono prio prio' ∧ Forall2 goal_le goals goals'
    ∧ rl_grows
        (λ c g w x, c = cname ∧ x = weights ∧ credited = true
                    ∧ claimed prio prio' location cname ∧ has_goals valid_goals cname
                    ∧ credited_goal item_table h old_item goals' g)
        (λ k, k = cname ∧ has_goals valid_goals cname) rl rl'.
Proof.
  induction goals as [|goal goals IH]; intros rl prio rl' prio' goals' credited; cbn [credit_goals].
  - intros [= <- <- <- <-]. split_and!; [apply owner_mono_refl | done | apply rl_grows_refl].
  - intros ([[[rl1 prio1] goal1] credited1] & H1 & H)%bind_Ok. cbn in H.
    apply bind_Ok in H as ([[[rl2 prio2] goals2] credited2] & H2 & H). cbn in H.
    injection H as <- <- <- <-.
    apply credit_goal_spec in H1 as (Hmono1 & Hle1 & Hgrows1 & _ & _).
    apply IH in H2 as (Hmono2 & Hle2 & Hgrows2).
    split_and!.
    + by eapply owner_mono_trans.
    + by constructor.
    + eapply rl_grows_trans; (eapply rl_grows_weaken; [| |done]); cbn beta; try done.
      * intros c g w x (-> & -> & -> & Hclaimed & Hgoals & Hcredited). split_and!; try done.
        -- by eapply claimed_mono_r.
        -- eapply credited_goal_incl; [|done]. intros goal' ->%list_elem_of_singleton. by left.
      * intros c g w x (-> & -> & -> & Hclaimed & Hgoals & Hcredited). split_and!; try done.
        -- apply orb_true_r.
        -- by eapply claimed_mono_l.
        -- eapply credited_goal_incl; [|done]. intros goal' ?. by right.
Qed.

Lemma credit_category_spec rl prio entry rl' prio' entry' :
  credit_category item_table h hint_exclusions reachable_goals always_locations world_ids
    valid_goals location old_item (rl, prio) entry = Ok (rl', prio', entry') →
  owner_mono prio prio' ∧ category_le entry entry'
  ∧ rl_grows
      (λ c g w x, x = weights ∧ claimed prio prio' location c ∧ has_goals valid_goals c
                  ∧ credited_category item_table h old_item [entry'] c g)
      (λ k, has_goals valid_goals k ∧ k = c_name entry.2) rl rl'.
Proof.
  unfold credit_category. destruct entry as [cat_name category].
  assert (Ok (rl, prio, (cat_name, category)) = Ok (rl', prio', entry') →
          owner_mono prio prio' ∧ category_le (cat_name, category) entry'
          ∧ rl_grows
              (λ c g w x, x = weights ∧ claimed prio prio' location c ∧ has_goals valid_goals c
                          ∧ credited_category item_table h old_item [entry'] c g)
              (λ k, has_goals valid_goals k ∧ k = c_name category) rl rl') as Hsame.
  { intros [= <- <- <-].
    split_and!; [apply owner_mono_refl | apply category_le_refl | apply rl_grows_refl]. }
  destruct (reachable_goals !! c_name category) as [re|]; [|done].
  destruct (vg_true re); [|done].
  intros ([[[rl1 prio1] goals1] credited1] & H1 & H)%bind_Ok. cbn in H.
  injection H as <- <- <-.
  apply credit_goals_spec in H1 as (Hmono & Hle & Hgrows).
  split_and!.
  - done.
  - unfold category_le. cbn. destruct credited1; cbn; split_and!; done.
  - eapply rl_grows_weaken; [| |done]; cbn beta.
    + intros c g w x (-> & -> & -> & Hclaimed & Hgoals & Hcredited). split_and!; try done.
      eexists. split; [by left|]. cbn. done.
    + intros k [-> ?]. by split.
Qed.

Lemma credit_categories_spec categories :
  ∀ rl prio rl' prio' categories',
    credit_categories item_table h hint_exclusions reachable_goals always_locations world_ids
      valid_goals location old_item (rl, prio) categories = Ok (rl', prio', categories') →
    owner_mono prio prio' ∧ Forall2 category_le categories categories'
    ∧ rl_grows
        (λ c g w x, x = weights ∧ claimed prio prio' location c ∧ has_goals valid_goals c
                    ∧ credited_category item_table h old_item categories' c g)
        (λ k, has_goals valid_goals k ∧ ∃ e, e ∈ categories ∧ c_name e.2 = k) rl rl'.
Proof.
  induction categories as [|entry categories IH]; intros rl prio rl' prio' categories';
    cbn [credit_categories].
  - intros [= <- <- <-]. split_and!; [apply owner_mono_refl | done | apply rl_grows_refl].
  - intros ([[rl1 prio1] entry1] & H1 & H)%bind_Ok. cbn in H.
    apply bind_Ok in H as ([[rl2 prio2] categories2] & H2 & H). cbn in H.
    injection H as <- <- <-.
    apply credit_category_spec in H1 as (Hmono1 & Hle1 & Hgrows1).
    apply IH in H2 as (Hmono2 & Hle2 & Hgrows2).
    split_and!.
    + by eapply owner_mono_trans.
    + by constructor.
    + eapply rl_grows_trans; (eapply rl_grows_weaken; [| |done]); cbn beta; try done.
      * intros c g w x (-> & Hclaimed & Hgoals & Hcredited). split_and!; try done.
        -- by eapply claimed_mono_r.
        -- eapply credited_category_incl; [|done]. intros e ->%list_elem_of_singleton. by left.
      * intros k [Hgoals ->]. split; [done|]. exists entry. split; [by left | done].
      * intros c g w x (-> & Hclaimed & Hgoals & Hcredited). split_and!; try done.
        -- by eapply claimed_mono_l.
        -- eapply credited_category_incl; [|done]. intros e ?. by right.
      * intros k (Hgoals & e & He & Hname). split; [done|]. exists e. split; [by right | done].
Qed.

Lemma credit_woth_spec rl rl' :
  credit_woth search_woth valid_goals location rl = Ok rl' →
  (∀ c g w x, recorded rl' c g w x ↔ recorded rl c g w x)
  ∧ (∀ k, is_Some (rl' !! k) ↔ is_Some (rl !! k))
  ∧ (∀ k l', rl' !! k = Some (RLList l') →
       ∃ l, rl !! k = Some (RLList l) ∧ ∀ L, L ∈ l' → L ∈ l ∨ L = location)
  ∧ (∀ k l, rl !! k = Some (RLList l) → ∃ l', rl' !! k = Some (RLList l')).
Proof.
  unfold credit_woth.
  assert (Ok rl = Ok rl' →
    (∀ c g w x, recorded rl' c g w x ↔ recorded rl c g w x)
    ∧ (∀ k, is_Some (rl' !! k) ↔ is_Some (rl !! k))
    ∧ (∀ k l', rl' !! k = Some (RLList l') →
         ∃ l, rl !! k = Some (RLList l) ∧ ∀ L, L ∈ l' → L ∈ l ∨ L = location)
    ∧ (∀ k l, rl !! k = Some (RLList l) → ∃ l', rl' !! k = Some (RLList l'))) as Hsame.
  { intros [= <-]. split_and!; try done; eauto. }
  destruct search_woth; [|exact Hsame].
  intros (woth & _ & H)%bind_Ok. destruct (negb (vg_true woth)); [|by apply Hsame].
  unfold append_woth in H. destruct (rl !! "way of the hero") as [[d|l]|] eqn:Hl; try done.
  injection H as <-. split_and!.
  - intros c g w x. unfold recorded. destruct (decide (c = "way of the hero")) as [->|Hc].
    + rewrite lookup_insert_eq, Hl. split; intros (d & ws & l0 & [=] & _).
    + by rewrite lookup_insert_ne.
  - intros k. destruct (decide (k = "way of the hero")) as [->|Hk].
    + rewrite lookup_insert_eq, Hl. split; eauto.
    + by rewrite lookup_insert_ne.
  - intros k l'. destruct (decide (k = "way of the hero")) as [->|Hk].
    + rewrite lookup_insert_eq. intros [= <-]. exists l. split; [done|].
      intros L [?|HL%list_elem_of_singleton]%elem_of_app; auto.
    + rewrite lookup_insert_ne by done. eauto.
  - intros k l0. destruct (decide (k = "way of the hero")) as [->|Hk].
    + rewrite lookup_insert_eq. eauto.
    + rewrite lookup_insert_ne by done. eauto.
Qed.

End location.

Lemma location_weights_location location :
  (location_weights hint_exclusions always_locations location).1.1 = location.
Proof. unfold location_weights. by destruct (_ || _). Qed.

Lemma Goal_requires_items goal goal' item :
  g_items goal' = g_items goal →
  Goal_requires item_table h goal' item = Goal_requires item_table h goal item.
Proof. unfold Goal_requires. by intros ->. Qed.

Lemma credited_category_le item cats cats' c g :
  Forall2 category_le cats cats' →
  credited_category item_table h item cats c g → credited_category item_table h item cats' c g.
Proof.
  intros Hle (e & He & Hc & Hw & goal & i & Hgoal & Hg & Hgw & Hitem & Hreq).
  apply list_elem_of_lookup in He as [k He].
  destruct (Forall2_lookup_l _ _ _ _ _ Hle He) as (e' & He' & _ & Hname & Hweight & Hgoals).
  apply list_elem_of_lookup in Hgoal as [j Hgoal].
  destruct (Forall2_lookup_l _ _ _ _ _ Hgoals Hgoal) as (goal' & Hgoal' & Hgn & Hgi & Hgw').
  exists e'. split_and!; [by eapply list_elem_of_lookup_2 | congruence | auto |].
  exists goal', i. split_and!; [by eapply list_elem_of_lookup_2 | congruence | auto | done |].
  by rewrite (Goal_requires_items goal).
Qed.

Lemma list_remove_spec {A} `{EqDecision A} (x : A) (l l' : list A) :
  list_remove x l = Ok l' →
  length l = S (length l') ∧ (∀ y, y ∈ l → y = x ∨ y ∈ l') ∧ (∀ y, y ∈ l' → y ∈ l).
Proof.
  revert l'. induction l as [|y l IH]; intros l'; cbn [list_remove]; [done|].
  destruct (decide (y = x)) as [->|Hne].
  - intros [= <-]. split_and!; [done| |by right]. intros z [->|?]%elem_of_cons; auto.
  - intros (l1 & H1 & [= <-])%bind_Ok. destruct (IH _ H1) as (Hlen & Hin & Hin').
    split_and!.
    + cbn. by rewrite Hlen.
    + intros z [->|Hz]%elem_of_cons; [right; by left|].
      destruct (Hin z Hz); [by left | right; by right].
    + intros z [->|Hz]%elem_of_cons; [by left | right; auto].
Qed.

Section loop.
Variable world_ids : list nat.
Variable prio0 : PriorityLocations.
Variable categories0 : list (string * GoalCategory).
Variable items0 : Location → option Item.

Local Abbreviation inv :=
  (solver_inv item_table h hint_exclusions all_locations always_locations search_woth
     prio0 categories0 items0).
Local Abbreviation run_visit :=
  (visit item_table h hint_exclusions reachable_goals item_locations always_locations
     search_woth world_ids).

Lemma visit_remaining st location st' :
  run_visit st location = Ok st' →
  length (sv_remaining st) = S (length (sv_remaining st')).
Proof.
  unfold visit. intros (st1 & H1 & H)%bind_Ok.
  apply bind_Ok in H as (remaining & Hremaining & H).
  apply bind_Ok in H as (item & _ & H). apply bind_Ok in H as (search & _ & H).
  injection H as <-. cbn. apply list_remove_spec in Hremaining as [Hlen _].
  rewrite <-Hlen. case_bool_decide; [|by injection H1 as <-].
  apply bind_Ok in H1 as ([[rl prio] cats] & _ & H1). cbn in H1.
  apply bind_Ok in H1 as (rl' & _ & H1). by injection H1 as <-.
Qed.

Lemma visit_inv st location search st' :
  inv st →
  run_visit (yield st location search) location = Ok st' →
  inv st'.
Proof.
  intros [Hrec Hkeys Hwoth Howner Hcats Hitems Hmisc Hremaining].
  unfold visit. intros (st1 & H1 & H)%bind_Ok.
  apply bind_Ok in H as (remaining & Hrem & H).
  apply bind_Ok in H as (item & _ & H). apply bind_Ok in H as (search' & _ & H).
  injection H as <-.
  apply list_remove_spec in Hrem as (_ & Hrem & _).
  assert ((∀ c g w x, recorded (sv_required st1) c g w x →
             x = location_weights hint_exclusions always_locations x.1.1
             ∧ x.1.1 ∈ sv_yielded st ++ [location]
             ∧ claimed prio0 (sv_priority st1) x.1.1 c
             ∧ credited_category item_table h (items0 x.1.1) (sv_categories st1) c g)
          ∧ (∀ k, is_Some (sv_required st1 !! k) →
               (k = "way of the hero" ∧ search_woth = true)
               ∨ ((∃ items categories search,
                     has_goals (beatable_goals h items categories search) k)
                  ∧ ∃ e, e ∈ categories0 ∧ c_name e.2 = k))
          ∧ (if search_woth
             then ∃ l, sv_required st1 !! "way of the hero" = Some (RLList l)
                       ∧ ∀ L, L ∈ l → L ∈ sv_yielded st ++ [location]
             else ∀ k l, sv_required st1 !! k ≠ Some (RLList l))
          ∧ owner_mono prio0 (sv_priority st1)
          ∧ Forall2 category_le categories0 (sv_categories st1)
          ∧ (∀ L, sv_items st1 L = items0 L)
          ∧ sv_misc_hints st1 = sv_misc_hints st ∧ sv_remaining st1 = sv_remaining st
          ∧ sv_yielded st1 = sv_yielded st ++ [location])
    as (Hrec1 & Hkeys1 & Hwoth1 & Howner1 & Hcats1 & Hitems1 & Hm1 & Hr1 & Hy1).
  { case_bool_decide as Hin.
    - cbn in H1. apply bind_Ok in H1 as ([[rl1 prio1] cats1] & Hcredit & H1). cbn in H1.
      apply bind_Ok in H1 as (rl2 & Hcw & H1). injection H1 as <-. cbn.
      apply credit_categories_spec in Hcredit as (Hmono & Hle & Hgrows).
      destruct Hgrows as (GA & GB & GC & GD).
      apply credit_woth_spec in Hcw as (WA & WB & WC & WD).
      split_and!; try done.
      + intros c g w x Hx. apply WA in Hx. destruct (GB _ _ _ _ Hx) as [Hold|Hnew].
        * destruct (Hrec _ _ _ _ Hold) as (Hw & Hy & Hcl & Hcr). split_and!.
          -- done.
          -- apply elem_of_app. by left.
          -- by eapply claimed_mono_r.
          -- by eapply credited_category_le.
        * destruct Hnew as (-> & Hcl & Hg & Hcr).
          rewrite !location_weights_location. split_and!.
          -- done.
          -- apply elem_of_app. right. by apply list_elem_of_singleton.
          -- by eapply claimed_mono_l.
          -- by rewrite <-Hitems.
      + intros k Hk. apply WB in Hk.
        destruct (sv_required st !! k) as [e|] eqn:He.
        * apply Hkeys. by rewrite He.
        * destruct (GD k He) as [Hnone|[Hgoals (e' & He' & Hname')]];
            [rewrite Hnone in Hk; by destruct Hk|].
          right. split; [eauto|].
          apply list_elem_of_lookup in He' as [i He'].
          destruct (Forall2_lookup_r _ _ _ _ _ Hcats He') as (e0 & He0 & _ & Hname0 & _).
          exists e0. split; [by eapply list_elem_of_lookup_2 | congruence].
      + destruct search_woth.
        * destruct Hwoth as (l & Hl & Hly). apply GC in Hl. destruct (WD _ _ Hl) as [l' Hl'].
          exists l'. split; [done|]. intros L HL.
          destruct (WC _ _ Hl') as (l0 & Hl0 & Hincl). rewrite Hl in Hl0. injection Hl0 as <-.
          apply elem_of_app. destruct (Hincl L HL) as [?| ->]; [left; auto|].
          right. by apply list_elem_of_singleton.
        * intros k l Hl. destruct (WC _ _ Hl) as (l0 & Hl0 & _). apply GC in Hl0.
          by eapply Hwoth.
      + by eapply owner_mono_trans.
      + eapply Forall2_trans; [|done..]. intros ???. apply category_le_trans.
      + intros L. rewrite <-Hitems. destruct (decide (location = L)) as [->|Hne].
        * by rewrite fn_lookup_insert.
        * by rewrite !fn_lookup_insert_ne.
    - injection H1 as <-. cbn. split_and!; try done.
      + intros c g w x Hx. destruct (Hrec _ _ _ _ Hx) as (? & ? & ? & ?). split_and!; try done.
        apply elem_of_app. by left.
      + destruct search_woth; [|done]. destruct Hwoth as (l & Hl & Hly). exists l.
        split; [done|]. intros L HL. apply elem_of_app. left. auto. }
  split; cbn; try done.
  - by rewrite Hy1.
  - by rewrite Hy1.
  - by rewrite Hm1, Hy1, Hmisc.
  - rewrite Hy1. rewrite Hr1 in Hrem. intros L HL.
    destruct (Hremaining L HL) as [Hy|Hr]; [left; apply elem_of_app; by left|].
    destruct (Hrem L Hr) as [->|?]; [|by right].
    left. apply elem_of_app. right. by apply list_elem_of_singleton.
Qed.

Lemma search_loop_inv fuel :
  ∀ st r,
    inv st →
    search_loop item_table h hint_exclusions reachable_goals all_locations item_locations
      always_locations search_woth world_ids fuel st = Some (Ok r) →
    ∃ last, inv last ∧ r = finish last.
Proof.
  induction fuel as [|fuel IH]; intros st r Hinv; cbn [search_loop];
    (destruct (iter_reachable_locations _ _ _) as [[location search]|];
     [|intros [= <-]; eauto]);
    destruct (visit _ _ _ _ _ _ _ _ _ _) as [st'|e] eqn:Hvisit; try done.
  apply visit_inv in Hvisit; [|done]. by apply IH.
Qed.

Lemma search_loop_terminates fuel :
  ∀ st,
    length (sv_remaining st) ≤ fuel →
    is_Some (search_loop item_table h hint_exclusions reachable_goals all_locations
               item_locations always_locations search_woth world_ids fuel st).
Proof.
  induction fuel as [|fuel IH]; intros st Hfuel; cbn [search_loop];
    (destruct (iter_reachable_locations _ _ _) as [[location search]|]; [|done]);
    (destruct (visit _ _ _ _ _ _ _ _ _ _) as [st'|e] eqn:Hvisit; [|done]);
    apply visit_remaining in Hvisit; cbn in Hvisit.
  - lia.
  - apply IH. lia.
Qed.

End loop.

Lemma Forall2_category_le_refl (categories : list (string * GoalCategory)) :
  Forall2 category_le categories categories.
Proof. apply Forall_Forall2_diag, Forall_forall. intros e _. apply category_le_refl. Qed.

Lemma search_goals_inv categories search prio items st :
  search_goals item_table h hint_exclusions reachable_goals all_locations item_locations
    always_locations search_woth categories search prio items = Some (Ok st) →
  ∃ last,
    solver_inv item_table h hint_exclusions all_locations always_locations search_woth
      prio categories items last
    ∧ st = finish last.
Proof.
  unfold search_goals. apply search_loop_inv. split; cbn; try done.
  - intros c g w x (d & ws & l & Hd & _). destruct search_woth.
    + apply lookup_singleton_Some in Hd as [_ [=]].
    + by rewrite lookup_empty in Hd.
  - intros k [e He]. destruct search_woth.
    + apply lookup_singleton_Some in He as [<- _]. by left.
    + by rewrite lookup_empty in He.
  - destruct search_woth.
    + exists []. split; [by rewrite lookup_singleton_eq|]. intros L HL. by apply elem_of_nil in HL.
    + intros k l. by rewrite lookup_empty.
  - apply owner_mono_refl.
  - apply Forall2_category_le_refl.
  - auto.
Qed.

(** X1. The loop of [search_goals] ends: with a step budget of the length of
    [all_locations] the model never runs out of steps, whatever the engine
    yields. *)
Lemma search_goals_terminates categories search prio items :
  is_Some (search_goals item_table h hint_exclusions reachable_goals all_locations
             item_locations always_locations search_woth categories search prio items).
Proof. unfold search_goals. by apply search_loop_terminates. Qed.

End solver_facts.


(** ** More on [search_goals] *)

Lemma getitem_Ok {A} (o : option A) (a : A) : getitem o = Ok a → o = Some a.
Proof. destruct o; [by intros [= ->] | done]. Qed.

Lemma set_c_goals_id (c : GoalCategory) : set_c_goals (c_goals c) c = c.
Proof. by destruct c. Qed.

Lemma list_remove_perm {A} `{EqDecision A} (x : A) (l l' : list A) :
  list_remove x l = Ok l' → l ≡ₚ x :: l'.
Proof.
  revert l'. induction l as [|y l IH]; intros l'; cbn [list_remove]; [done|].
  destruct (decide (y = x)) as [->|Hne]; [by intros [= <-]|].
  intros (l1 & H1 & [= <-])%bind_Ok. rewrite (IH _ H1). apply perm_swap.
Qed.

Lemma list_remove_raises {A} `{EqDecision A} (x : A) (l : list A) :
  x ∉ l → list_remove x l = Raise ValueError.
Proof.
  induction l as [|y l IH]; cbn [list_remove]; [done|]. intros Hx.
  rewrite decide_False by (intros ->; apply Hx; by left).
  rewrite IH; [done|]. intros ?. apply Hx. by right.
Qed.

Lemma goal_step_mono (rl rl' : RequiredLocations) (c : string) (g g' : Goal) :
  (∀ g0 w x, recorded rl c g0 w x → recorded rl' c g0 w x) →
  goal_step rl c g g' → goal_step rl' c g g'.
Proof. intros Hmono [->|[-> (w & x & Hx)]]; [by left|]. right. eauto. Qed.

Lemma goal_step_trans (rl : RequiredLocations) (c : string) (g1 g2 g3 : Goal) :
  goal_step rl c g1 g2 → goal_step rl c g2 g3 → goal_step rl c g1 g3.
Proof.
  intros [->|[-> H1]] [->|[-> H2]]; [by left | by right | by right | by right].
Qed.

Lemma category_step_refl (rl : RequiredLocations) (e : string * GoalCategory) :
  category_step rl e e.
Proof.
  split; [done|]. exists (c_goals e.2). split.
  - apply Forall_Forall2_diag, Forall_forall. intros g _. by left.
  - left. by rewrite set_c_goals_id.
Qed.

Lemma category_step_mono (rl rl' : RequiredLocations) (e e' : string * GoalCategory) :
  (∀ c g w x, recorded rl c g w x → recorded rl' c g w x) →
  category_step rl e e' → category_step rl' e e'.
Proof.
  intros Hmono (Hkey & goals & Hgoals & Hweight). split; [done|]. exists goals. split.
  - eapply Forall2_impl; [exact Hgoals|]. intros g g'. apply goal_step_mono. eauto.
  - destruct Hweight as [?|[? (g & w & x & Hx)]]; [by left|]. right. eauto 10.
Qed.

Lemma category_step_trans (rl : RequiredLocations) (e1 e2 e3 : string * GoalCategory) :
  category_step rl e1 e2 → category_step rl e2 e3 → category_step rl e1 e3.
Proof.
  intros (Hkey1 & goals1 & Hgoals1 & Hw1) (Hkey2 & goals2 & Hgoals2 & Hw2).
  assert (c_name e2.2 = c_name e1.2 ∧ c_goals e2.2 = goals1) as [Hname Hgoals].
  { by destruct Hw1 as [->|[-> _]]. }
  rewrite Hname, Hgoals in Hgoals2. rewrite Hname in Hw2.
  split; [congruence|]. exists goals2. split.
  - eapply Forall2_trans; [|done..]. intros ???. apply goal_step_trans.
  - destruct Hw1 as [H1|[H1 R1]], Hw2 as [H2|[H2 R2]]; rewrite H2, H1;
      [by left | by right | by right | by right].
Qed.

Section solver_trace_facts.
Context {Search : Type} `{!SearchEngine Search}.
Variable item_table : string → option ItemInfo.
Variable h : heap.
Variable hint_exclusions : nat → list string.
Variable reachable_goals : ValidGoals.
Variable all_locations : list Location.
Variable item_locations : list Location.
Variable always_locations : list string.
Variable search_woth : bool.

Section location.
Variable world_ids : list nat.
Variable valid_goals : ValidGoals.
Variable location : Location.
Variable old_item : option Item.

Local Abbreviation weights := (location_weights hint_exclusions always_locations location).

(** The worlds a location is stored for (lines 352 and 353). *)
Local Abbreviation wanted_for c g w :=
  (w ∈ world_ids
   ∧ (∃ re reachable,
        reachable_goals !! c = Some re ∧ vg_subscript re g = Ok reachable ∧ w ∈ reachable)
   ∧ (∃ ve valid, valid_goals !! c = Some ve ∧ vg_subscript ve g = Ok valid ∧ w ∉ valid)).

Lemma hintable_states_elem (valid reachable : list nat) (w : nat) :
  w ∈ hintable_states world_ids valid reachable ↔ w ∈ world_ids ∧ (w ∉ valid) ∧ w ∈ reachable.
Proof.
  unfold hintable_states.
  rewrite elem_of_elements, elem_of_intersection, elem_of_difference, !elem_of_list_to_set.
  tauto.
Qed.

Lemma credit_goal_trace cname rl prio goal rl' prio' goal' credited :
  credit_goal item_table h hint_exclusions reachable_goals always_locations world_ids
    valid_goals location old_item cname (rl, prio) goal = Ok (rl', prio', goal', credited) →
  rl_grows (λ c g w x, c = cname ∧ g = g_name goal ∧ x = weights ∧ wanted_for c g w)
    (λ k, k = cname ∧ credited = true) rl rl'
  ∧ ((credited = false ∧ rl' = rl ∧ prio' = prio ∧ goal' = goal)
     ∨ (credited = true ∧ goal' = set_g_weight 1 goal
        ∧ (∃ w, recorded rl' cname (g_name goal) w weights)
        ∧ ∃ claims, prio !! loc_world location = Some claims
            ∧ prio' = <[loc_world location := <[loc_name location := cname]> claims]> prio)).
Proof.
  unfold credit_goal. intros (eligible & Heligible & H)%bind_Ok.
  destruct eligible;
    [|injection H as <- <- <- <-; split; [apply rl_grows_refl | by left]].
  apply goal_eligible_true in Heligible as (_ & _ & [claims Hclaims] & _).
  apply bind_Ok in H as (ve & Hve%getitem_Ok & H). apply bind_Ok in H as (valid & Hvalid & H).
  apply bind_Ok in H as (re & Hre%getitem_Ok & H).
  apply bind_Ok in H as (reachable & Hreachable & H).
  case_bool_decide as Hstates;
    [|injection H as <- <- <- <-; split; [apply rl_grows_refl | by left]].
  apply bind_Ok in H as (rl1 & Hrl1 & H). apply bind_Ok in H as (claims' & Hclaims' & H).
  rewrite Hclaims in Hclaims'. injection Hclaims' as <-.
  injection H as <- <- <- <-.
  apply append_states_spec in Hrl1 as [Hgrows Hrec]. split.
  - eapply rl_grows_weaken; [| |exact Hgrows]; cbn beta.
    + intros c g w x (-> & -> & Hw%hintable_states_elem & ->).
      destruct Hw as (? & ? & ?). split_and!; try done; eauto 10.
    + by intros k [-> _].
  - right. split_and!; try done; [|eauto].
    destruct (hintable_states world_ids valid reachable) as [|w states] eqn:Hs; [done|].
    exists w. apply Hrec. by left.
Qed.

Lemma credit_goals_trace cname goals :
  ∀ rl prio rl' prio' goals' credited,
    credit_goals item_table h hint_exclusions reachable_goals always_locations world_ids
      valid_goals location old_item cname (rl, prio) goals = Ok (rl', prio', goals', credited) →
    rl_grows (λ c g w x, c = cname ∧ x = weights ∧ wanted_for c g w)
      (λ k, k = cname ∧ credited = true) rl rl'
    ∧ Forall2 (goal_step rl' cname) goals goals'
    ∧ ((credited = false ∧ rl' = rl ∧ prio' = prio ∧ goals' = goals)
       ∨ (credited = true ∧ (∃ g w, recorded rl' cname g w weights)
          ∧ ∃ claims, prio !! loc_world location = Some claims
              ∧ prio' = <[loc_world location := <[loc_name location := cname]> claims]> prio)).
Proof.
  induction goals as [|goal goals IH]; intros rl prio rl' prio' goals' credited; cbn [credit_goals].
  - intros [= <- <- <- <-]. split_and!; [apply rl_grows_refl | constructor | by left].
  - intros ([[[rl1 prio1] goal1] credited1] & H1 & H)%bind_Ok. cbn in H.
    apply bind_Ok in H as ([[[rl2 prio2] goals2] credited2] & H2 & H). cbn in H.
    injection H as <- <- <- <-.
    apply credit_goal_trace in H1 as (G1 & D1). apply IH in H2 as (G2 & F2 & D2).
    pose proof G2 as (M2 & _).
    split_and!.
    + eapply rl_grows_trans; (eapply rl_grows_weaken; [| |done]); cbn beta.
      * by intros c g w x (-> & -> & -> & ?).
      * intros k [-> ->]. done.
      * done.
      * intros k [-> ->]. split; [done | apply orb_true_r].
    + constructor; [|done].
      destruct D1 as [(_ & _ & _ & ->) | (_ & -> & (w & Hw) & _)]; [by left|].
      right. split; [done|]. exists w, weights. by apply M2.
    + destruct D1 as [(-> & -> & -> & ->) | (-> & -> & (w & Hw) & claims & Hclaims & ->)].
      * destruct D2 as [(-> & -> & -> & ->) | (-> & ? & ?)]; [by left | by right].
      * right. split; [done|]. split; [exists (g_name goal), w; by apply M2|].
        exists claims. split; [done|].
        destruct D2 as [(_ & _ & -> & _) | (_ & _ & claims1 & Hclaims1 & ->)]; [done|].
        rewrite lookup_insert_eq in Hclaims1. injection Hclaims1 as <-.
        by rewrite !insert_insert_eq.
Qed.

Lemma credit_category_trace rl prio entry rl' prio' entry' :
  credit_category item_table h hint_exclusions reachable_goals always_locations world_ids
    valid_goals location old_item (rl, prio) entry = Ok (rl', prio', entry') →
  rl_grows (λ c g w x, x = weights ∧ wanted_for c g w)
    (λ k, ∃ g w, recorded rl' k g w weights) rl rl'
  ∧ category_step rl' entry entry'
  ∧ ((rl' = rl ∧ prio' = prio ∧ entry' = entry)
     ∨ (∃ c g w claims,
          recorded rl' c g w weights ∧ prio !! loc_world location = Some claims
          ∧ prio' = <[loc_world location := <[loc_name location := c]> claims]> prio)).
Proof.
  unfold credit_category. destruct entry as [cat_name category].
  assert (Ok (rl, prio, (cat_name, category)) = Ok (rl', prio', entry') →
    rl_grows (λ c g w x, x = weights ∧ wanted_for c g w)
      (λ k, ∃ g w, recorded rl' k g w weights) rl rl'
    ∧ category_step rl' (cat_name, category) entry'
    ∧ ((rl' = rl ∧ prio' = prio ∧ entry' = (cat_name, category))
       ∨ (∃ c g w claims,
            recorded rl' c g w weights ∧ prio !! loc_world location = Some claims
            ∧ prio' = <[loc_world location := <[loc_name location := c]> claims]> prio)))
    as Hsame.
  { intros [= <- <- <-]. split_and!; [apply rl_grows_refl | apply category_step_refl | by left]. }
  destruct (reachable_goals !! c_name category) as [re|]; [|done].
  destruct (vg_true re); [|done].
  intros ([[[rl1 prio1] goals1] credited1] & H1 & H)%bind_Ok. cbn in H.
  injection H as <- <- <-.
  apply credit_goals_trace in H1 as (G & F & D). split_and!.
  - eapply rl_grows_weaken; [| |exact G]; cbn beta.
    + by intros c g w x (-> & -> & ?).
    + intros k [-> ->]. by destruct D as [(? & _) | (_ & ? & _)].
  - split; [done|]. exists goals1. split; [done|].
    destruct D as [(-> & _) | (-> & (g & w & Hw) & _)]; [by left|].
    right. split; [done|]. eauto.
  - destruct D as [(-> & -> & -> & ->) | (-> & (g & w & Hw) & claims & Hclaims & ->)].
    + left. by rewrite set_c_goals_id.
    + right. by exists (c_name category), g, w, claims.
Qed.

Lemma credit_categories_trace categories :
  ∀ rl prio rl' prio' categories',
    credit_categories item_table h hint_exclusions reachable_goals always_locations world_ids
      valid_goals location old_item (rl, prio) categories = Ok (rl', prio', categories') →
    rl_grows (λ c g w x, x = weights ∧ wanted_for c g w)
      (λ k, ∃ g w, recorded rl' k g w weights) rl rl'
    ∧ Forall2 (category_step rl') categories categories'
    ∧ (∀ L c, owner prio' L = Some c →
         owner prio L = Some c
         ∨ (loc_world L = loc_world location ∧ loc_name L = loc_name location
            ∧ ∃ g w, recorded rl' c g w weights))
    ∧ ((rl' = rl ∧ prio' = prio ∧ categories' = categories)
       ∨ ∃ c g w, recorded rl' c g w weights).
Proof.
  induction categories as [|entry categories IH]; intros rl prio rl' prio' categories';
    cbn [credit_categories].
  - intros [= <- <- <-]. split_and!; [apply rl_grows_refl | constructor | by left | by left].
  - intros ([[rl1 prio1] entry1] & H1 & H)%bind_Ok. cbn in H.
    apply bind_Ok in H as ([[rl2 prio2] categories2] & H2 & H). cbn in H.
    injection H as <- <- <-.
    apply credit_category_trace in H1 as (G1 & S1 & D1).
    apply IH in H2 as (G2 & F2 & O2 & D2).
    pose proof G2 as (M2 & _).
    split_and!.
    + eapply rl_grows_trans; (eapply rl_grows_weaken; [| |done]); cbn beta; try done.
      intros k (g & w & Hw). exists g, w. by apply M2.
    + constructor; [|done]. eapply category_step_mono; [|exact S1]. done.
    + intros L c [Hc | (Hw & Hn & g & w & Hrec)]%O2; [|right; eauto].
      destruct D1 as [(_ & -> & _) | (c1 & g & w & claims & Hrec & Hclaims & ->)]; [by left|].
      rewrite owner_claim in Hc by done.
      destruct (decide _) as [[Hw Hn]|]; [|by left].
      injection Hc as <-. right. split_and!; [done..|]. exists g, w. by apply M2.
    + destruct D1 as [(-> & -> & ->) | (c1 & g & w & claims & Hrec & _)].
      * destruct D2 as [(-> & -> & ->) | ?]; [by left | by right].
      * right. exists c1, g, w. by apply M2.
Qed.

Lemma credit_woth_list rl rl' :
  credit_woth search_woth valid_goals location rl = Ok rl' →
  ∀ l', rl' !! "way of the hero" = Some (RLList l') →
    ∃ l, rl !! "way of the hero" = Some (RLList l) ∧ (l' = l ∨ l' = l ++ [location]).
Proof.
  unfold credit_woth.
  assert (Ok rl = Ok rl' →
    ∀ l', rl' !! "way of the hero" = Some (RLList l') →
      ∃ l, rl !! "way of the hero" = Some (RLList l) ∧ (l' = l ∨ l' = l ++ [location]))
    as Hsame.
  { intros [= <-] l' Hl'. eauto. }
  destruct search_woth; [|exact Hsame].
  intros (woth & _ & H)%bind_Ok. destruct (negb (vg_true woth)); [|by apply Hsame].
  unfold append_woth in H. destruct (rl !! "way of the hero") as [[d|l]|] eqn:Hl; try done.
  injection H as <-. intros l'. rewrite lookup_insert_eq. intros [= <-]. eauto.
Qed.

End location.

Section loop.
Variable world_ids : list nat.
Variable prio0 : PriorityLocations.
Variable categories0 : list (string * GoalCategory).
Variable items0 : Location → option Item.

Local Abbreviation inv :=
  (solver_inv item_table h hint_exclusions all_locations always_locations search_woth
     prio0 categories0 items0).
Local Abbreviation trace :=
  (solver_trace h reachable_goals all_locations item_locations search_woth world_ids
     prio0 categories0 items0).
Local Abbreviation run_visit :=
  (visit item_table h hint_exclusions reachable_goals item_locations always_locations
     search_woth world_ids).

Lemma visit_trace st location search st' :
  inv st → trace st →
  run_visit (yield st location search) location = Ok st' →
  trace st'.
Proof.
  intros [_ _ _ _ _ Hitems _ _] [Hrec Hkeys Hwoth Hlocs Hcats Hclaims Hsame].
  unfold visit. intros (st1 & H1 & H)%bind_Ok.
  apply bind_Ok in H as (remaining & Hrem & H).
  apply bind_Ok in H as (item & _ & H). apply bind_Ok in H as (search' & _ & H).
  injection H as <-.
  apply list_remove_perm in Hrem.
  assert ((∀ c g w x, recorded (sv_required st1) c g w x →
             x.1.1 ∈ item_locations
             ∧ hintable h reachable_goals world_ids items0 c g w x.1.1)
          ∧ (∀ k, is_Some (sv_required st1 !! k) →
               (k = "way of the hero" ∧ search_woth = true)
               ∨ ∃ g w x, recorded (sv_required st1) k g w x)
          ∧ (∀ l, sv_required st1 !! "way of the hero" = Some (RLList l) →
               sublist l (filter (λ L, L ∈ item_locations) (sv_yielded st ++ [location])))
          ∧ Forall2 (category_step (sv_required st1)) categories0 (sv_categories st1)
          ∧ (∀ L c, owner (sv_priority st1) L = Some c →
               owner prio0 L = Some c
               ∨ ∃ g w x, recorded (sv_required st1) c g w x
                   ∧ loc_world x.1.1 = loc_world L ∧ loc_name x.1.1 = loc_name L)
          ∧ ((∀ c g w x, ¬ recorded (sv_required st1) c g w x) → sv_priority st1 = prio0)
          ∧ sv_remaining st1 = sv_remaining st
          ∧ sv_yielded st1 = sv_yielded st ++ [location])
    as (Hrec1 & Hkeys1 & Hwoth1 & Hcats1 & Hclaims1 & Hsame1 & Hr1 & Hy1).
  { case_bool_decide as Hin.
    - cbn in H1. apply bind_Ok in H1 as ([[rl1 prio1] cats1] & Hcredit & H1). cbn in H1.
      apply bind_Ok in H1 as (rl2 & Hcw & H1). injection H1 as <-. cbn.
      apply credit_categories_trace in Hcredit as (Hgrows & Hsteps & Howners & Hdiff).
      destruct Hgrows as (GA & GB & GC & GD).
      pose proof (credit_woth_list _ _ _ _ Hcw) as WL.
      apply credit_woth_spec in Hcw as (WA & WB & _ & _).
      assert (∀ c g w x, recorded (sv_required st) c g w x → recorded rl2 c g w x) as Hmono.
      { intros c g w x Hx. apply WA. by apply GA. }
      split_and!; try done.
      + intros c g w x Hx. apply WA in Hx. destruct (GB _ _ _ _ Hx) as [Hold|Hnew];
          [by apply Hrec|].
        destruct Hnew as (-> & Hw & Hreach & ve & valid & Hve & Hvalid & Hnot).
        rewrite !location_weights_location. split; [done|]. split_and!; [done..|].
        eexists _, _, _, ve, valid. split_and!; [|exact Hve|done..].
        intros L. destruct (decide (L = location)) as [->|Hne].
        * by rewrite fn_lookup_insert.
        * rewrite fn_lookup_insert_ne by done. apply Hitems.
      + intros k Hk. apply WB in Hk.
        destruct (sv_required st !! k) as [e|] eqn:He.
        * destruct (Hkeys k) as [?|(g & w & x & Hx)]; [by rewrite He | by left|].
          right. eauto.
        * destruct (GD k He) as [Hnone|(g & w & Hx)]; [rewrite Hnone in Hk; by destruct Hk|].
          right. exists g, w. eexists. by apply WA.
      + intros l' Hl'. destruct (WL _ Hl') as (l & Hl & Hor). apply GC in Hl.
        apply Hwoth in Hl. rewrite filter_app.
        destruct Hor as [->| ->]; [by apply sublist_inserts_r|].
        apply sublist_app; [done|]. by rewrite filter_cons_True.
      + eapply Forall2_trans; [| |exact Hsteps].
        * intros e1 e2 e3 H12 H23. eapply (category_step_trans rl2); [exact H12|].
          eapply category_step_mono; [|exact H23]. intros c g w x. apply WA.
        * eapply Forall2_impl; [exact Hcats|]. intros e e'. by apply category_step_mono.
      + intros L c [Hc | (Hw & Hn & g & w & Hx)]%Howners.
        * destruct (Hclaims L c Hc) as [?|(g & w & x & Hx & ? & ?)]; [by left|].
          right. exists g, w, x. split; [by apply Hmono | done].
        * right. exists g, w. eexists. split; [by apply WA|].
          by rewrite !location_weights_location.
      + intros Hnone. destruct Hdiff as [(_ & -> & _) | (c & g & w & Hx)].
        * apply Hsame. intros c g w x Hx. by eapply Hnone, Hmono.
        * destruct (Hnone c g w _ (proj2 (WA _ _ _ _) Hx)).
    - injection H1 as <-. cbn. split_and!; try done.
      intros l Hl. rewrite filter_app. apply sublist_inserts_r. by apply Hwoth. }
  split; cbn; try done.
  - by rewrite Hy1.
  - rewrite Hy1, Hr1 in *. rewrite <-Hlocs, Hrem, <-app_assoc. done.
Qed.

Lemma search_loop_trace fuel :
  ∀ st r,
    inv st → trace st →
    search_loop item_table h hint_exclusions reachable_goals all_locations item_locations
      always_locations search_woth world_ids fuel st = Some (Ok r) →
    ∃ last, inv last ∧ trace last ∧ r = finish last.
Proof.
  induction fuel as [|fuel IH]; intros st r Hinv Htrace; cbn [search_loop];
    (destruct (iter_reachable_locations _ _ _) as [[location search]|];
     [|intros [= <-]; eauto]);
    destruct (visit _ _ _ _ _ _ _ _ _ _) as [st'|e] eqn:Hvisit; try done.
  pose proof (visit_trace _ _ _ _ Hinv Htrace Hvisit) as Htrace'.
  eapply visit_inv in Hvisit; [|exact Hinv]. by apply IH.
Qed.

End loop.

Lemma search_goals_trace categories search prio items st :
  search_goals item_table h hint_exclusions reachable_goals all_locations item_locations
    always_locations search_woth categories search prio items = Some (Ok st) →
  ∃ last,
    solver_inv item_table h hint_exclusions all_locations always_locations search_woth
      prio categories items last
    ∧ solver_trace h reachable_goals all_locations item_locations search_woth
        (state_world_ids search) prio categories items last
    ∧ st = finish last.
Proof.
  unfold search_goals. apply search_loop_trace.
  - split; cbn; try done.
    + intros c g w x (d & ws & l & Hd & _). destruct search_woth.
      * apply lookup_singleton_Some in Hd as [_ [=]].
      * by rewrite lookup_empty in Hd.
    + intros k [e He]. destruct search_woth.
      * apply lookup_singleton_Some in He as [<- _]. by left.
      * by rewrite lookup_empty in He.
    + destruct search_woth.
      * exists []. split; [by rewrite lookup_singleton_eq|]. intros L HL.
        by apply elem_of_nil in HL.
      * intros k l. by rewrite lookup_empty.
    + apply owner_mono_refl.
    + apply Forall2_category_le_refl.
    + auto.
  - split; cbn; try done.
    + intros c g w x (d & ws & l & Hd & _). destruct search_woth.
      * apply lookup_singleton_Some in Hd as [_ [=]].
      * by rewrite lookup_empty in Hd.
    + intros k [e He]. destruct search_woth.
      * apply lookup_singleton_Some in He as [<- _]. by left.
      * by rewrite lookup_empty in He.
    + intros l Hl. destruct search_woth.
      * apply lookup_singleton_Some in Hl as [_ [= <-]]. apply sublist_nil_l.
      * by rewrite lookup_empty in Hl.
    + apply Forall_Forall2_diag, Forall_forall. intros e _. apply category_step_refl.
    + auto.
Qed.

End solver_trace_facts.

(** ** The first category to take a location *)

Lemma vg_subscript_contains (e : vg_entry) (k : string) (l : list nat) :
  vg_subscript e k = Ok l → vg_contains e k = Ok true.
Proof.
  destruct e as [d|b]; [|done]. cbn. intros Hl%getitem_Ok.
  by rewrite Hl, bool_decide_true.
Qed.

Section first_claim.
Variable item_table : string → option ItemInfo.
Variable h : heap.
Variable hint_exclusions : nat → list string.
Variable reachable_goals : ValidGoals.
Variable always_locations : list string.
Variable world_ids : list nat.
Variable valid_goals : ValidGoals.
Variable location : Location.
Variable old_item : option Item.

Local Abbreviation weights := (location_weights hint_exclusions always_locations location).
Local Abbreviation claims_goal :=
  (goal_claims item_table h reachable_goals valid_goals world_ids old_item).
Local Abbreviation claims :=
  (can_claim item_table h reachable_goals valid_goals world_ids old_item).
Local Abbreviation run_goal :=
  (credit_goal item_table h hint_exclusions reachable_goals always_locations world_ids
     valid_goals location old_item).
Local Abbreviation run_goals :=
  (credit_goals item_table h hint_exclusions reachable_goals always_locations world_ids
     valid_goals location old_item).
Local Abbreviation run_category :=
  (credit_category item_table h hint_exclusions reachable_goals always_locations world_ids
     valid_goals location old_item).
Local Abbreviation run_categories :=
  (credit_categories item_table h hint_exclusions reachable_goals always_locations world_ids
     valid_goals location old_item).

(** A goal the location is credited to could take it. *)
Lemma credit_goal_credited cname rl prio goal rl' prio' goal' :
  run_goal cname (rl, prio) goal = Ok (rl', prio', goal', true) →
  ∃ w, claims_goal cname goal w.
Proof.
  unfold credit_goal. intros (eligible & Heligible & H)%bind_Ok.
  destruct eligible; [|done].
  apply goal_eligible_true in Heligible as (_ & _ & _ & i & Hi & Hreq).
  apply bind_Ok in H as (ve & Hve%getitem_Ok & H).
  apply bind_Ok in H as (valid & Hvalid & H).
  apply bind_Ok in H as (re & Hre%getitem_Ok & H).
  apply bind_Ok in H as (reachable & Hreachable & H).
  case_bool_decide as Hstates; [|done].
  destruct (hintable_states world_ids valid reachable) as [|w states] eqn:Hs; [done|].
  assert (w ∈ hintable_states world_ids valid reachable) as Hw by (rewrite Hs; by left).
  apply (hintable_states_elem hint_exclusions) in Hw as (? & ? & ?).
  exists w, ve, valid, re, reachable, i. done.
Qed.

(** A goal that can take a location nobody else has claimed takes it. *)
Lemma credit_goal_claims cname rl prio goal rl' prio' goal' credited w :
  owner prio location = None ∨ owner prio location = Some cname →
  claims_goal cname goal w →
  run_goal cname (rl, prio) goal = Ok (rl', prio', goal', credited) →
  recorded rl' cname (g_name goal) w weights ∧ owner prio' location = Some cname.
Proof.
  intros Hown (ve & valid & re & reachable & item & Hve & Hvalid & Hre & Hreachable
               & Hitem & Hreq & Hw).
  unfold credit_goal. intros (eligible & Heligible & H)%bind_Ok.
  assert (eligible = true) as ->.
  { unfold goal_eligible in Heligible.
    rewrite Hve, (vg_subscript_contains _ _ _ Hvalid), Ok_bind in Heligible.
    cbn [negb] in Heligible.
    rewrite Hre in Heligible. cbn [getitem] in Heligible. rewrite Ok_bind in Heligible.
    rewrite (vg_subscript_contains _ _ _ Hreachable), Ok_bind in Heligible.
    cbn [negb] in Heligible.
    apply bind_Ok in Heligible as (claims' & Hclaims%getitem_Ok & Heligible).
    assert (bool_decide (claims' !! loc_name location = None)
            || bool_decide (claims' !! loc_name location = Some cname) = true) as Hfree.
    { unfold owner in Hown. rewrite Hclaims in Hown. cbn in Hown.
      apply orb_true_iff. destruct Hown as [Hown|Hown]; [left | right];
        by apply bool_decide_eq_true. }
    rewrite Hfree, Hitem in Heligible. cbn [negb] in Heligible.
    rewrite Ok_bind, Hreq, Ok_bind in Heligible. by injection Heligible as <-. }
  rewrite Hve in H. cbn [getitem] in H. rewrite Ok_bind, Hvalid, Ok_bind in H.
  rewrite Hre in H. cbn [getitem] in H. rewrite Ok_bind, Hreachable, Ok_bind in H.
  assert (w ∈ hintable_states world_ids valid reachable) as Hstates
    by (by apply (hintable_states_elem hint_exclusions)).
  rewrite bool_decide_true in H by (intros Hnil; rewrite Hnil in Hstates; by apply elem_of_nil in Hstates).
  apply bind_Ok in H as (rl1 & Hrl1 & H).
  apply bind_Ok in H as (claims' & Hclaims%getitem_Ok & H).
  injection H as <- <- <- <-. apply append_states_spec in Hrl1 as [_ Hrec].
  split; [by apply Hrec|]. rewrite owner_claim by done. by rewrite decide_True.
Qed.

Lemma credit_goals_cases cname goals :
  ∀ rl prio rl' prio' goals' credited,
    run_goals cname (rl, prio) goals = Ok (rl', prio', goals', credited) →
    (rl' = rl ∧ prio' = prio) ∨ ∃ goal w, goal ∈ goals ∧ claims_goal cname goal w.
Proof.
  induction goals as [|goal goals IH]; intros rl prio rl' prio' goals' credited;
    cbn [credit_goals].
  - intros [= <- <- <- <-]. by left.
  - intros ([[[rl1 prio1] goal1] credited1] & H1 & H)%bind_Ok. cbn in H.
    apply bind_Ok in H as ([[[rl2 prio2] goals2] credited2] & H2 & H). cbn in H.
    injection H as <- <- <- <-.
    destruct credited1.
    + right. apply credit_goal_credited in H1 as [w Hw]. exists goal, w.
      split; [by left | done].
    + apply credit_goal_spec in H1 as (_ & _ & _ & Hsame & _).
      destruct (Hsame eq_refl) as (-> & -> & _).
      apply IH in H2 as [?|(goal' & w & ? & ?)]; [by left|].
      right. exists goal', w. split; [by right | done].
Qed.

Lemma credit_goals_claims cname goals goal w :
  ∀ rl prio rl' prio' goals' credited,
    owner prio location = None ∨ owner prio location = Some cname →
    goal ∈ goals → claims_goal cname goal w →
    run_goals cname (rl, prio) goals = Ok (rl', prio', goals', credited) →
    recorded rl' cname (g_name goal) w weights ∧ owner prio' location = Some cname.
Proof.
  induction goals as [|goal0 goals IH]; intros rl prio rl' prio' goals' credited Hown Hgoal Hw;
    cbn [credit_goals]; [by apply elem_of_nil in Hgoal|].
  intros ([[[rl1 prio1] goal1] credited1] & H1 & H)%bind_Ok. cbn in H.
  apply bind_Ok in H as ([[[rl2 prio2] goals2] credited2] & H2 & H). cbn in H.
  injection H as <- <- <- <-.
  apply elem_of_cons in Hgoal as [->|Hgoal].
  - destruct (credit_goal_claims _ _ _ _ _ _ _ _ _ Hown Hw H1) as [Hrec Hnow].
    apply credit_goals_spec in H2 as (Hmono & _ & Hgrows & _).
    split; [by apply Hgrows | by apply Hmono].
  - eapply IH; [|done..].
    apply credit_goal_spec in H1 as (_ & _ & _ & Hsame & Hcredited).
    destruct credited1.
    + right. by destruct (Hcredited eq_refl) as [[? _] _].
    + by destruct (Hsame eq_refl) as (_ & -> & _).
Qed.

(** A category leaves the two dictionaries alone, or one of its goals could
    take the location. *)
Lemma credit_category_cases rl prio entry rl' prio' entry' :
  run_category (rl, prio) entry = Ok (rl', prio', entry') →
  (rl' = rl ∧ prio' = prio) ∨ ∃ goal w, claims entry goal w.
Proof.
  unfold credit_category. destruct entry as [cat_name category].
  destruct (reachable_goals !! c_name category) as [re|] eqn:Hre;
    [|intros [= <- <- <-]; by left].
  destruct (vg_true re) eqn:Htrue; [|intros [= <- <- <-]; by left].
  intros ([[[rl1 prio1] goals1] credited1] & H1 & H)%bind_Ok. cbn in H.
  injection H as <- <- <-.
  apply credit_goals_cases in H1 as [?|(goal & w & Hgoal & Hw)]; [by left|].
  right. exists goal, w. split_and!; [done | by exists re | done].
Qed.

(** A category that can take a location nobody else has claimed takes
    it. *)
Lemma credit_category_claims rl prio entry rl' prio' entry' goal w :
  owner prio location = None ∨ owner prio location = Some (c_name entry.2) →
  claims entry goal w →
  run_category (rl, prio) entry = Ok (rl', prio', entry') →
  recorded rl' (c_name entry.2) (g_name goal) w weights
  ∧ owner prio' location = Some (c_name entry.2).
Proof.
  intros Hown (Hgoal & (re & Hre & Htrue) & Hw).
  unfold credit_category. destruct entry as [cat_name category]. cbn [snd] in *.
  rewrite Hre, Htrue.
  intros ([[[rl1 prio1] goals1] credited1] & H1 & H)%bind_Ok. cbn in H.
  injection H as <- <- <-. by eapply credit_goals_claims.
Qed.

(** Once the location is claimed, the categories that follow store it under
    the claimant's name only. *)
Lemma credit_categories_claimed categories rl prio rl' prio' categories' c :
  owner prio location = Some c →
  run_categories (rl, prio) categories = Ok (rl', prio', categories') →
  (∀ c0 g w x, recorded rl c0 g w x → recorded rl' c0 g w x)
  ∧ owner prio' location = Some c
  ∧ ∀ c0 g w x, recorded rl' c0 g w x → recorded rl c0 g w x ∨ c0 = c.
Proof.
  intros Hown (Hmono & _ & Hold & Hnew & _)%credit_categories_spec.
  split_and!; [done | by apply Hmono|].
  intros c0 g w x Hx. destruct (Hnew _ _ _ _ Hx) as [?|(_ & [_ Hbefore] & _)]; [by left|].
  right. destruct Hbefore; congruence.
Qed.

(** The first category of the list that can take an unclaimed location
    takes it, and the location is stored under no other name. *)
Lemma credit_categories_first categories :
  ∀ k rl prio rl' prio' categories' A goal w,
    run_categories (rl, prio) categories = Ok (rl', prio', categories') →
    owner prio location = None →
    categories !! k = Some A → claims A goal w →
    (∀ j B g' w', j < k → categories !! j = Some B → ¬ claims B g' w') →
    recorded rl' (c_name A.2) (g_name goal) w weights
    ∧ owner prio' location = Some (c_name A.2)
    ∧ ∀ c g' w' x, recorded rl' c g' w' x → recorded rl c g' w' x ∨ c = c_name A.2.
Proof.
  induction categories as [|entry categories IH];
    intros k rl prio rl' prio' categories' A goal w; cbn [credit_categories]; [done|].
  intros ([[rl1 prio1] entry1] & H1 & H)%bind_Ok Hown HA Hclaims Hfirst. cbn in H.
  apply bind_Ok in H as ([[rl2 prio2] categories2] & H2 & H). cbn in H.
  injection H as <- <- <-.
  destruct k as [|k].
  - injection HA as ->.
    destruct (credit_category_claims _ _ _ _ _ _ _ _ (or_introl Hown) Hclaims H1)
      as [Hrec Hnow].
    destruct (credit_categories_claimed _ _ _ _ _ _ _ Hnow H2) as (Hmono & Hthen & Hnew).
    split_and!; [by apply Hmono | done|].
    intros c g' w' x Hx. destruct (Hnew _ _ _ _ Hx) as [Hx1|?]; [|by right].
    apply credit_category_spec in H1 as (_ & _ & _ & Hnew1 & _).
    destruct (Hnew1 _ _ _ _ Hx1) as [?|(_ & [Hc _] & _)]; [by left|].
    right. congruence.
  - destruct (credit_category_cases _ _ _ _ _ _ H1) as [[-> ->]|(g' & w' & Hentry)].
    + eapply IH; [done..|]. intros j B g' w' Hj HB. apply (Hfirst (S j)); [lia | done].
    + destruct (Hfirst 0 entry g' w'); [lia | done..].
Qed.

(** With the categories in the order of their priorities, the category of
    least priority among those that can take an unclaimed location takes
    it. *)
Lemma credit_categories_least categories :
  ∀ rl prio rl' prio' categories' A goal w,
    run_categories (rl, prio) categories = Ok (rl', prio', categories') →
    owner prio location = None →
    by_priority categories →
    A ∈ categories → claims A goal w →
    (∀ B g' w', B ∈ categories → claims B g' w' →
       B = A ∨ (c_priority A.2 < c_priority B.2)%Z) →
    recorded rl' (c_name A.2) (g_name goal) w weights
    ∧ owner prio' location = Some (c_name A.2)
    ∧ ∀ c g' w' x, recorded rl' c g' w' x → recorded rl c g' w' x ∨ c = c_name A.2.
Proof.
  induction categories as [|entry categories IH];
    intros rl prio rl' prio' categories' A goal w; cbn [credit_categories];
    [intros _ _ _ HA; by apply elem_of_nil in HA|].
  intros ([[rl1 prio1] entry1] & H1 & H)%bind_Ok Hown Hsorted HA Hclaims Hleast. cbn in H.
  apply bind_Ok in H as ([[rl2 prio2] categories2] & H2 & H). cbn in H.
  injection H as <- <- <-.
  assert (entry = A →
          recorded rl2 (c_name A.2) (g_name goal) w weights
          ∧ owner prio2 location = Some (c_name A.2)
          ∧ ∀ c g' w' x, recorded rl2 c g' w' x → recorded rl c g' w' x ∨ c = c_name A.2)
    as Hhead.
  { intros ->.
    destruct (credit_category_claims _ _ _ _ _ _ _ _ (or_introl Hown) Hclaims H1)
      as [Hrec Hnow].
    destruct (credit_categories_claimed _ _ _ _ _ _ _ Hnow H2) as (Hmono & Hthen & Hnew).
    split_and!; [by apply Hmono | done|].
    intros c g' w' x Hx. destruct (Hnew _ _ _ _ Hx) as [Hx1|?]; [|by right].
    apply credit_category_spec in H1 as (_ & _ & _ & Hnew1 & _).
    destruct (Hnew1 _ _ _ _ Hx1) as [?|(_ & [Hc _] & _)]; [by left|].
    right. congruence. }
  destruct (credit_category_cases _ _ _ _ _ _ H1) as [[-> ->]|(g' & w' & Hentry)].
  - apply elem_of_cons in HA as [->|HA].
    + destruct (credit_category_claims _ _ _ _ _ _ _ _ (or_introl Hown) Hclaims H1)
        as [_ Hnow]. congruence.
    + eapply IH; [done..| |done|done|].
      * intros j k e1 e2 Hjk Hj Hk. apply (Hsorted (S j) (S k)); [lia | done..].
      * intros B g' w' HB. apply Hleast. by right.
  - apply Hhead. destruct (Hleast entry g' w') as [?|Hlt]; [by left | done..|].
    apply elem_of_cons in HA as [->|[k Hk]%list_elem_of_lookup]; [done|].
    pose proof (Hsorted 0 (S k) entry A) as Hle. cbn in Hle.
    specialize (Hle ltac:(lia) eq_refl Hk). lia.
Qed.

End first_claim.

Section solver_claims.
Context {Search : Type} `{!SearchEngine Search}.
Variable item_table : string → option ItemInfo.
Variable h : heap.
Variable hint_exclusions : nat → list string.
Variable reachable_goals : ValidGoals.
Variable all_locations : list Location.
Variable item_locations : list Location.
Variable always_locations : list string.
Variable search_woth : bool.

Local Abbreviation run :=
  (search_goals item_table h hint_exclusions reachable_goals all_locations item_locations
     always_locations search_woth).


(** C5. When [search_goals] returns, a location of [all_locations] the
    generator never yielded is in no stored tuple and not in the way of the
    hero; it is still in [remaining_locations], and
    [maybe_set_misc_hints] was called on the yielded locations and then on
    the remaining ones, this location among them. *)
Theorem search_goals_unreached_locations categories search prio items st :
  run categories search prio items = Some (Ok st) →
  ∀ L, L ∈ all_locations → L ∉ sv_yielded st →
    (∀ c g w x, recorded (sv_required st) c g w x → x.1.1 ≠ L)
    ∧ (∀ l, sv_required st !! "way of the hero" = Some (RLList l) → L ∉ l)
    ∧ L ∈ sv_remaining st
    ∧ sv_misc_hints st = sv_yielded st ++ sv_remaining st
    ∧ L ∈ sv_misc_hints st.
Proof.
  intros (last & [Hrec _ Hwoth _ _ _ Hmisc Hremaining] & ->)%search_goals_inv L HL Hny.
  cbn in *.
  assert (L ∈ sv_remaining last) as Hrem by (by destruct (Hremaining L HL)).
  split_and!.
  - intros c g w x Hx <-. by destruct (Hrec _ _ _ _ Hx) as (_ & ? & _).
  - intros l Hl Hin. destruct search_woth; [|by eapply Hwoth].
    destruct Hwoth as (l' & Hl' & Hsub). rewrite Hl in Hl'. injection Hl' as <-. auto.
  - done.
  - by rewrite Hmisc.
  - apply elem_of_app. by right.
Qed.

(** C6. When [search_goals] returns, the weights of every stored tuple
    are 0 and 0 if the name of the location is in [always_locations] or in
    the hint exclusions of the location's world, and 1 and 1 otherwise; and
    the categories hold a category of that name with weight 1 and in it a
    goal of that name with weight 1. *)
Theorem search_goals_weights categories search prio items st :
  run categories search prio items = Some (Ok st) →
  ∀ c g w L a b, recorded (sv_required st) c g w (L, a, b) →
    (a, b) = (if bool_decide (loc_name L ∈ always_locations
                              ∨ loc_name L ∈ hint_exclusions (loc_world L))
              then (0, 0) else (1, 1))%Z
    ∧ ∃ e goal, e ∈ sv_categories st ∧ c_name e.2 = c ∧ c_weight e.2 = 1%Z
        ∧ goal ∈ c_goals e.2 ∧ g_name goal = g ∧ g_weight goal = 1%Z.
Proof.
  intros (last & [Hrec _ _ _ _ _ _ _] & ->)%search_goals_inv c g w L a b Hx.
  destruct (Hrec _ _ _ _ Hx) as (Hweights & _ & _ & e & He & Hc & Hw & goal & i & Hgoal).
  cbn in *. split.
  - unfold location_weights in Hweights.
    destruct (bool_decide (loc_name L ∈ always_locations)) eqn:H1;
      destruct (bool_decide (loc_name L ∈ hint_exclusions (loc_world L))) eqn:H2;
      cbn in Hweights; injection Hweights as -> ->;
      try apply bool_decide_eq_true in H1; try apply bool_decide_eq_true in H2;
      try apply bool_decide_eq_false in H1; try apply bool_decide_eq_false in H2.
    + rewrite bool_decide_eq_true_2; [done | by left].
    + rewrite bool_decide_eq_true_2; [done | by left].
    + rewrite bool_decide_eq_true_2; [done | by right].
    + rewrite bool_decide_eq_false_2; [done | by intros [?|?]].
  - destruct Hgoal as (Hgoal & Hg & Hgw & _). by exists e, goal.
Qed.

(** C7. [Goal.requires] returns true exactly when the item is in the item
    table and one of the goal's item dictionaries is not hintable and
    carries the item's name or the name its table entry gives as alias. And
    when [search_goals] returns, a location whose item is required by
    every goal of that name in every category of that name is stored under
    no world for that category and goal, whatever the engine said about the
    goal without the item. *)
Theorem search_goals_skips_required_items categories search prio items :
  (∀ goal item,
     Goal_requires item_table h goal item = Ok true ↔
     ∃ info i, item_table item = Some info ∧ i ∈ items_at h (g_items goal)
       ∧ gi_hintable i = false
       ∧ (gi_name i = item
          ∨ ∃ sp alias count, it_special info = Some sp ∧ sp_alias sp = Some (alias, count)
              ∧ gi_name i = alias))
  ∧ (∀ st, run categories search prio items = Some (Ok st) →
     ∀ c g L i, items L = Some i →
       (∀ e goal, e ∈ categories → c_name e.2 = c → goal ∈ c_goals e.2 → g_name goal = g →
          Goal_requires item_table h goal (item_name i) = Ok true) →
       ∀ w a b, ¬ recorded (sv_required st) c g w (L, a, b)).
Proof.
  split.
  - intros goal item. unfold Goal_requires.
    destruct (item_table item) as [info|]; cbn; [|split; [done | by intros (? & ? & [=] & _)]].
    split.
    + intros [= Hex]. apply existsb_exists in Hex as (i & Hi & Hb).
      apply andb_true_iff in Hb as [Hname Hhint]. apply bool_decide_eq_true in Hname.
      apply negb_true_iff in Hhint. exists info, i.
      split_and!; [done | by apply list_elem_of_In | done |].
      unfold required_names in Hname. apply elem_of_cons in Hname as [?|Hname]; [by left|].
      right. destruct (it_special info) as [sp|]; [|by apply elem_of_nil in Hname].
      destruct (sp_alias sp) as [[alias count]|] eqn:Halias; [|by apply elem_of_nil in Hname].
      apply list_elem_of_singleton in Hname. by exists sp, alias, count.
    + intros (? & i & [= <-] & Hi & Hhint & Hname). f_equal.
      apply existsb_exists. exists i. split; [by apply list_elem_of_In|].
      apply andb_true_iff. split; [|by rewrite Hhint].
      apply bool_decide_eq_true. unfold required_names.
      destruct Hname as [->|(sp & alias & count & -> & -> & ->)]; [by left|].
      right. by left.
  - intros st (last & [Hrec _ _ _ Hcats Hitems _ _] & ->)%search_goals_inv c g L i Hi Hall
      w a b Hx.
    destruct (Hrec _ _ _ _ Hx) as (_ & _ & _ & e' & He' & Hc & _ & goal' & i' & Hgoal' & Hg & _
                                   & Hi' & Hreq).
    cbn in *. rewrite Hi in Hi'. injection Hi' as <-.
    apply list_elem_of_lookup in He' as [k He'].
    destruct (Forall2_lookup_r _ _ _ _ _ Hcats He') as (e & He & _ & Hname & _ & Hgoals).
    apply list_elem_of_lookup in Hgoal' as [j Hgoal'].
    destruct (Forall2_lookup_r _ _ _ _ _ Hgoals Hgoal') as (goal & Hgoal & Hgn & Hgi & _).
    rewrite (Goal_requires_items _ _ goal) in Hreq by done.
    rewrite (Hall e goal) in Hreq; [done|by eapply list_elem_of_lookup_2|congruence
                                    |by eapply list_elem_of_lookup_2|congruence].
Qed.

(** C10. With an engine whose [beatable_goals] always binds
    ['way of the hero'] to a truth value, or with categories none of which
    is named ['way of the hero']: the dictionary [search_goals] returns has
    the key ['way of the hero'] exactly when [search_woth] is true; it then
    holds a flat list of locations, and reading and deleting it (lines 247
    to 249) does not fail and yields that list. *)
Theorem search_goals_way_of_the_hero_key categories search prio items st :
  (∀ items categories search,
     ∃ b, beatable_goals h items categories search !! "way of the hero" = Some (VFlag b))
  ∨ (∀ e, e ∈ categories → c_name e.2 ≠ "way of the hero") →
  run categories search prio items = Some (Ok st) →
  (is_Some (sv_required st !! "way of the hero") ↔ search_woth = true)
  ∧ (search_woth = true →
     ∃ l, sv_required st !! "way of the hero" = Some (RLList l)
       ∧ ∀ required_locations,
           take_way_of_the_hero required_locations (sv_required st)
           = Ok (l, delete "way of the hero" (sv_required st ∪ required_locations))).
Proof.
  intros Hflag (last & [_ Hkeys Hwoth _ _ _ _ _] & ->)%search_goals_inv. cbn. split.
  - split.
    + intros [[_ ?]|[(items' & cats' & search' & d & Hd) (e & He & Hname)]]%Hkeys; [done|].
      destruct Hflag as [Hflag|Hnames]; [|by destruct (Hnames e He)].
      destruct (Hflag items' cats' search') as [b Hb]. congruence.
    + intros Heq. rewrite Heq in Hwoth. destruct Hwoth as (l & -> & _). eauto.
  - intros Heq. rewrite Heq in Hwoth. destruct Hwoth as (l & Hl & _). exists l.
    split; [done|]. intros required_locations. unfold take_way_of_the_hero.
    by rewrite (lookup_union_Some_l _ _ _ _ Hl).
Qed.

End solver_claims.

(** ** Further properties of [search_goals] *)

Section solver_more.
Context {Search : Type} `{!SearchEngine Search}.
Variable item_table : string → option ItemInfo.
Variable h : heap.
Variable hint_exclusions : nat → list string.
Variable reachable_goals : ValidGoals.
Variable all_locations : list Location.
Variable item_locations : list Location.
Variable always_locations : list string.
Variable search_woth : bool.

Local Abbreviation run :=
  (search_goals item_table h hint_exclusions reachable_goals all_locations item_locations
     always_locations search_woth).

(** X2. When [search_goals] returns, every location holds the item it held
    when the search began: each item taken off for the test of line 341 is
    put back. *)
Theorem search_goals_restores_items categories search prio items st :
  search_goals item_table h hint_exclusions reachable_goals all_locations item_locations
    always_locations search_woth categories search prio items = Some (Ok st) →
  ∀ L, sv_items st L = items L.
Proof. by intros (last & [_ _ _ _ _ Hitems _ _] & ->)%search_goals_inv. Qed.

(** X3. When [search_goals] returns, [maybe_set_misc_hints] was called once
    for every entry of [all_locations]: the locations it was called on are
    those of [all_locations], each as often as it is listed there. The
    locations the generator yielded and those left over are together those
    of [all_locations], so that a yielded location is one of
    [all_locations] and, when [all_locations] lists no location twice, is
    yielded once. *)
Theorem search_goals_marks_every_location categories search prio items st :
  search_goals item_table h hint_exclusions reachable_goals all_locations item_locations
    always_locations search_woth categories search prio items = Some (Ok st) →
  sv_misc_hints st ≡ₚ all_locations
  ∧ sv_yielded st ++ sv_remaining st ≡ₚ all_locations
  ∧ (∀ L, L ∈ sv_yielded st → L ∈ all_locations)
  ∧ (NoDup all_locations → NoDup (sv_yielded st)).
Proof.
  intros (last & [_ _ _ _ _ _ Hmisc _] & [_ _ _ Hlocs _ _ _] & ->)%search_goals_trace.
  cbn. rewrite Hmisc. split_and!; [done..| |].
  - intros L HL. rewrite <-Hlocs. apply elem_of_app. by left.
  - rewrite <-Hlocs. by intros [? _]%NoDup_app.
Qed.

(** X4. A location the generator yields that is not, or no longer, in
    [remaining_locations] (one that is not in [all_locations], or was
    yielded before as often as it is listed) makes the loop raise; the
    exception is the [ValueError] of [remaining_locations.remove] when the
    location is not one of [item_locations]. *)
Theorem search_goals_rejects_unlisted_location world_ids fuel (st : solver Search)
    location search :
  iter_reachable_locations all_locations (sv_items st) (sv_search st)
  = Some (location, search) →
  location ∉ sv_remaining st →
  ∃ e, search_loop item_table h hint_exclusions reachable_goals all_locations item_locations
         always_locations search_woth world_ids fuel st = Some (Raise e)
       ∧ (location ∉ item_locations → e = ValueError).
Proof.
  intros Hyield Hnot.
  assert (∃ e, visit item_table h hint_exclusions reachable_goals item_locations
                 always_locations search_woth world_ids (yield st location search) location
               = Raise e
               ∧ (location ∉ item_locations → e = ValueError)) as (e & Hvisit & He).
  { unfold visit. case_bool_decide as Hin.
    - destruct (credit_categories _ _ _ _ _ _ _ _ _ _ _) as [[[rl prio] cats]|e] eqn:Hcredit;
        cbn; [|by exists e].
      destruct (credit_woth _ _ _ _) as [rl'|e] eqn:Hwoth; cbn; [|by exists e].
      rewrite list_remove_raises by done. by exists ValueError.
    - cbn. rewrite list_remove_raises by done. by exists ValueError. }
  exists e. split; [|done]. destruct fuel; cbn [search_loop]; by rewrite Hyield, Hvisit.
Qed.

(** X5. When [search_goals] returns, a tuple stored for a category, a goal and
    a world is that of a location of [item_locations], the world is one of
    the search's worlds that [reachable_goals] lists for the goal, and the
    engine, asked with the location's item taken off and every other
    location holding its item, did not list the world for the goal. *)
Theorem search_goals_records_hintable_worlds categories search prio items st :
  run categories search prio items = Some (Ok st) →
  ∀ c g w x, recorded (sv_required st) c g w x →
    x.1.1 ∈ item_locations
    ∧ hintable h reachable_goals (state_world_ids search) items c g w x.1.1.
Proof. by intros (last & _ & [Hrec _ _ _ _ _ _] & ->)%search_goals_trace. Qed.

(** X6. When [search_goals] returns with [search_woth], the way of the hero
    lists locations of [item_locations] in the order the generator yielded
    them; a location is listed at most as often as it was yielded, so never
    twice when [all_locations] has no location twice. *)
Theorem search_goals_way_of_the_hero_order categories search prio items st l :
  search_goals item_table h hint_exclusions reachable_goals all_locations item_locations
    always_locations search_woth categories search prio items = Some (Ok st) →
  sv_required st !! "way of the hero" = Some (RLList l) →
  sublist l (filter (λ L, L ∈ item_locations) (sv_yielded st))
  ∧ (∀ L, L ∈ l → L ∈ item_locations ∧ L ∈ all_locations)
  ∧ (NoDup all_locations → NoDup l).
Proof.
  intros (last & _ & [_ _ Hwoth Hlocs _ _ _] & ->)%search_goals_trace Hl. cbn in *.
  pose proof (Hwoth l Hl) as Hsub. split_and!; [done| |].
  - intros L HL. eapply elem_of_sublist in HL; [|exact Hsub].
    apply list_elem_of_filter in HL as [? HL]. split; [done|].
    rewrite <-Hlocs. apply elem_of_app. by left.
  - intros Hnodup. eapply sublist_NoDup; [|exact Hsub]. apply NoDup_filter.
    rewrite <-Hlocs in Hnodup. by apply NoDup_app in Hnodup as [? _].
Qed.

(** X7. When [search_goals] returns, the categories are those it was given,
    in number and order and under the same keys, with the same goals, but
    for weights set to 1: a goal's weight only when a location is stored
    under that goal's name in the category's name, a category's weight only
    when a location is stored under its name. And a claim of
    [priority_locations] is one that was there at the start or that of a
    stored location for the claiming category. *)
Theorem search_goals_changes_weights_only categories search prio items st :
  run categories search prio items = Some (Ok st) →
  Forall2 (category_step (sv_required st)) categories (sv_categories st)
  ∧ (∀ L c, owner (sv_priority st) L = Some c →
       owner prio L = Some c
       ∨ ∃ g w x, recorded (sv_required st) c g w x
           ∧ loc_world x.1.1 = loc_world L ∧ loc_name x.1.1 = loc_name L).
Proof. by intros (last & _ & [_ _ _ _ Hcats Hclaims _] & ->)%search_goals_trace. Qed.

Lemma category_step_none (rl : RequiredLocations) (e e' : string * GoalCategory) :
  (∀ c g w x, ¬ recorded rl c g w x) → category_step rl e e' → e' = e.
Proof.
  intros Hnone (Hkey & goals & Hgoals & Hweight).
  assert (goals = c_goals e.2) as ->.
  { symmetry. apply list_eq_Forall2. eapply Forall2_impl; [exact Hgoals|].
    intros g g' [->|[_ (w & x & Hx)]]; [done|]. by destruct (Hnone _ _ _ _ Hx). }
  destruct Hweight as [H2|[_ (g & w & x & Hx)]]; [|by destruct (Hnone _ _ _ _ Hx)].
  rewrite set_c_goals_id in H2. destruct e, e'. cbn in *. congruence.
Qed.

(** X8. When [reachable_goals] has no true entry for any of the categories (as
    with the empty dictionary [update_goal_items] passes when goal hints
    are off), [search_goals] stores no location under any category: what
    it returns holds at most the way of the hero, and it leaves
    [priority_locations] and the categories, weights included, exactly as
    they were. *)
Theorem search_goals_without_reachable_goals categories search prio items st :
  (∀ e re, e ∈ categories → reachable_goals !! c_name e.2 = Some re → vg_true re = false) →
  run categories search prio items = Some (Ok st) →
  (∀ c g w x, ¬ recorded (sv_required st) c g w x)
  ∧ (∀ k, is_Some (sv_required st !! k) → k = "way of the hero" ∧ search_woth = true)
  ∧ sv_priority st = prio
  ∧ sv_categories st = categories.
Proof.
  intros Hunreachable
    (last & [_ Hkeys Hwoth _ _ _ _ _] & [Hrec Hkeys' _ _ Hcats _ Hsame] & ->)%search_goals_trace.
  cbn.
  assert (∀ c g w x, ¬ recorded (sv_required last) c g w x) as Hnone.
  { intros c g w x Hx. pose proof Hx as (d & ws & l & Hd & _).
    destruct (Hkeys c) as [[-> Hw] | [_ (e & He & Hname)]]; [by rewrite Hd|..].
    - rewrite Hw in Hwoth. destruct Hwoth as (l' & Hl' & _). congruence.
    - destruct (Hrec _ _ _ _ Hx) as (_ & _ & (re & reachable & Hre & Hsub & _) & _).
      rewrite <-Hname in Hre. specialize (Hunreachable _ _ He Hre).
      destruct re as [dr|b]; [|done]. cbn in *.
      apply bool_decide_eq_false in Hunreachable. apply Hunreachable. intros ->.
      by rewrite lookup_empty in Hsub. }
  split_and!; [done| |by apply Hsame|].
  - intros k [?|(g & w & x & Hx)]%Hkeys'; [done|]. by destruct (Hnone _ _ _ _ Hx).
  - symmetry. apply list_eq_Forall2. eapply Forall2_impl; [exact Hcats|].
    intros e e' Hstep. symmetry. by eapply category_step_none.
Qed.

End solver_more.

(** ** The default goal of [update_goal_items] *)

Lemma default_category_mono h h' world_id woth c :
  h ⊆ h' → default_category h world_id woth c → default_category h' world_id woth c.
Proof.
  intros Hsub (? & ? & ? & ? & g & ? & ? & ? & ? & Hi & Hr).
  split_and!; try done. exists g. split_and!; try done; by eapply lookup_weaken.
Qed.

Lemma alloc_spec c h a h' :
  alloc c h = (a, h') → h !! a = None ∧ h' = <[a := c]> h ∧ h ⊆ h'.
Proof.
  unfold alloc. intros [= <- <-].
  assert (h !! fresh (dom h) = None) by apply not_elem_of_dom, is_fresh.
  split_and!; [done..|]. by apply insert_subseteq.
Qed.

(** [copy] on a goal of a valid color whose two lists are cells of the
    right kind: the copy has the same name, color and hint text and lists
    of the same contents. *)
Lemma Goal_copy_contents h g items reqs :
  g_color g ∈ validColors →
  h !! g_items g = Some (ItemList items) →
  h !! g_required_locations g = Some (ReqList reqs) →
  ∃ g' h', Goal_copy h g = Ok (g', h') ∧ h ⊆ h'
    ∧ g_name g' = g_name g ∧ g_color g' = g_color g ∧ g_hint_text g' = g_hint_text g
    ∧ h' !! g_items g' = Some (ItemList items)
    ∧ h' !! g_required_locations g' = Some (ReqList reqs).
Proof.
  intros Hcolor Hitems Hreqs. unfold Goal_copy, Goal_init.
  rewrite andb_false_r. rewrite bool_decide_eq_true_2 by done.
  destruct (or_new (Some (g_items g)) _ h) as [a1 h1] eqn:H1.
  destruct (or_new (Some (g_required_locations g)) _ h1) as [a2 h2] eqn:H2.
  pose proof (or_new_subseteq _ _ _ _ _ H1) as Hsub1.
  pose proof (or_new_subseteq _ _ _ _ _ H2) as Hsub2.
  eexists _, _. split; [done|].
  cbn [g_name g_color g_hint_text g_items g_required_locations].
  apply or_new_spec in H1, H2. split_and!; try done.
  - by etrans.
  - eapply lookup_weaken; [|exact Hsub2].
    destruct H1 as [(_ & [= <-] & ->) | (Ht & Ha1 & ->)]; [done|].
    rewrite lookup_insert_eq. unfold truthy in Ht. rewrite Hitems in Ht.
    destruct items; [done|]. cbn in Ht. by rewrite bool_decide_eq_true_2 in Ht.
  - pose proof (lookup_weaken _ _ _ _ Hreqs Hsub1) as Hreqs1.
    destruct H2 as [(_ & [= <-] & ->) | (Ht & Ha2 & ->)]; [done|].
    rewrite lookup_insert_eq. unfold truthy in Ht. rewrite Hreqs1 in Ht.
    destruct reqs; [done|]. cbn in Ht. by rewrite bool_decide_eq_true_2 in Ht.
Qed.

Lemma woth_locations_dict_lookup (worlds : list World) (woth : list Location) (world : World) :
  world ∈ worlds →
  woth_locations_dict worlds woth !! w_id world = Some (world_woth woth (w_id world)).
Proof.
  unfold woth_locations_dict. generalize (∅ : gmap nat (list Location)). intros d0.
  induction worlds as [|w worlds IH] using rev_ind; [by intros ?%elem_of_nil|].
  rewrite foldl_app. cbn. intros Hin.
  destruct (decide (w_id w = w_id world)) as [Heq|Hne].
  - rewrite Heq, lookup_insert_eq. done.
  - rewrite lookup_insert_ne by done. apply IH.
    apply elem_of_app in Hin as [?|Hin]; [done|]. apply list_elem_of_singleton in Hin. by subst.
Qed.

Lemma default_goal_spec required worlds gc rld h world woth :
  required !! w_id world = Some woth →
  ∃ c c' h',
    default_goal required (worlds, gc, rld, h) world
    = Ok (worlds ++ [set_w_goal_categories (dict_set "ganon" c (w_goal_categories world)) world],
          <[w_id world := [("ganon", c')]]> gc,
          <[w_id world := {["ganon" := {["the hero" := {[w_id world := woth]}]}]}]> rld,
          h')
    ∧ h ⊆ h'
    ∧ default_category h' (w_id world) woth c
    ∧ default_category h' (w_id world) woth c'.
Proof.
  intros Hwoth. unfold default_goal. rewrite Hwoth. cbn [getitem]. rewrite Ok_bind.
  destruct (alloc (ReqList _) h) as [a_req h1] eqn:H1.
  destruct (alloc (ItemList [triforce]) h1) as [a_items h2] eqn:H2.
  apply alloc_spec in H1 as (Hf1 & -> & Hsub1).
  apply alloc_spec in H2 as (Hf2 & -> & Hsub2).
  set (h1 := <[a_req := _]> h) in *. set (h2 := <[a_items := _]> h1) in *.
  assert (a_items ≠ a_req) as Hne.
  { intros ->. subst h1. by rewrite lookup_insert_eq in Hf2. }
  unfold Goal_init. 
  assert (truthy h2 (Some a_items) = true) as ->.
  { unfold truthy. subst h2. by rewrite lookup_insert_eq. }
  cbn [negb andb]. rewrite bool_decide_eq_true_2 by (by left).
  cbn [or_new]. 
  assert (truthy h2 (Some a_items) = true) as ->.
  { unfold truthy. subst h2. by rewrite lookup_insert_eq. }
  destruct (alloc (ReqList []) h2) as [a_req0 h3] eqn:H3.
  apply alloc_spec in H3 as (Hf3 & -> & Hsub3). set (h3 := <[a_req0 := _]> h2) in *.
  rewrite Ok_bind. cbn beta iota.
  set (g := set_g_required_locations a_req _).
  set (c := add_goal _ g).
  assert (h3 !! a_items = Some (ItemList [triforce])) as Hi3.
  { eapply lookup_weaken; [|exact Hsub3]. subst h2. by rewrite lookup_insert_eq. }
  assert (h3 !! a_req = Some (ReqList ((λ location, (location, 1, 1, [w_id world])%Z) <$> woth)))
    as Hr3.
  { eapply lookup_weaken; [|etrans; [exact Hsub2 | exact Hsub3]]. subst h1.
    by rewrite lookup_insert_eq. }
  destruct (Goal_copy_contents h3 (set_g_category (Some "ganon") g) [triforce]
              ((λ location, (location, 1, 1, [w_id world])%Z) <$> woth))
    as (g' & h4 & Hcopy & Hsub4 & Hn & Hc & Ht & Hi4 & Hr4); [by left | done..|].
  assert ((λ l : ReqLoc, l.1.1.1) <$> ((λ location, (location, 1, 1, [w_id world])%Z) <$> woth)
          = woth) as Hfst.
  { rewrite <-list_fmap_compose. exact (list_fmap_id woth). }
  rewrite Hfst.
  unfold GoalCategory_copy. cbn [c_goals c add_goal set_c_goals GoalCategory_init app copy_goals].
  change (c_name (GoalCategory_init "ganon" 30 1 1 None None)) with "ganon".
  rewrite Hcopy. repeat (rewrite Ok_bind; cbn beta iota).
  eexists _, _, _. split; [reflexivity|]. split_and!.
  - etrans; [exact Hsub1|]. etrans; [exact Hsub2|]. by etrans.
  - unfold default_category. cbn. split_and!; try done.
    eexists. split; [done|]. cbn. split_and!; try done; by eapply lookup_weaken.
  - unfold default_category. cbn. split_and!; try done.
    exists g'. split_and!; done.
Qed.

Lemma default_world_mono h h' woth world world' :
  h ⊆ h' → default_world h woth world world' → default_world h' woth world world'.
Proof. intros Hsub (c & ? & ?). exists c. split; [done|]. by eapply default_category_mono. Qed.

Lemma default_goals_spec required woth worlds :
  (∀ world, world ∈ worlds → required !! w_id world = Some (world_woth woth (w_id world))) →
  ∀ visited ws gc rld h,
    Forall2 (default_world h woth) visited ws →
    (∀ world, world ∈ visited → default_spoiler h woth gc rld world) →
    ∃ ws' gc' rld' h',
      for_each (default_goal required) (ws, gc, rld, h) worlds = Ok (ws', gc', rld', h')
      ∧ h ⊆ h'
      ∧ Forall2 (default_world h' woth) (visited ++ worlds) ws'
      ∧ (∀ world, world ∈ visited ++ worlds → default_spoiler h' woth gc' rld' world).
Proof.
  induction worlds as [|world worlds IH]; intros Hreq visited ws gc rld h Hws Hsp.
  - exists ws, gc, rld, h. rewrite app_nil_r. done.
  - destruct (default_goal_spec required ws gc rld h world _ (Hreq world ltac:(by left)))
      as (c & c' & h1 & Hstep & Hsub1 & Hc & Hc').
    cbn [for_each]. rewrite Hstep, Ok_bind.
    destruct (IH (λ w Hw, Hreq w ltac:(by right)) (visited ++ [world])
                (ws ++ [set_w_goal_categories (dict_set "ganon" c (w_goal_categories world))
                          world])
                (<[w_id world := [("ganon", c')]]> gc)
                (<[w_id world := {["ganon" := {["the hero" :=
                     {[w_id world := world_woth woth (w_id world)]}]}]}]> rld)
                h1) as (ws' & gc' & rld' & h' & Hrun & Hsub & Hws' & Hsp').
    + apply Forall2_app.
      * eapply Forall2_impl; [done|]. intros ???. by eapply default_world_mono.
      * constructor; [|done]. by exists c.
    + intros w Hw. destruct (decide (w_id w = w_id world)) as [Heq|Hne].
      * split; [exists c'|]; rewrite Heq, lookup_insert_eq; done.
      * apply elem_of_app in Hw as [Hw|Hw%list_elem_of_singleton]; [|by subst].
        destruct (Hsp w Hw) as [(c0 & Hc0 & Hd0) Hl0]. split.
        -- exists c0. rewrite lookup_insert_ne by done. split; [done|].
           by eapply default_category_mono.
        -- by rewrite lookup_insert_ne.
    + exists ws', gc', rld', h'. rewrite <-app_assoc in Hws', Hsp'. split_and!; try done.
      by etrans.
Qed.

Section report_facts.
Variable regroup :
  list World → RequiredLocations → Spoiler → heap → result (list World * Spoiler * heap).

(** C4. When the required locations left after the two solver passes are
    empty (the way of the hero taken out), the first world has no category
    under ['ganon'] and has default goals and goal hints enabled, the end of
    [update_goal_items] returns, and for every world: its categories get,
    under ['ganon'], one new category named ['ganon'] of priority 30 that
    holds exactly the goal ['the hero'], whose required locations are the
    locations of that world's way of the hero, each with weights 1 and 1
    and the world's id; the spoiler gets that way of the hero, a copy of the
    category and the same locations as the goal's locations. *)
Theorem default_goal_synthesized (worlds : list World) (spoiler : Spoiler)
    (required_locations identified_locations : RequiredLocations) (h : heap)
    (woth_locations : list Location) (world0 : World) (rest : list World) :
  take_way_of_the_hero required_locations identified_locations = Ok (woth_locations, ∅) →
  worlds = world0 :: rest →
  dict_get "ganon" (w_goal_categories world0) = None →
  w_use_default_goals world0 = true →
  w_enable_goal_hints world0 = true →
  ∃ worlds' spoiler' h',
    report_goal_items regroup worlds spoiler required_locations identified_locations h
    = Ok (worlds', spoiler', h')
    ∧ Forall2 (λ world world',
         ∃ c g,
           world' = set_w_goal_categories (dict_set "ganon" c (w_goal_categories world)) world
           ∧ c_name c = "ganon" ∧ c_priority c = 30%Z ∧ c_goals c = [g]
           ∧ g_name g = "the hero"
           ∧ reqs_at h' (g_required_locations g)
             = (λ location, (location, 1, 1, [w_id world])%Z)
               <$> filter (λ location, loc_world location = w_id world) woth_locations)
       worlds worlds'
    ∧ (∀ world, world ∈ worlds →
         sp_required_locations spoiler' !! w_id world
         = Some (filter (λ location, loc_world location = w_id world) woth_locations)
         ∧ default_spoiler h' woth_locations (sp_goal_categories spoiler')
             (sp_goal_locations spoiler') world).
Proof.
  intros Htake Hworlds Hganon Hdefault Hhints. unfold report_goal_items.
  rewrite Htake, Ok_bind. cbn beta iota.
  assert (use_default_goal worlds ∅ = Ok true) as ->.
  { unfold use_default_goal. rewrite bool_decide_eq_true_2 by done. rewrite Hworlds.
    by rewrite Hganon, Hdefault, Hhints. }
  rewrite Ok_bind. cbn [sp_required_locations sp_goal_categories].
  destruct (default_goals_spec (woth_locations_dict worlds woth_locations) woth_locations worlds)
    with (visited := @nil World) (ws := @nil World) (gc := sp_goal_categories spoiler)
         (rld := (∅ : gmap nat (gmap string (gmap string (gmap nat (list Location))))))
         (h := h)
    as (ws' & gc' & rld' & h' & Hrun & Hsub & Hws' & Hsp').
  { intros world Hworld. by apply woth_locations_dict_lookup. }
  { constructor. }
  { intros world Hworld. by apply elem_of_nil in Hworld. }
  rewrite Hrun, Ok_bind. cbn beta iota. eexists _, _, _. split; [reflexivity|].
  cbn [sp_required_locations sp_goal_categories sp_goal_locations app] in *. split.
  - eapply Forall2_impl; [exact Hws'|]. intros world world' (c & -> & Hc).
    destruct Hc as (Hn & Hp & _ & _ & g & Hg & Hgn & _ & _ & _ & Hr).
    exists c, g. split_and!; try done. unfold reqs_at. by rewrite Hr.
  - intros world Hworld. split; [|by apply Hsp'].
    by rewrite woth_locations_dict_lookup.
Qed.

End report_facts.

(** ** The way of the hero by world (lines 252 to 255) *)

Lemma woth_locations_dict_None (worlds : list World) (woth : list Location) (w : nat) :
  w ∉ w_id <$> worlds → woth_locations_dict worlds woth !! w = None.
Proof.
  unfold woth_locations_dict.
  induction worlds as [|world worlds IH] using rev_ind; [done|].
  rewrite foldl_app, fmap_app. cbn. intros Hnot.
  rewrite lookup_insert_ne.
  - apply IH. intros Hin. apply Hnot, elem_of_app. by left.
  - intros Heq. apply Hnot, elem_of_app. right. rewrite Heq. by left.
Qed.

(** X23. [spoiler.required_locations] has one entry for each world, and no
    other: the locations of the way of the hero that lie in that world, in
    the order of the way of the hero (an empty list for a world without
    any). So every location of the way of the hero that lies in one of the
    worlds is listed for its world and for no other, and a location of no
    world of the list is dropped. *)
Theorem woth_locations_dict_by_world (worlds : list World) (woth : list Location) :
  (∀ w, woth_locations_dict worlds woth !! w =
        if decide (w ∈ w_id <$> worlds)
        then Some (filter (λ location, loc_world location = w) woth) else None)
  ∧ (∀ w l location, woth_locations_dict worlds woth !! w = Some l →
       location ∈ l ↔ location ∈ woth ∧ loc_world location = w)
  ∧ (∀ w l, woth_locations_dict worlds woth !! w = Some l → sublist l woth).
Proof.
  assert (∀ w, woth_locations_dict worlds woth !! w =
               if decide (w ∈ w_id <$> worlds)
               then Some (filter (λ location, loc_world location = w) woth) else None)
    as Hlookup.
  { intros w. destruct (decide _) as [Hin|Hnot]; [|by apply woth_locations_dict_None].
    apply list_elem_of_fmap in Hin as (world & -> & Hworld).
    by apply woth_locations_dict_lookup. }
  split_and!; [done|..].
  - intros w l location. rewrite Hlookup. destruct (decide _); [|done].
    intros [= <-]. rewrite list_elem_of_filter. tauto.
  - intros w l. rewrite Hlookup. destruct (decide _); [|done].
    intros [= <-]. apply sublist_filter.
Qed.

(** ** [Goal.get_item], [GoalCategory.get_goal] and [add_goal] *)

Lemma first_named_Some {A} (name_of : A → string) (name : string) (l : list A) (k : nat) :
  first_named name_of name l = Some k ↔ first_at name_of name l k.
Proof.
  revert k. induction l as [|y l IH]; intros k; cbn [first_named].
  - split; [done|]. by intros [(x & Hx & _) _].
  - destruct (decide (name_of y = name)) as [Hy|Hy].
    + split.
      * intros [= <-]. split; [by exists y|]. intros j z Hj. lia.
      * intros [_ Hfirst]. destruct k as [|k]; [done|].
        destruct (Hfirst 0 y); [lia | done..].
    + rewrite fmap_Some. split.
      * intros (k' & [(x & Hx & Hname) Hfirst]%IH & ->). split; [by exists x|].
        intros [|j] z Hj Hz; [by injection Hz as <- |]. apply (Hfirst j z); [lia | done].
      * intros [(x & Hx & Hname) Hfirst]. destruct k as [|k]; [by injection Hx as -> |].
        exists k. split; [|done]. apply IH. split; [by exists x|].
        intros j z Hj Hz. apply (Hfirst (S j) z); [lia | done].
Qed.

Lemma first_named_None {A} (name_of : A → string) (name : string) (l : list A) :
  first_named name_of name l = None ↔ ∀ x, x ∈ l → name_of x ≠ name.
Proof.
  induction l as [|y l IH]; cbn [first_named].
  - split; [|done]. intros _ x Hx. by apply elem_of_nil in Hx.
  - destruct (decide (name_of y = name)) as [Hy|Hy].
    + split; [done|]. intros Hall. destruct (Hall y); [by left | done].
    + rewrite fmap_None, IH. split.
      * intros Hall x [->|Hx]%elem_of_cons; auto.
      * intros Hall x Hx. apply Hall. by right.
Qed.

Lemma first_at_elem_of {A} (name_of : A → string) (name : string) (l : list A) (k : nat) :
  first_at name_of name l k → ∃ x, x ∈ l ∧ name_of x = name.
Proof. intros [(x & Hx & Hname) _]. exists x. split; [by eapply list_elem_of_lookup_2 | done]. Qed.

Lemma first_at_unique {A} (name_of : A → string) (name : string) (l : list A) (j k : nat) :
  first_at name_of name l j → first_at name_of name l k → j = k.
Proof. rewrite <-!first_named_Some. congruence. Qed.

(** The first position of a name is that of the names alone. *)
Lemma first_at_same_names {A} (name_of : A → string) (name : string) (l l' : list A)
    (k : nat) :
  same_names name_of l l' → first_at name_of name l k → first_at name_of name l' k.
Proof.
  intros Hnames [(x & Hx & Hname) Hfirst]. split.
  - destruct (Forall2_lookup_l _ _ _ _ _ Hnames Hx) as (y & Hy & Hxy).
    exists y. split; [done | congruence].
  - intros j y Hj Hy. destruct (Forall2_lookup_r _ _ _ _ _ Hnames Hy) as (z & Hz & Hzy).
    rewrite Hzy. by apply (Hfirst j z).
Qed.

Lemma first_at_app {A} (name_of : A → string) (name : string) (l : list A) (y : A) (k : nat) :
  first_at name_of name (l ++ [y]) k ↔
  first_at name_of name l k
  ∨ ((∀ z, z ∈ l → name_of z ≠ name) ∧ name_of y = name ∧ k = length l).
Proof.
  rewrite <-!first_named_Some, <-first_named_None.
  revert k. induction l as [|z l IH]; intros k; cbn [first_named app length].
  - destruct (decide (name_of y = name)) as [Hy|Hy]; cbn.
    + split; [intros [= <-]; by right | by intros [?|(_ & _ & ->)]].
    + split; [done | by intros [?|(_ & ? & _)]].
  - destruct (decide (name_of z = name)) as [Hz|Hz].
    + split; [by left|]. by intros [?|(? & _)].
    + rewrite !fmap_Some, fmap_None. split.
      * intros (k' & [?|(? & ? & ->)]%IH & ->); [left; by exists k' | by right].
      * intros [(k' & ? & ->)|(? & ? & ->)].
        -- exists k'. split; [|done]. apply IH. by left.
        -- exists (length l). split; [|done]. apply IH. by right.
Qed.

Lemma set_g_item_cache_id (g : Goal) : set_g_item_cache (g_item_cache g) g = g.
Proof. by destruct g. Qed.

Lemma set_c_goal_cache_id (c : GoalCategory) : set_c_goal_cache (c_goal_cache c) c = c.
Proof. by destruct c. Qed.

(** A cache stays of its kind under an entry for the first position of a
    name. *)
Lemma coherent_insert {A} (name_of : A → string) (l : list A) (cache : gmap string nat)
    (name : string) (k : nat) :
  (∀ n j, cache !! n = Some j → first_at name_of n l j) →
  first_at name_of name l k →
  ∀ n j, <[name := k]> cache !! n = Some j → first_at name_of n l j.
Proof.
  intros Hcache Hk n j. destruct (decide (n = name)) as [->|Hne].
  - rewrite lookup_insert_eq. by intros [= <-].
  - rewrite lookup_insert_ne by done. apply Hcache.
Qed.

(** X13. [get_item]: from a cache of the kind the method itself builds, the
    call fails exactly when no item of the goal carries the name, and then
    with [KeyError]; otherwise it returns the first dictionary of
    [goal.items] with that name, records it in the cache under the name and
    changes nothing else. The result is the dictionary itself: once the
    dictionaries have been updated in place, their names kept (as
    [update_reachable_goals] does with the quantities), and whatever else
    of the goal was set, the cache is still of that kind and asking again
    gives the same dictionary, with what it holds by then. *)
Theorem Goal_get_item_first_match (h : heap) (g : Goal) (item : string) :
  item_cache_coherent h g →
  ((∃ e, Goal_get_item h g item = Raise e) ↔
   ∀ i, i ∈ items_at h (g_items g) → gi_name i ≠ item)
  ∧ (∀ e, Goal_get_item h g item = Raise e → e = KeyError)
  ∧ (∀ k g', Goal_get_item h g item = Ok (k, g') →
       first_at gi_name item (items_at h (g_items g)) k
       ∧ g' = set_g_item_cache (<[item := k]> (g_item_cache g)) g
       ∧ ∀ h' g2,
           same_names gi_name (items_at h (g_items g)) (items_at h' (g_items g)) →
           g_items g2 = g_items g → g_item_cache g2 = g_item_cache g' →
           item_cache_coherent h' g2
           ∧ Goal_get_item h' g2 item = Ok (k, g2)
           ∧ ∃ i i', item_at h g k = Some i ∧ item_at h' g2 k = Some i'
                     ∧ gi_name i = item ∧ gi_name i' = item)
  ∧ (∀ k g', Goal_get_item h g item = Ok (k, g') →
       ∀ (State : Type) (state_world : State → World)
         (item_name_count : State → string → Z) (has_item_goal : State → GoalItem → bool)
         self starting full h',
         update_reachable_goals state_world item_name_count has_item_goal self starting full h
         = Ok h' →
         item_cache_coherent h' g'
         ∧ Goal_get_item h' g' item = Ok (k, g')
         ∧ ∃ i i', item_at h g' k = Some i ∧ item_at h' g' k = Some i'
                   ∧ item_lowered i i').
Proof.
  intros Hcache.
  assert (∀ k, first_at gi_name item (items_at h (g_items g)) k →
            ¬ ∀ i, i ∈ items_at h (g_items g) → gi_name i ≠ item) as Hfound.
  { intros k (i & Hi & Hname)%first_at_elem_of Hall. by destruct (Hall i). }
  assert (∀ k g', first_at gi_name item (items_at h (g_items g)) k →
            g_item_cache g' = <[item := k]> (g_item_cache g) →
            ∀ h' g2,
              same_names gi_name (items_at h (g_items g)) (items_at h' (g_items g)) →
              g_items g2 = g_items g → g_item_cache g2 = g_item_cache g' →
              item_cache_coherent h' g2
              ∧ Goal_get_item h' g2 item = Ok (k, g2)
              ∧ ∃ i i', item_at h g k = Some i ∧ item_at h' g2 k = Some i'
                        ∧ gi_name i = item ∧ gi_name i' = item) as Hagain.
  { intros k g' Hk Hg' h' g2 Hnames Hitems2 Hcache2. split_and!.
    - intros n j. rewrite Hitems2, Hcache2, Hg'. intros Hj.
      eapply first_at_same_names; [done|]. revert n j Hj. by apply coherent_insert.
    - unfold Goal_get_item. by rewrite Hcache2, Hg', lookup_insert_eq.
    - destruct Hk as [(i & Hi & Hname) _].
      destruct (Forall2_lookup_l _ _ _ _ _ Hnames Hi) as (i' & Hi' & Hii').
      exists i, i'. unfold item_at. rewrite Hitems2. split_and!; [done..|congruence]. }
  assert (∀ k g', first_at gi_name item (items_at h (g_items g)) k →
            g_items g' = g_items g →
            g_item_cache g' = <[item := k]> (g_item_cache g) →
            ∀ (State : Type) (state_world : State → World)
              (item_name_count : State → string → Z) (has_item_goal : State → GoalItem → bool)
              self starting full h',
              update_reachable_goals state_world item_name_count has_item_goal self starting
                full h = Ok h' →
              item_cache_coherent h' g'
              ∧ Goal_get_item h' g' item = Ok (k, g')
              ∧ ∃ i i', item_at h g' k = Some i ∧ item_at h' g' k = Some i'
                        ∧ item_lowered i i') as Hupdate.
  { intros k g' Hk Hitems Hg' State state_world item_name_count has_item_goal self starting
      full h' Hrun.
    pose proof (update_reachable_goals_lowered _ _ _ _ _ _ _ _ Hrun (g_items g)) as Hlow.
    destruct (Hagain k g' Hk Hg' h' g') as (Hcache' & Hget & _); [|done..|].
    { eapply Forall2_impl; [exact Hlow|]. by intros i i' (? & _). }
    split_and!; [done..|]. destruct Hk as [(i & Hi & _) _].
    destruct (Forall2_lookup_l _ _ _ _ _ Hlow Hi) as (i' & Hi' & Hii').
    exists i, i'. unfold item_at. by rewrite Hitems. }
  unfold Goal_get_item.
  destruct (g_item_cache g !! item) as [k0|] eqn:Hhit.
  - pose proof (Hcache _ _ Hhit) as Hfirst. split_and!.
    + split; [by intros [e [=]]|]. intros Hall. by destruct (Hfound k0).
    + done.
    + intros k g' [= <- <-]. split; [done|].
      split; [by rewrite insert_id, set_g_item_cache_id|].
      apply Hagain; [done | by rewrite insert_id].
    + intros k g' [= <- <-]. apply Hupdate; [done.. | by rewrite insert_id].
  - destruct (first_named gi_name item (items_at h (g_items g))) as [k0|] eqn:Hfind.
    + apply first_named_Some in Hfind. split_and!.
      * split; [by intros [e [=]]|]. intros Hall. by destruct (Hfound k0).
      * done.
      * intros k g' [= <- <-]. split_and!; [done..|]. by apply Hagain.
      * intros k g' [= <- <-]. by apply Hupdate.
    + split_and!.
      * split; [intros _; by apply first_named_None | eauto].
      * by intros e [= <-].
      * done.
      * done.
Qed.

Lemma get_goal_name_spec (c : GoalCategory) (name : string) :
  goal_cache_coherent c →
  ((∃ e, GoalCategory_get_goal c (inr name) = Raise e) ↔
   ∀ g, g ∈ c_goals c → g_name g ≠ name)
  ∧ (∀ e, GoalCategory_get_goal c (inr name) = Raise e → e = KeyError)
  ∧ (∀ r c', GoalCategory_get_goal c (inr name) = Ok (r, c') →
       ∃ k, r = Listed k ∧ first_at g_name name (c_goals c) k
            ∧ c' = set_c_goal_cache (<[name := k]> (c_goal_cache c)) c)
  ∧ (∀ k, first_at g_name name (c_goals c) k →
       ∃ c', GoalCategory_get_goal c (inr name) = Ok (Listed k, c')).
Proof.
  intros Hcache.
  assert (∀ k, first_at g_name name (c_goals c) k →
            ¬ ∀ g, g ∈ c_goals c → g_name g ≠ name) as Hfound.
  { intros k (g & Hg & Hname)%first_at_elem_of Hall. by destruct (Hall g). }
  unfold GoalCategory_get_goal.
  destruct (c_goal_cache c !! name) as [k0|] eqn:Hhit.
  - pose proof (Hcache _ _ Hhit) as Hfirst. split_and!.
    + split; [by intros [e [=]]|]. intros Hall. by destruct (Hfound k0).
    + done.
    + intros r c' [= <- <-]. exists k0. split_and!; [done..|].
      by rewrite insert_id, set_c_goal_cache_id.
    + intros k Hk. rewrite (first_at_unique _ _ _ _ _ Hk Hfirst). eauto.
  - destruct (first_named g_name name (c_goals c)) as [k0|] eqn:Hfind.
    + apply first_named_Some in Hfind. split_and!.
      * split; [by intros [e [=]]|]. intros Hall. by destruct (Hfound k0).
      * done.
      * intros r c' [= <- <-]. by exists k0.
      * intros k Hk. rewrite (first_at_unique _ _ _ _ _ Hk Hfind). eauto.
    + split_and!.
      * split; [intros _; by apply first_named_None | eauto].
      * by intros e [= <-].
      * done.
      * intros k Hk%first_named_Some. congruence.
Qed.

(** X14. [get_goal]: asked for a [Goal] it hands that goal back, be it one of
    the category or not, and leaves the cache alone. Asked for a name, from
    a cache of the kind the method itself builds, it fails exactly when no
    goal of the category carries the name, with [KeyError]; otherwise it
    returns the first goal of [category.goals] with that name, records it in
    the cache and changes nothing else. The result is the goal object
    itself: once the goals have been updated in place, their names kept (as
    [search_goals] does with the weights and [replace_goal_names] with the
    texts), and whatever else of the category was set, the cache is still
    of that kind and asking again gives the same goal, as it is by
    then. *)
Theorem get_goal_first_match (c : GoalCategory) (name : string) :
  goal_cache_coherent c →
  (∀ g, GoalCategory_get_goal c (inl g) = Ok (Given g, c))
  ∧ ((∃ e, GoalCategory_get_goal c (inr name) = Raise e) ↔
     ∀ g, g ∈ c_goals c → g_name g ≠ name)
  ∧ (∀ e, GoalCategory_get_goal c (inr name) = Raise e → e = KeyError)
  ∧ (∀ r c', GoalCategory_get_goal c (inr name) = Ok (r, c') →
       ∃ k, r = Listed k ∧ first_at g_name name (c_goals c) k
         ∧ c' = set_c_goal_cache (<[name := k]> (c_goal_cache c)) c
         ∧ ∀ c2,
             same_names g_name (c_goals c) (c_goals c2) →
             c_goal_cache c2 = c_goal_cache c' →
             goal_cache_coherent c2
             ∧ GoalCategory_get_goal c2 (inr name) = Ok (Listed k, c2)
             ∧ ∃ g g2, goal_at c (Listed k) = Some g ∧ goal_at c2 (Listed k) = Some g2
                       ∧ g_name g = name ∧ g_name g2 = name)
  ∧ (∀ k c', GoalCategory_get_goal c (inr name) = Ok (Listed k, c') →
       ∀ rl key e', category_step rl (key, c') e' →
         goal_cache_coherent e'.2
         ∧ GoalCategory_get_goal e'.2 (inr name) = Ok (Listed k, e'.2)
         ∧ ∃ g g', goal_at c' (Listed k) = Some g ∧ goal_at e'.2 (Listed k) = Some g'
                   ∧ (g' = g ∨ g' = set_g_weight 1 g)).
Proof.
  intros Hcache. split; [done|].
  destruct (get_goal_name_spec c name Hcache) as (Hraise & Herr & Hok & _).
  assert (∀ k c2,
            first_at g_name name (c_goals c) k →
            same_names g_name (c_goals c) (c_goals c2) →
            c_goal_cache c2 = <[name := k]> (c_goal_cache c) →
            goal_cache_coherent c2
            ∧ GoalCategory_get_goal c2 (inr name) = Ok (Listed k, c2)
            ∧ ∃ g g2, goal_at c (Listed k) = Some g ∧ goal_at c2 (Listed k) = Some g2
                      ∧ g_name g = name ∧ g_name g2 = name) as Hagain.
  { intros k c2 Hk Hnames Hcache2. split_and!.
    - intros n j. rewrite Hcache2. intros Hj.
      eapply first_at_same_names; [done|]. revert n j Hj. by apply coherent_insert.
    - unfold GoalCategory_get_goal. by rewrite Hcache2, lookup_insert_eq.
    - destruct Hk as [(g & Hg & Hname) _].
      destruct (Forall2_lookup_l _ _ _ _ _ Hnames Hg) as (g2 & Hg2 & Hgg2).
      exists g, g2. cbn [goal_at]. split_and!; [done..|congruence]. }
  split_and!; [done..| |].
  - intros r c' Hget.
    destruct (Hok _ _ Hget) as (k & -> & Hk & ->). exists k. split_and!; [done..|].
    intros c2 Hnames Hcache2. by apply Hagain.
  - intros k c' Hget rl key e' (_ & goals & Hgoals & He').
    destruct (Hok _ _ Hget) as (k' & [= <-] & Hk & ->).
    cbn [snd c_goals c_name set_c_goal_cache] in Hgoals, He'.
    assert (c_goals e'.2 = goals ∧ c_goal_cache e'.2 = <[name := k]> (c_goal_cache c))
      as [Hgoals' Hcache'] by (by destruct He' as [->|[-> _]]).
    destruct (Hagain k e'.2 Hk) as (Hcoherent & Hget' & _); [|done|].
    { rewrite Hgoals'. eapply Forall2_impl; [exact Hgoals|].
      by intros g g' [->|[-> _]]. }
    split_and!; [done..|]. destruct Hk as [(g & Hg & _) _].
    destruct (Forall2_lookup_l _ _ _ _ _ Hgoals Hg) as (g' & Hg' & Hstep).
    exists g, g'. cbn [goal_at c_goals set_c_goal_cache]. rewrite Hgoals'.
    split_and!; [done..|]. destruct Hstep as [->|[-> _]]; auto.
Qed.

(** X15. [add_goal] followed by [get_goal]: the goals that were there keep
    their places and the new goal, bound to the category, comes last; the
    cache stays of the kind [get_goal] builds; and a lookup by name in the
    category with the new goal gives what it gave before when the name was
    already there (so a second goal of a name is never found), and the new
    goal when its name is new. *)
Theorem add_goal_then_get_goal (c : GoalCategory) (goal : Goal) (name : string) :
  goal_cache_coherent c →
  goal_cache_coherent (add_goal c goal)
  ∧ (∀ k, k < length (c_goals c) →
       goal_at (add_goal c goal) (Listed k) = goal_at c (Listed k))
  ∧ goal_at (add_goal c goal) (Listed (length (c_goals c)))
    = Some (set_g_category (Some (c_name c)) goal)
  ∧ (∀ r, (∃ c', GoalCategory_get_goal (add_goal c goal) (inr name) = Ok (r, c')) ↔
       (∃ c', GoalCategory_get_goal c (inr name) = Ok (r, c'))
       ∨ ((∀ g0, g0 ∈ c_goals c → g_name g0 ≠ name)
          ∧ g_name goal = name ∧ r = Listed (length (c_goals c)))).
Proof.
  intros Hcache.
  assert (goal_cache_coherent (add_goal c goal)) as Hcache'.
  { intros name' k Hk. cbn [add_goal set_c_goals c_goals c_goal_cache] in *.
    apply first_at_app. left. by apply Hcache. }
  split; [done|]. split_and!.
  - intros k Hk. cbn [goal_at add_goal set_c_goals c_goals]. by apply lookup_app_l.
  - cbn [goal_at add_goal set_c_goals c_goals].
    by rewrite lookup_app_r, Nat.sub_diag by done.
  - intros r.
    assert (∀ c0, goal_cache_coherent c0 →
              (∃ c', GoalCategory_get_goal c0 (inr name) = Ok (r, c')) ↔
              ∃ k, r = Listed k ∧ first_at g_name name (c_goals c0) k) as Hlookup.
    { intros c0 Hc0. destruct (get_goal_name_spec c0 name Hc0) as (_ & _ & Hok & Hfound).
      split.
      - intros [c' Hget]. destruct (Hok _ _ Hget) as (k & ? & ? & _). eauto.
      - intros (k & -> & Hk). by apply Hfound. }
    rewrite (Hlookup _ Hcache'), (Hlookup _ Hcache).
    cbn [add_goal set_c_goals c_goals]. split.
    + intros (k & -> & [?|(? & ? & ->)]%first_at_app); [left; eauto | by right].
    + intros [(k & -> & Hk)|(Hnone & Hname & ->)].
      * exists k. split; [done|]. apply first_at_app. by left.
      * eexists. split; [done|]. apply first_at_app. by right.
Qed.

(** ** [GoalCategory.copy] *)

Lemma grown_empty_refl h : grown_empty h h.
Proof. split; [done|]. intros a c Ha Hc. congruence. Qed.

Lemma grown_empty_trans h1 h2 h3 : grown_empty h1 h2 → grown_empty h2 h3 → grown_empty h1 h3.
Proof.
  intros [Hsub12 Hnew12] [Hsub23 Hnew23]. split; [by etrans|].
  intros a c Ha Hc. destruct (h2 !! a) as [c2|] eqn:H2.
  - rewrite (lookup_weaken _ _ _ _ H2 Hsub23) in Hc. injection Hc as <-. by eapply Hnew12.
  - by eapply Hnew23.
Qed.

Lemma grown_empty_lists h h' a :
  grown_empty h h' → items_at h' a = items_at h a ∧ reqs_at h' a = reqs_at h a.
Proof.
  intros [Hsub Hnew]. unfold items_at, reqs_at.
  destruct (h !! a) as [c|] eqn:Ha.
  - by rewrite (lookup_weaken _ _ _ _ Ha Hsub).
  - destruct (h' !! a) as [c|] eqn:Ha'; [|done].
    specialize (Hnew _ _ Ha Ha'). by destruct c as [[|??]|[|??]].
Qed.

Lemma or_new_grown_empty (o : option addr) (c : cell) (h h' : heap) (a : addr) :
  cell_length c = 0 → or_new o c h = (a, h') → grown_empty h h'.
Proof.
  intros Hc [(_ & _ & ->) | (_ & Ha & ->)]%or_new_spec; [apply grown_empty_refl|].
  apply not_elem_of_dom in Ha. split; [by apply insert_subseteq|].
  intros a' c' Ha' Hc'. destruct (decide (a' = a)) as [->|Hne].
  - rewrite lookup_insert_eq in Hc'. by injection Hc' as <-.
  - rewrite lookup_insert_ne in Hc' by done. congruence.
Qed.

Lemma truthy_false_lists (h : heap) (a : addr) :
  truthy h (Some a) = false → items_at h a = [] ∧ reqs_at h a = [].
Proof.
  unfold truthy, items_at, reqs_at. destruct (h !! a) as [[l|l]|]; [| |done].
  - intros Hl%bool_decide_eq_false. destruct l; [done|]. by destruct Hl.
  - intros Hl%bool_decide_eq_false. destruct l; [done|]. by destruct Hl.
Qed.

Lemma Goal_copy_spec (h : heap) (g g' : Goal) (h' : heap) :
  Goal_copy h g = Ok (g', h') → grown_empty h h' ∧ goal_copied h h' g g'.
Proof.
  unfold Goal_copy, Goal_init. rewrite andb_false_r.
  case_bool_decide as Hcolor; [|done].
  destruct (or_new (Some (g_items g)) _ h) as [a1 h1] eqn:H1.
  destruct (or_new (Some (g_required_locations g)) _ h1) as [a2 h2] eqn:H2.
  intros [= <- <-].
  pose proof (or_new_grown_empty _ (ItemList []) _ _ _ eq_refl H1) as G1.
  pose proof (or_new_grown_empty _ (ReqList []) _ _ _ eq_refl H2) as G2.
  pose proof (grown_empty_trans _ _ _ G1 G2) as G.
  split; [done|]. unfold goal_copied. cbn. split_and!; try done.
  - apply or_new_spec in H1 as [(_ & [= <-] & _) | (Ht & _ & ->)].
    + apply (grown_empty_lists _ _ (g_items g) G).
    + destruct (truthy_false_lists _ _ Ht) as [-> _].
      destruct (grown_empty_lists _ _ a1 G2) as [-> _].
      unfold items_at. by rewrite lookup_insert_eq.
  - apply or_new_spec in H2 as [(_ & [= <-] & _) | (Ht & _ & ->)].
    + apply (grown_empty_lists _ _ (g_required_locations g) G).
    + destruct (grown_empty_lists _ _ (g_required_locations g) G1) as [_ <-].
      destruct (truthy_false_lists _ _ Ht) as [_ ->].
      unfold reqs_at. by rewrite lookup_insert_eq.
Qed.

Lemma Goal_copy_raises (h : heap) (g : Goal) (e : exn) :
  Goal_copy h g = Raise e ↔
  (g_color g ∉ validColors)
  ∧ e = Exception ("Invalid goal: Color " +:+ g_color g +:+ " not supported").
Proof.
  unfold Goal_copy, Goal_init. rewrite andb_false_r. case_bool_decide as Hcolor.
  - destruct (or_new (Some (g_items g)) _ h) as [a1 h1].
    destruct (or_new (Some (g_required_locations g)) _ h1) as [a2 h2].
    split; [done | by intros [? _]].
  - split; [by intros [= <-] | by intros [_ ->]].
Qed.

Lemma goal_copied_grown h0 h h' h1 g g' :
  grown_empty h0 h → grown_empty h' h1 → goal_copied h h' g g' → goal_copied h0 h1 g g'.
Proof.
  intros G0 G1. unfold goal_copied.
  intros (? & ? & ? & ? & ? & ? & ? & ? & ? & ? & Hi & Hr). split_and!; try done.
  - destruct (grown_empty_lists _ _ (g_items g') G1) as [-> _]. rewrite Hi.
    apply (grown_empty_lists _ _ (g_items g) G0).
  - destruct (grown_empty_lists _ _ (g_required_locations g') G1) as [_ ->]. rewrite Hr.
    apply (grown_empty_lists _ _ (g_required_locations g) G0).
Qed.

Lemma copy_goals_spec (goals : list Goal) :
  ∀ h goals' h', copy_goals h goals = Ok (goals', h') →
    grown_empty h h' ∧ Forall2 (goal_copied h h') goals goals'.
Proof.
  induction goals as [|g goals IH]; intros h goals' h'; cbn [copy_goals].
  - intros [= <- <-]. split; [apply grown_empty_refl | constructor].
  - intros ([g1 h1] & H1 & H)%bind_Ok. cbn in H.
    apply bind_Ok in H as ([goals2 h2] & H2 & H). cbn in H. injection H as <- <-.
    apply Goal_copy_spec in H1 as [G1 C1]. apply IH in H2 as [G2 C2].
    split; [by eapply grown_empty_trans|]. constructor.
    + eapply goal_copied_grown; [apply grown_empty_refl | exact G2 | exact C1].
    + eapply Forall2_impl; [exact C2|]. intros g0 g0' C0.
      eapply goal_copied_grown; [exact G1 | apply grown_empty_refl | exact C0].
Qed.

Lemma copy_goals_raises (goals : list Goal) :
  ∀ h e, copy_goals h goals = Raise e →
    ∃ g, first_invalid_color goals g
         ∧ e = Exception ("Invalid goal: Color " +:+ g_color g +:+ " not supported").
Proof.
  induction goals as [|g goals IH]; intros h e; cbn [copy_goals]; [done|].
  destruct (Goal_copy h g) as [[g1 h1]|e1] eqn:H1; cbn.
  - destruct (copy_goals h1 goals) as [[goals2 h2]|e2] eqn:H2; cbn; [done|].
    intros [= <-]. destruct (IH _ _ H2) as (g0 & (k & Hk & Hcolor & Hfirst) & ?).
    exists g0. split; [|done]. exists (S k). split_and!; [done..|].
    intros [|j] g' Hj Hg'; [|apply (Hfirst j g'); [lia | done]].
    injection Hg' as <-. destruct (decide (g_color g ∈ validColors)) as [|Hinvalid]; [done|].
    assert (Goal_copy h g = Raise (Exception ("Invalid goal: Color " +:+ g_color g
                                              +:+ " not supported"))) as Hraise
      by (by apply Goal_copy_raises).
    congruence.
  - intros [= <-]. apply Goal_copy_raises in H1 as [? ?]. exists g. split; [|done].
    exists 0. split_and!; [done..|]. intros j g' Hj. lia.
Qed.

Lemma copy_goals_valid (goals : list Goal) :
  ∀ h goals' h', copy_goals h goals = Ok (goals', h') →
    ∀ g, g ∈ goals → g_color g ∈ validColors.
Proof.
  induction goals as [|g goals IH]; intros h goals' h'; cbn [copy_goals].
  - intros _ g Hg. by apply elem_of_nil in Hg.
  - intros ([g1 h1] & H1 & H)%bind_Ok. cbn in H.
    apply bind_Ok in H as ([goals2 h2] & H2 & H).
    intros g0 [->|Hg0]%elem_of_cons; [|by eapply IH].
    destruct (decide (g_color g ∈ validColors)) as [|Hinvalid]; [done|].
    assert (Goal_copy h g = Raise (Exception ("Invalid goal: Color " +:+ g_color g
                                              +:+ " not supported"))) as Hraise
      by (by apply Goal_copy_raises).
    congruence.
Qed.

Lemma copy_goals_returns (goals : list Goal) :
  (∀ g, g ∈ goals → g_color g ∈ validColors) →
  ∀ h, ∃ goals' h', copy_goals h goals = Ok (goals', h').
Proof.
  intros Hvalid h. destruct (copy_goals h goals) as [[goals' h']|e] eqn:Hrun; [eauto|].
  apply copy_goals_raises in Hrun as (g & (k & Hk & Hcolor & _) & _).
  destruct Hcolor. apply Hvalid. by eapply list_elem_of_lookup_2.
Qed.

(** X16. [GoalCategory.copy] takes a snapshot: the copy has the name, priority,
    goal count, minimum and locks of the category, weight 0 whatever the
    category's weight is, an empty goal cache, and as many goals in the
    same order, each with the attributes and list contents of the
    original, weight 0, an empty item cache, and no category: the copied
    goals are not bound to the copy. No list of the store changes; the
    lists that are new are empty. *)
Theorem GoalCategory_copy_snapshot (h : heap) (c c' : GoalCategory) (h' : heap) :
  GoalCategory_copy h c = Ok (c', h') →
  c_name c' = c_name c ∧ c_priority c' = c_priority c ∧ c_goal_count c' = c_goal_count c
  ∧ c_minimum_goals c' = c_minimum_goals c ∧ c_lock_locations c' = c_lock_locations c
  ∧ c_lock_entrances c' = c_lock_entrances c
  ∧ c_weight c' = 0%Z ∧ c_goal_cache c' = ∅
  ∧ Forall2 (goal_copied h h') (c_goals c) (c_goals c')
  ∧ h ⊆ h'
  ∧ (∀ a, items_at h' a = items_at h a ∧ reqs_at h' a = reqs_at h a).
Proof.
  unfold GoalCategory_copy. intros ([goals h1] & Hgoals & H)%bind_Ok. cbn in H.
  injection H as <- <-. apply copy_goals_spec in Hgoals as [G Hcopied].
  cbn. split_and!; try done; [apply G | intros a; by apply grown_empty_lists].
Qed.

(** X17. [GoalCategory.copy] raises exactly when one of the goals has a color
    that is not in [validColors] (a color set after the goal was created),
    and then with the exception of [Goal.__init__] for the color of the
    first such goal. *)
Theorem GoalCategory_copy_raises_iff (h : heap) (c : GoalCategory) :
  ((∃ e, GoalCategory_copy h c = Raise e) ↔ ∃ g, g ∈ c_goals c ∧ g_color g ∉ validColors)
  ∧ (∀ e, GoalCategory_copy h c = Raise e →
       ∃ g, first_invalid_color (c_goals c) g
            ∧ e = Exception ("Invalid goal: Color " +:+ g_color g +:+ " not supported")).
Proof.
  unfold GoalCategory_copy.
  destruct (copy_goals h (c_goals c)) as [[goals h1]|e1] eqn:Hrun; cbn.
  - split; [|done]. split; [by intros [e [=]]|]. intros (g & Hg & Hcolor).
    destruct Hcolor. by eapply copy_goals_valid.
  - apply copy_goals_raises in Hrun as (g & Hfirst & ->). split.
    + split; [|eauto]. intros _. destruct Hfirst as (k & Hk & Hcolor & _).
      exists g. split; [by eapply list_elem_of_lookup_2 | done].
    + intros e [= <-]. eauto.
Qed.

(** ** [replace_goal_names] *)

Lemma map_each_Forall2 {A B} (R : A → B → Prop) (f : A → result B) (l : list A) :
  ∀ l', map_each f l = Ok l' → (∀ x y, x ∈ l → f x = Ok y → R x y) → Forall2 R l l'.
Proof.
  induction l as [|x l IH]; intros l'; cbn [map_each].
  - intros [= <-] _. constructor.
  - intros (y & Hy & H)%bind_Ok Hf. apply bind_Ok in H as (l1 & Hl1 & [= <-]).
    constructor; [apply Hf; [by left | done]|].
    apply IH; [done|]. intros x' y' Hx'. apply Hf. by right.
Qed.

Lemma map_each_fixed {A} (f : A → result A) (l : list A) :
  (∀ x, x ∈ l → f x = Ok x) → map_each f l = Ok l.
Proof.
  induction l as [|x l IH]; intros Hf; cbn [map_each]; [done|].
  rewrite (Hf x) by (by left). rewrite Ok_bind, IH; [done|].
  intros x' Hx'. apply Hf. by right.
Qed.

Lemma map_each_returns {A B} (f : A → result B) (l : list A) :
  (∃ l', map_each f l = Ok l') ↔ ∀ x, x ∈ l → ∃ y, f x = Ok y.
Proof.
  induction l as [|x l IH]; cbn [map_each].
  - split; [intros _ x Hx; by apply elem_of_nil in Hx | eauto].
  - split.
    + intros [l' (y & Hy & H)%bind_Ok]. apply bind_Ok in H as (l1 & Hl1 & _).
      intros x' [->|Hx']%elem_of_cons; [eauto|]. apply IH; eauto.
    + intros Hf. destruct (Hf x) as [y ->]; [by left|].
      destruct (proj2 IH) as [l1 ->]; [intros x' Hx'; apply Hf; by right|]. eauto.
Qed.

Lemma map_each_raises {A B} (f : A → result B) (l : list A) (e : exn) :
  map_each f l = Raise e → ∃ x, x ∈ l ∧ f x = Raise e.
Proof.
  induction l as [|x l IH]; cbn [map_each]; [done|].
  destruct (f x) as [y|e1] eqn:Hx; cbn.
  - destruct (map_each f l) as [l1|e2]; cbn; [done|]. intros [= <-].
    destruct IH as (x' & ? & ?); [done|]. exists x'. split; [by right | done].
  - intros [= <-]. exists x. split; [by left | done].
Qed.

Lemma set_w_goal_categories_id (w : World) : set_w_goal_categories (w_goal_categories w) w = w.
Proof. by destruct w. Qed.

Lemma world_renamed_impl (R R' : Goal → Goal → Prop) (w w' : World) :
  (∀ e g g', e ∈ w_goal_categories w → g ∈ c_goals e.2 → R g g' → R' g g') →
  world_renamed R w w' → world_renamed R' w w'.
Proof.
  intros HR (categories & -> & Hcats). exists categories. split; [done|].
  apply Forall2_same_length_lookup. split; [by eapply Forall2_length|].
  intros k e e' He He'.
  destruct (Forall2_lookup_l _ _ _ _ _ Hcats He) as (e0 & He0 & Hkey & goals & Hgoals & HR0).
  rewrite He' in He0. injection He0 as <-. split; [done|]. exists goals. split; [done|].
  apply Forall2_same_length_lookup. split; [by eapply Forall2_length|].
  intros j g g' Hg Hg'.
  destruct (Forall2_lookup_l _ _ _ _ _ HR0 Hg) as (g0 & Hg0 & HRg).
  rewrite Hg' in Hg0. injection Hg0 as <-.
  eapply HR; [by eapply list_elem_of_lookup_2 | by eapply list_elem_of_lookup_2 | done].
Qed.

Lemma world_renamed_goals (R : Goal → Goal → Prop) (w w' : World) :
  world_renamed R w w' →
  ∀ e' g', e' ∈ w_goal_categories w' → g' ∈ c_goals e'.2 →
    ∃ e g, e ∈ w_goal_categories w ∧ g ∈ c_goals e.2 ∧ R g g'.
Proof.
  intros (categories & -> & Hcats) e' g' He' Hg'. cbn in He'.
  apply list_elem_of_lookup in He' as [k He'].
  destruct (Forall2_lookup_r _ _ _ _ _ Hcats He') as (e & He & _ & goals & Hgoals & HR).
  rewrite Hgoals in Hg'. cbn in Hg'. apply list_elem_of_lookup in Hg' as [j Hg'].
  destruct (Forall2_lookup_r _ _ _ _ _ HR Hg') as (g & Hg & HRg).
  exists e, g. split_and!; [by eapply list_elem_of_lookup_2.. | done].
Qed.

Section replace_goal_names_facts.
Variable settings : nat → Settings.
Variable get_filled_locations : nat → list Location.
Variable loc_type : Location → string.
Variable items : Location → option Item.
Variable BOSS_GOAL_TABLE : gmap string (string * string * string).
Variable REWARD_GOAL_TABLE : gmap string (string * string).

Local Abbreviation run :=
  (replace_goal_names settings get_filled_locations loc_type items BOSS_GOAL_TABLE
     REWARD_GOAL_TABLE).
Local Abbreviation run_world :=
  (replace_world_goal_names settings get_filled_locations loc_type items BOSS_GOAL_TABLE
     REWARD_GOAL_TABLE).
Local Abbreviation boss_list := (bosses settings get_filled_locations loc_type).
Local Abbreviation boss_mode world :=
  (shuffle_dungeon_rewards (settings (w_id world)) ∈ ["vanilla"; "reward"]).
Local Abbreviation text_of world flavor_text clear_text :=
  (HintStr (if clearer_hints (settings (w_id world)) then clear_text else flavor_text)).

Lemma rename_goals_spec (R : Goal → Goal → Prop) (f : Goal → result Goal) (w w' : World) :
  (∀ e g g', e ∈ w_goal_categories w → g ∈ c_goals e.2 → f g = Ok g' → R g g') →
  rename_goals f w = Ok w' → world_renamed R w w'.
Proof.
  intros Hf. unfold rename_goals. intros (categories & Hcats & [= <-])%bind_Ok.
  exists categories. split; [done|].
  eapply map_each_Forall2; [exact Hcats|]. intros e e' He. unfold rename_category.
  intros (goals & Hgoals & [= <-])%bind_Ok. split; [done|]. exists goals. split; [done|].
  eapply map_each_Forall2; [exact Hgoals|]. intros g g' Hg. by apply (Hf e).
Qed.

Lemma rename_goals_fixed (f : Goal → result Goal) (w : World) :
  (∀ e g, e ∈ w_goal_categories w → g ∈ c_goals e.2 → f g = Ok g) →
  rename_goals f w = Ok w.
Proof.
  intros Hf. unfold rename_goals. rewrite map_each_fixed.
  - by rewrite Ok_bind, set_w_goal_categories_id.
  - intros [key c] He. unfold rename_category. cbn [fst snd].
    rewrite map_each_fixed by (intros g Hg; by apply (Hf (key, c))).
    by rewrite Ok_bind, set_c_goals_id.
Qed.

Lemma rename_goals_returns (f : Goal → result Goal) (w : World) :
  (∃ w', rename_goals f w = Ok w') ↔
  ∀ e g, e ∈ w_goal_categories w → g ∈ c_goals e.2 → ∃ g', f g = Ok g'.
Proof.
  unfold rename_goals. split.
  - intros [w' (categories & Hcats & _)%bind_Ok] e g He Hg.
    destruct (proj1 (map_each_returns _ _) (ex_intro _ _ Hcats) e He) as [e' He'].
    unfold rename_category in He'. apply bind_Ok in He' as (goals & Hgoals & _).
    by apply (proj1 (map_each_returns _ _) (ex_intro _ _ Hgoals) g).
  - intros Hf. destruct (proj2 (map_each_returns (rename_category f) (w_goal_categories w)))
      as [categories ->]; [|eauto].
    intros e He. unfold rename_category.
    destruct (proj2 (map_each_returns f (c_goals e.2))) as [goals ->]; [|eauto].
    intros g Hg. by apply (Hf e).
Qed.

Lemma rename_goals_raises (f : Goal → result Goal) (w : World) (e : exn) :
  rename_goals f w = Raise e →
  ∃ entry g, entry ∈ w_goal_categories w ∧ g ∈ c_goals entry.2 ∧ f g = Raise e.
Proof.
  unfold rename_goals.
  destruct (map_each _ (w_goal_categories w)) as [categories|e1] eqn:Hcats; cbn; [done|].
  intros [= <-]. apply map_each_raises in Hcats as (entry & Hentry & Hraise).
  unfold rename_category in Hraise.
  destruct (map_each f (c_goals entry.2)) as [goals|e2] eqn:Hgoals; cbn in Hraise; [done|].
  injection Hraise as <-. apply map_each_raises in Hgoals as (g & Hg & Hraise). eauto.
Qed.

(** What the loop over the bosses does to a goal whose hint text is the
    dictionary [d]. *)
Lemma boss_goal_name_spec (world : World) (d : gmap string string) (goal goal' : Goal)
    (bs : list Location) :
  boss_goal_name settings items BOSS_GOAL_TABLE world d goal bs = Ok goal' →
  (goal' = goal
   ∧ ∀ boss, boss ∈ bs →
       ∃ i wanted, items boss = Some i ∧ d !! "replace" = Some wanted ∧ item_name i ≠ wanted)
  ∨ (∃ wanted boss flavor_text clear_text color,
       d !! "replace" = Some wanted
       ∧ first_holding items wanted bs boss
       ∧ BOSS_GOAL_TABLE !! loc_name boss = Some (flavor_text, clear_text, color)
       ∧ goal' = set_g_color color (set_g_hint_text (text_of world flavor_text clear_text) goal)).
Proof.
  induction bs as [|boss bs IH]; cbn [boss_goal_name].
  - intros [= <-]. left. split; [done|]. intros boss Hboss. by apply elem_of_nil in Hboss.
  - intros (i & Hi & H)%bind_Ok. apply bind_Ok in H as (wanted & Hwanted & H).
    destruct (items boss) as [i0|] eqn:Hitem; [|done]. injection Hi as ->.
    destruct (d !! "replace") as [wanted0|] eqn:Hd; [|done]. injection Hwanted as ->.
    destruct (decide (item_name i = wanted)) as [Heq|Hne].
    + apply bind_Ok in H as ([[flavor_text clear_text] color] & Htable & [= <-]).
      destruct (BOSS_GOAL_TABLE !! loc_name boss) as [entry|] eqn:Hentry; [|done].
      injection Htable as ->. right.
      exists wanted, boss, flavor_text, clear_text, color. split_and!; try done.
      exists 0. split_and!; [done | by exists i|]. intros j l Hj. lia.
    + destruct (IH H) as [[-> Hnone] | (wanted' & boss' & flavor_text & clear_text & color
                                        & Hw & Hfirst & Htable & ->)].
      * left. split; [done|]. intros boss' [->|Hboss']%elem_of_cons; [|by apply Hnone].
        by exists i, wanted.
      * right. exists wanted', boss', flavor_text, clear_text, color.
        injection Hw as <-. split_and!; try done.
        destruct Hfirst as (k & Hk & Hholds & Hbefore). exists (S k). split_and!; [done..|].
        intros [|j] l Hj Hl; [|apply (Hbefore j l); [lia | done]].
        injection Hl as <-. intros (i' & Hi' & Hname). congruence.
Qed.

Lemma boss_goal_name_world (world world' : World) (d : gmap string string) (goal : Goal)
    (bs : list Location) :
  w_id world' = w_id world →
  boss_goal_name settings items BOSS_GOAL_TABLE world' d goal bs
  = boss_goal_name settings items BOSS_GOAL_TABLE world d goal bs.
Proof.
  intros Hid. induction bs as [|boss bs IH]; cbn [boss_goal_name]; [done|].
  by rewrite IH, Hid.
Qed.

Lemma boss_goal_renamed (world : World) (bs : list Location) (g g' : Goal) :
  boss_goal settings items BOSS_GOAL_TABLE world bs g = Ok g' → goal_renamed g g'.
Proof.
  unfold boss_goal. destruct (g_hint_text g) as [s|d] eqn:Hd; [intros [= <-]; by left|].
  intros [[-> _] | (wanted & boss & flavor_text & clear_text & color & _ & _ & _ & ->)]
    %boss_goal_name_spec; [by left|].
  right. by eexists d, _, color.
Qed.

Lemma reward_goal_spec (world : World) (g g' : Goal) :
  reward_goal settings REWARD_GOAL_TABLE world g = Ok g' →
  (∃ s, g_hint_text g = HintStr s ∧ g' = g)
  ∨ (∃ d wanted flavor_text clear_text,
       g_hint_text g = HintDict d ∧ d !! "replace" = Some wanted
       ∧ REWARD_GOAL_TABLE !! wanted = Some (flavor_text, clear_text)
       ∧ g' = set_g_hint_text (text_of world flavor_text clear_text) g).
Proof.
  unfold reward_goal. destruct (g_hint_text g) as [s|d] eqn:Hd; [intros [= <-]; eauto|].
  intros (wanted & Hwanted & H)%bind_Ok.
  apply bind_Ok in H as ([flavor_text clear_text] & Htable & [= <-]).
  destruct (d !! "replace") as [wanted0|] eqn:Hw; [|done]. injection Hwanted as ->.
  destruct (REWARD_GOAL_TABLE !! wanted) as [entry|] eqn:Hentry; [|done].
  injection Htable as ->. right. by exists d, wanted, flavor_text, clear_text.
Qed.

Lemma set_g_color_id (g : Goal) : set_g_color (g_color g) g = g.
Proof. by destruct g. Qed.

Lemma reward_goal_renamed (world : World) (g g' : Goal) :
  reward_goal settings REWARD_GOAL_TABLE world g = Ok g' → goal_renamed g g'.
Proof.
  intros [(s & _ & ->) | (d & wanted & flavor_text & clear_text & Hd & _ & _ & ->)]
    %reward_goal_spec; [by left|].
  right. exists d, (if clearer_hints (settings (w_id world)) then clear_text else flavor_text),
           (g_color g). split; [done|].
  change (g_color g) with (g_color (set_g_hint_text (text_of world flavor_text clear_text) g)).
  by rewrite set_g_color_id.
Qed.

Lemma replace_world_renamed (w w' : World) :
  run_world w = Ok w' → world_renamed goal_renamed w w'.
Proof.
  unfold replace_world_goal_names. case_bool_decide.
  - apply rename_goals_spec. intros e g g' _ _. apply boss_goal_renamed.
  - apply rename_goals_spec. intros e g g' _ _. apply reward_goal_renamed.
Qed.

(** X18. [replace_goal_names] keeps the worlds, their categories and the goals
    of each category as they are, in number and order, but for the goals
    whose hint text is a dictionary: such a goal is left as it is or gets a
    plain text, and possibly another color. A goal with a plain text is
    never touched. *)
Theorem replace_goal_names_frame (worlds worlds' : list World) :
  run worlds = Ok worlds' →
  Forall2 (world_renamed goal_renamed) worlds worlds'
  ∧ Forall2 (world_renamed (λ g g', (∃ s, g_hint_text g = HintStr s) → g' = g)) worlds worlds'.
Proof.
  intros Hrun.
  assert (Forall2 (world_renamed goal_renamed) worlds worlds') as Hframe.
  { eapply map_each_Forall2; [exact Hrun|]. intros w w' _. apply replace_world_renamed. }
  split; [done|]. eapply Forall2_impl; [exact Hframe|]. intros w w'.
  apply world_renamed_impl. intros e g g' _ _ [->|(d & text & color & Hd & _)]; [done|].
  intros [s Hs]. congruence.
Qed.

Lemma first_holding_unique (wanted : string) (bs : list Location) (b1 b2 : Location) :
  first_holding items wanted bs b1 → first_holding items wanted bs b2 → b1 = b2.
Proof.
  intros (k1 & Hk1 & Hh1 & Hf1) (k2 & Hk2 & Hh2 & Hf2).
  destruct (Nat.lt_trichotomy k1 k2) as [Hlt|[->|Hlt]].
  - by destruct (Hf2 k1 b1 Hlt Hk1).
  - congruence.
  - by destruct (Hf1 k2 b2 Hlt Hk2).
Qed.

(** X19. In a world whose dungeon rewards are vanilla or shuffled among
    themselves, a goal whose hint text is a dictionary asking for a reward
    is named after the first boss location, in the order of the world's
    filled locations, that holds this reward: it gets the text and the color
    of that location's entry of [BOSS_GOAL_TABLE]. When no boss location
    holds the reward the goal keeps its dictionary. *)
Theorem replace_goal_names_first_boss (worlds worlds' : list World) :
  run worlds = Ok worlds' →
  Forall2 (λ w w',
     boss_mode w →
     world_renamed (λ g g',
        ∀ d wanted, g_hint_text g = HintDict d → d !! "replace" = Some wanted →
          ((∀ boss, boss ∈ boss_list w → ¬ holds items wanted boss) → g' = g)
          ∧ (∀ boss, first_holding items wanted (boss_list w) boss →
               ∃ flavor_text clear_text color,
                 BOSS_GOAL_TABLE !! loc_name boss = Some (flavor_text, clear_text, color)
                 ∧ g' = set_g_color color
                          (set_g_hint_text (text_of w flavor_text clear_text) g)))
       w w')
    worlds worlds'.
Proof.
  intros Hrun. eapply map_each_Forall2; [exact Hrun|]. intros w w' _ Hw Hmode.
  unfold replace_world_goal_names in Hw. rewrite bool_decide_eq_true_2 in Hw by done.
  eapply rename_goals_spec; [|exact Hw]. intros e g g' _ _ Hg d wanted Hd Hwanted.
  unfold boss_goal in Hg. rewrite Hd in Hg.
  apply boss_goal_name_spec in Hg
    as [[-> Hnone] | (wanted' & boss0 & flavor_text & clear_text & color
                      & Hw' & Hfirst & Htable & ->)].
  - split; [done|]. intros boss (k & Hk & (i & Hi & Hname) & _).
    destruct (Hnone boss) as (i' & wanted' & Hi' & Hw' & Hne);
      [by eapply list_elem_of_lookup_2|]. congruence.
  - assert (wanted' = wanted) as -> by congruence. split.
    + intros Hnone. destruct Hfirst as (k & Hk & Hholds & _).
      destruct (Hnone boss0); [by eapply list_elem_of_lookup_2 | done].
    + intros boss Hboss. rewrite (first_holding_unique _ _ _ _ Hboss Hfirst). eauto.
Qed.

Lemma reward_goal_returns (world : World) (g : Goal) :
  (∃ g', reward_goal settings REWARD_GOAL_TABLE world g = Ok g') ↔
  ∀ d, g_hint_text g = HintDict d →
    ∃ wanted, d !! "replace" = Some wanted ∧ is_Some (REWARD_GOAL_TABLE !! wanted).
Proof.
  unfold reward_goal. destruct (g_hint_text g) as [s|d]; [split; [done | eauto]|]. split.
  - intros [g' (wanted & Hwanted & H)%bind_Ok] d' [= <-].
    apply bind_Ok in H as (entry & Hentry & _).
    destruct (d !! "replace") as [wanted0|]; [|done]. injection Hwanted as ->.
    exists wanted. split; [done|].
    destruct (REWARD_GOAL_TABLE !! wanted) as [entry0|]; [eauto | done].
  - intros Hd. destruct (Hd d eq_refl) as (wanted & Hw & [[flavor_text clear_text] Ht]).
    rewrite Hw. cbn. rewrite Ht. cbn. eauto.
Qed.

Lemma reward_goal_raises (world : World) (g : Goal) (e : exn) :
  reward_goal settings REWARD_GOAL_TABLE world g = Raise e → e = KeyError.
Proof.
  unfold reward_goal. destruct (g_hint_text g) as [s|d]; [done|].
  destruct (d !! "replace") as [wanted|]; cbn; [|by intros [= <-]].
  destruct (REWARD_GOAL_TABLE !! wanted) as [[flavor_text clear_text]|]; cbn; [done|].
  by intros [= <-].
Qed.

(** X20. When no world has its dungeon rewards vanilla or shuffled among
    themselves, [replace_goal_names] fails exactly when some goal's
    dictionary has no ['replace'] entry or one that [REWARD_GOAL_TABLE] does
    not list, and then with [KeyError]. When it returns, every goal of
    every world has a plain hint text, and no goal has changed its
    color. *)
Theorem replace_goal_names_rewards (worlds : list World) :
  (∀ w, w ∈ worlds → ¬ boss_mode w) →
  ((∃ worlds', run worlds = Ok worlds') ↔
   ∀ g d, goal_of worlds g → g_hint_text g = HintDict d →
     ∃ wanted, d !! "replace" = Some wanted ∧ is_Some (REWARD_GOAL_TABLE !! wanted))
  ∧ (∀ e, run worlds = Raise e → e = KeyError)
  ∧ (∀ worlds', run worlds = Ok worlds' →
       (∀ g', goal_of worlds' g' → ∃ s, g_hint_text g' = HintStr s)
       ∧ Forall2 (world_renamed (λ g g', g_color g' = g_color g)) worlds worlds').
Proof.
  intros Hmode.
  assert (∀ w, w ∈ worlds →
            run_world w = rename_goals (reward_goal settings REWARD_GOAL_TABLE w) w) as Hworld.
  { intros w Hw. unfold replace_world_goal_names.
    rewrite bool_decide_eq_false_2; [done | by apply Hmode]. }
  split_and!.
  - unfold replace_goal_names. rewrite map_each_returns. split.
    + intros Hall g d (w & entry & Hw & Hentry & Hg).
      destruct (Hall w Hw) as [w' Hw']. rewrite Hworld in Hw' by done.
      destruct (proj1 (rename_goals_returns _ _) (ex_intro _ _ Hw') entry g Hentry Hg)
        as [g' Hg'].
      by apply (proj1 (reward_goal_returns w g) (ex_intro _ _ Hg')).
    + intros Hall w Hw. rewrite Hworld by done. apply rename_goals_returns.
      intros entry g Hentry Hg. apply reward_goal_returns. intros d Hd.
      apply (Hall g d); [|done]. by exists w, entry.
  - intros e (w & Hw & Hraise)%map_each_raises. rewrite Hworld in Hraise by done.
    apply rename_goals_raises in Hraise as (entry & g & _ & _ & Hraise).
    by eapply reward_goal_raises.
  - intros worlds' Hrun.
    assert (Forall2 (world_renamed (λ g g',
              (∃ s, g_hint_text g' = HintStr s) ∧ g_color g' = g_color g)) worlds worlds')
      as Hall.
    { eapply map_each_Forall2; [exact Hrun|]. intros w w' Hw Hw'.
      rewrite Hworld in Hw' by done. eapply rename_goals_spec; [|exact Hw'].
      intros entry g g' _ _ [(s & Hs & ->) | (d & wanted & flavor_text & clear_text & _ & _ & _
                                             & ->)]%reward_goal_spec; [eauto|].
      split; [|done]. cbn. eauto. }
    split.
    + intros g' (w' & entry' & Hw' & Hentry' & Hg').
      apply list_elem_of_lookup in Hw' as [k Hk].
      destruct (Forall2_lookup_r _ _ _ _ _ Hall Hk) as (w & _ & Hrenamed).
      destruct (world_renamed_goals _ _ _ Hrenamed entry' g' Hentry' Hg')
        as (entry & g & _ & _ & Hs & _). done.
    + eapply Forall2_impl; [exact Hall|]. intros w w'. apply world_renamed_impl.
      by intros entry g g' _ _ [_ ?].
Qed.

Lemma boss_goal_idem (world : World) (bs : list Location) (g g' : Goal) :
  boss_goal settings items BOSS_GOAL_TABLE world bs g = Ok g' →
  boss_goal settings items BOSS_GOAL_TABLE world bs g' = Ok g'.
Proof.
  intros Hg. pose proof Hg as Hg0. unfold boss_goal in Hg.
  destruct (g_hint_text g) as [s|d] eqn:Hd; [by injection Hg as <-|].
  apply boss_goal_name_spec in Hg
    as [[-> _] | (wanted & boss & flavor_text & clear_text & color & _ & _ & _ & ->)]; done.
Qed.

Lemma reward_goal_idem (world : World) (g g' : Goal) :
  reward_goal settings REWARD_GOAL_TABLE world g = Ok g' →
  reward_goal settings REWARD_GOAL_TABLE world g' = Ok g'.
Proof.
  intros Hg. pose proof Hg as Hg0.
  apply reward_goal_spec in Hg
    as [(s & _ & ->) | (d & wanted & flavor_text & clear_text & _ & _ & _ & ->)]; done.
Qed.

Lemma replace_world_idem (w w' : World) : run_world w = Ok w' → run_world w' = Ok w'.
Proof.
  unfold replace_world_goal_names. intros Hw.
  assert (w_id w' = w_id w) as Hid.
  { destruct (bool_decide _); apply rename_goals_spec with (R := λ _ _, True) in Hw;
      try done; by destruct Hw as (? & -> & _). }
  rewrite Hid. case_bool_decide as Hmode.
  - apply rename_goals_fixed. intros entry' g' Hentry' Hg'.
    pose proof (rename_goals_spec
                  (λ g g', boss_goal settings items BOSS_GOAL_TABLE w (boss_list w) g = Ok g')
                  _ w w' (λ _ _ _ _ _ H, H) Hw) as Hrenamed.
    destruct (world_renamed_goals _ _ _ Hrenamed entry' g' Hentry' Hg')
      as (entry & g & _ & _ & Hg).
    apply boss_goal_idem in Hg. unfold bosses. rewrite Hid.
    unfold boss_goal in *. destruct (g_hint_text g'); [done|].
    by rewrite (boss_goal_name_world w w').
  - apply rename_goals_fixed. intros entry' g' Hentry' Hg'.
    pose proof (rename_goals_spec
                  (λ g g', reward_goal settings REWARD_GOAL_TABLE w g = Ok g')
                  _ w w' (λ _ _ _ _ _ H, H) Hw) as Hrenamed.
    destruct (world_renamed_goals _ _ _ Hrenamed entry' g' Hentry' Hg')
      as (entry & g & _ & _ & Hg).
    apply reward_goal_idem in Hg. unfold reward_goal in *. by rewrite Hid.
Qed.

(** X21. [replace_goal_names] run again on its own result, with the locations
    and tables as they were, returns that result unchanged: the goals it
    named have a plain text, and those it left with their dictionary find
    no boss location again. *)
Theorem replace_goal_names_idempotent (worlds worlds' : list World) :
  run worlds = Ok worlds' → run worlds' = Ok worlds'.
Proof.
  intros Hrun. apply map_each_fixed. intros w' Hw'.
  pose proof (map_each_Forall2 (λ w w', run_world w = Ok w') _ _ _ Hrun (λ _ _ _ H, H))
    as Hall.
  apply list_elem_of_lookup in Hw' as [k Hk].
  destruct (Forall2_lookup_r _ _ _ _ _ Hall Hk) as (w & _ & Hw).
  by apply replace_world_idem in Hw.
Qed.

(** X22. When every color of [BOSS_GOAL_TABLE] is one of [validColors] and
    every goal of the worlds has a valid color, the goals still have valid
    colors after [replace_goal_names], so that [GoalCategory.copy] returns
    on every category of the resulting worlds. *)
Theorem replace_goal_names_keeps_valid_colors (worlds worlds' : list World) :
  (∀ name flavor_text clear_text color,
     BOSS_GOAL_TABLE !! name = Some (flavor_text, clear_text, color) → color ∈ validColors) →
  (∀ g, goal_of worlds g → g_color g ∈ validColors) →
  run worlds = Ok worlds' →
  (∀ g', goal_of worlds' g' → g_color g' ∈ validColors)
  ∧ (∀ w' entry' h, w' ∈ worlds' → entry' ∈ w_goal_categories w' →
       ∃ c h', GoalCategory_copy h entry'.2 = Ok (c, h')).
Proof.
  intros Htable Hvalid Hrun.
  assert (∀ g', goal_of worlds' g' → g_color g' ∈ validColors) as Hvalid'.
  { intros g' (w' & entry' & Hw' & Hentry' & Hg').
    assert (Forall2 (λ w w', w ∈ worlds ∧ world_renamed (λ g g',
              g_color g' = g_color g
              ∨ ∃ name flavor_text clear_text,
                  BOSS_GOAL_TABLE !! name = Some (flavor_text, clear_text, g_color g')) w w')
              worlds worlds') as Hall.
    { eapply map_each_Forall2; [exact Hrun|]. intros w w0 Hw Hw0. split; [done|].
      unfold replace_world_goal_names in Hw0. destruct (bool_decide _).
      - eapply rename_goals_spec; [|exact Hw0]. intros entry g g0 _ _ Hg.
        unfold boss_goal in Hg. destruct (g_hint_text g) as [s|d]; [injection Hg as <-; by left|].
        apply boss_goal_name_spec in Hg
          as [[-> _] | (wanted & boss & flavor_text & clear_text & color & _ & _ & Hentry & ->)];
          [by left|]. right. by exists (loc_name boss), flavor_text, clear_text.
      - eapply rename_goals_spec; [|exact Hw0]. intros entry g g0 _ _ Hg. left.
        apply reward_goal_spec in Hg
          as [(s & _ & ->) | (d & wanted & flavor_text & clear_text & _ & _ & _ & ->)]; done. }
    apply list_elem_of_lookup in Hw' as [k Hk].
    destruct (Forall2_lookup_r _ _ _ _ _ Hall Hk) as (w & _ & Hw & Hrenamed).
    destruct (world_renamed_goals _ _ _ Hrenamed entry' g' Hentry' Hg')
      as (entry & g & Hentry & Hg & [-> | (name & flavor_text & clear_text & Hname)]).
    - apply Hvalid. by exists w, entry.
    - by eapply Htable. }
  split; [done|]. intros w' entry' h Hw' Hentry'. unfold GoalCategory_copy.
  destruct (copy_goals_returns (c_goals entry'.2)) with (h := h) as (goals & h' & ->).
  - intros g Hg. apply Hvalid'. by exists w', entry'.
  - cbn. eauto.
Qed.

End replace_goal_names_facts.

(** ** The properties on the small world *)

Lemma sample_search_returns search_woth :
  sample_search search_woth = Some (Ok (sample_final search_woth)).
Proof. destruct search_woth; vm_compute; reflexivity. Qed.

Lemma sample_recorded :
  recorded (sv_required (sample_final true)) "bridge" "open bridge" 0 (deku_tree, 1%Z, 1%Z).
Proof.
  unfold recorded. eexists _, _, _. split_and!.
  - vm_compute. reflexivity.
  - vm_compute. reflexivity.
  - vm_compute. reflexivity.
  - by left.
Qed.

Lemma sample_credit_returns categories :
  categories = sample_categories ∨ categories = reverse sample_categories →
  sample_credit categories = Ok (sample_credited categories).
Proof. intros [->| ->]; vm_compute; reflexivity. Qed.

Lemma bridge_can_claim :
  can_claim sample_item_table sample_heap
    (sample_valid_goals sample_heap sample_items sample_categories) sample_detached [0]
    (Some medallion) ("bridge", bridge)
    (set_g_category (Some "bridge") (sample_goal "open bridge" 0)) 0.
Proof.
  split_and!; [by left | eexists; split; vm_compute; reflexivity|].
  eexists _, _, _, _, _. split_and!; try (vm_compute; reflexivity).
  - by left.
  - apply not_elem_of_nil.
  - by left.
Qed.

Lemma trials_can_claim :
  can_claim sample_item_table sample_heap
    (sample_valid_goals sample_heap sample_items sample_categories) sample_detached [0]
    (Some medallion) ("trials", trials)
    (set_g_category (Some "trials") (sample_goal "trial" 0)) 0.
Proof.
  split_and!; [by left | eexists; split; vm_compute; reflexivity|].
  eexists _, _, _, _, _. split_and!; try (vm_compute; reflexivity).
  - by left.
  - apply not_elem_of_nil.
  - by left.
Qed.

Lemma sample_by_priority : by_priority sample_categories.
Proof.
  intros [|[|j]] [|[|k]] e1 e2 Hjk Hj Hk; try lia; try done.
  injection Hj as <-. injection Hk as <-. cbn. lia.
Qed.

Lemma sample_nothing_recorded c g w x : ¬ recorded (∅ : RequiredLocations) c g w x.
Proof. intros (d & ws & l & Hc & _). by rewrite lookup_empty in Hc. Qed.


Lemma sealed_cave_not_yielded : sealed_cave ∉ sv_yielded (sample_final true).
Proof. apply (bool_decide_unpack _). vm_compute. exact I. Qed.

(** C5 on the small world: the sealed cave is never yielded. *)
Lemma search_goals_unreached_locations_witness :
  sample_search true = Some (Ok (sample_final true))
  ∧ (sealed_cave ∉ sv_yielded (sample_final true))
  ∧ (∀ c g w x, recorded (sv_required (sample_final true)) c g w x → x.1.1 ≠ sealed_cave)
  ∧ (∀ l, sv_required (sample_final true) !! "way of the hero" = Some (RLList l) →
       sealed_cave ∉ l)
  ∧ sealed_cave ∈ sv_misc_hints (sample_final true).
Proof.
  destruct (search_goals_unreached_locations sample_item_table sample_heap (λ _, [])
              (sample_valid_goals sample_heap sample_items sample_categories)
              [deku_tree; skull_house; sealed_cave] [deku_tree; skull_house] ["Skull House"]
              true sample_categories [deku_tree; skull_house] {[0 := ∅]} sample_items
              (sample_final true) (sample_search_returns true) sealed_cave)
    as (Hrec & Hwoth & _ & _ & Hmisc).
  - right. right. by left.
  - apply sealed_cave_not_yielded.
  - split_and!; [apply sample_search_returns | apply sealed_cave_not_yielded | done..].
Defined.

(** C6 on the small world: the tuple of the Deku Tree. *)
Lemma search_goals_weights_witness :
  sample_search true = Some (Ok (sample_final true))
  ∧ recorded (sv_required (sample_final true)) "bridge" "open bridge" 0 (deku_tree, 1%Z, 1%Z)
  ∧ ∃ e goal, e ∈ sv_categories (sample_final true) ∧ c_name e.2 = "bridge"
      ∧ c_weight e.2 = 1%Z ∧ goal ∈ c_goals e.2 ∧ g_name goal = "open bridge"
      ∧ g_weight goal = 1%Z.
Proof.
  split; [apply sample_search_returns|]. split; [apply sample_recorded|].
  apply (search_goals_weights sample_item_table sample_heap (λ _, [])
           (sample_valid_goals sample_heap sample_items sample_categories)
           [deku_tree; skull_house; sealed_cave] [deku_tree; skull_house] ["Skull House"]
           true sample_categories [deku_tree; skull_house] {[0 := ∅]} sample_items
           (sample_final true) (sample_search_returns true)
           "bridge" "open bridge" 0 deku_tree 1%Z 1%Z sample_recorded).
Defined.

Lemma tokens_goal_requires_token (e : string * GoalCategory) (goal : Goal) :
  e ∈ sample_categories → c_name e.2 = "bridge" → goal ∈ c_goals e.2 → g_name goal = "tokens" →
  Goal_requires sample_item_table sample_heap goal (item_name token) = Ok true.
Proof.
  intros He Hc Hgoal Hg. unfold sample_categories in He.
  apply elem_of_cons in He as [->|He]; [|apply list_elem_of_singleton in He as ->; done].
  cbn in Hgoal. apply elem_of_cons in Hgoal as [->|Hgoal]; [done|].
  apply list_elem_of_singleton in Hgoal as ->. vm_compute. reflexivity.
Qed.

(** C7 on the small world: without the token of the Skull House the goal on
    tokens is beatable in no world, and yet the Skull House is not stored
    for it. *)
Lemma search_goals_skips_required_items_witness :
  sample_search true = Some (Ok (sample_final true))
  ∧ beatable_worlds sample_heap (<[skull_house := None]> sample_items) (sample_goal "tokens" 1)
    = []
  ∧ ∀ w a b, ¬ recorded (sv_required (sample_final true)) "bridge" "tokens" w
                 (skull_house, a, b).
Proof.
  split; [apply sample_search_returns|]. split; [vm_compute; reflexivity|].
  apply (proj2 (search_goals_skips_required_items sample_item_table sample_heap (λ _, [])
                  (sample_valid_goals sample_heap sample_items sample_categories)
                  [deku_tree; skull_house; sealed_cave] [deku_tree; skull_house]
                  ["Skull House"] true sample_categories [deku_tree; skull_house] {[0 := ∅]}
                  sample_items)
           (sample_final true) (sample_search_returns true) "bridge" "tokens" skull_house token).
  - reflexivity.
  - apply tokens_goal_requires_token.
Defined.

Lemma sample_engine_flag (items : Location → option Item)
    (categories : list (string * GoalCategory)) (search : list Location) :
  ∃ b, beatable_goals sample_heap items categories search !! "way of the hero"
       = Some (VFlag b).
Proof. eexists. apply lookup_insert_eq. Qed.

(** C10 on the small world, with and without [search_woth]. *)
Lemma search_goals_way_of_the_hero_key_witness :
  (is_Some (sv_required (sample_final true) !! "way of the hero") ↔ true = true)
  ∧ (is_Some (sv_required (sample_final false) !! "way of the hero") ↔ false = true)
  ∧ take_way_of_the_hero ∅ (sv_required (sample_final true))
    = Ok ([deku_tree], delete "way of the hero" (sv_required (sample_final true) ∪ ∅)).
Proof.
  destruct (search_goals_way_of_the_hero_key sample_item_table sample_heap (λ _, [])
              (sample_valid_goals sample_heap sample_items sample_categories)
              [deku_tree; skull_house; sealed_cave] [deku_tree; skull_house] ["Skull House"]
              true sample_categories [deku_tree; skull_house] {[0 := ∅]} sample_items
              (sample_final true) (or_introl sample_engine_flag)
              (sample_search_returns true))
    as [Hkey Htake].
  destruct (search_goals_way_of_the_hero_key sample_item_table sample_heap (λ _, [])
              (sample_valid_goals sample_heap sample_items sample_categories)
              [deku_tree; skull_house; sealed_cave] [deku_tree; skull_house] ["Skull House"]
              false sample_categories [deku_tree; skull_house] {[0 := ∅]} sample_items
              (sample_final false) (or_introl sample_engine_flag)
              (sample_search_returns false))
    as [Hkey' _].
  split; [exact Hkey|]. split; [exact Hkey'|].
  destruct (Htake eq_refl) as (l & Hl & Hread).
  vm_compute in Hl. injection Hl as <-. apply Hread.
Defined.

Lemma sample_update_returns :
  update_reachable_goals (λ _, sample_world 0) sample_count sample_has_item_goal
    bridge [∅] [sample_full_state] sample_heap = Ok sample_updated_heap.
Proof. vm_compute. reflexivity. Qed.

Lemma sample_has_item_goal_quantity (st : gmap string Z) (i i' : GoalItem) :
  gi_name i' = gi_name i → gi_minimum i' = gi_minimum i → gi_hintable i' = gi_hintable i →
  sample_has_item_goal st i' = sample_has_item_goal st i.
Proof. intros Hn Hm _. unfold sample_has_item_goal. by rewrite Hn, Hm. Qed.

Lemma sample_has_item_goal_minimum (st : gmap string Z) (i : GoalItem) :
  sample_has_item_goal st i = true → (gi_minimum i ≤ sample_count st (gi_name i))%Z.
Proof. intros Hi. by apply bool_decide_eq_true in Hi. Qed.

(** C2 on the small world: 70 tokens can be obtained where a goal asks for
    100 and at least 50, and the goal then asks for 70. *)
Lemma update_reachable_goals_keeps_minimum_witness :
  update_reachable_goals (λ _, sample_world 0) sample_count sample_has_item_goal
    bridge [∅] [sample_full_state] sample_heap = Ok sample_updated_heap
  ∧ items_at sample_heap 1
    = [ {| gi_name := "Gold Skulltula Token"; gi_quantity := 100; gi_minimum := 50;
           gi_hintable := false |} ]
  ∧ items_at sample_updated_heap 1
    = [ {| gi_name := "Gold Skulltula Token"; gi_quantity := 70; gi_minimum := 50;
           gi_hintable := false |} ].
Proof.
  destruct (update_reachable_goals_keeps_minimum (λ _ : gmap string Z, sample_world 0)
              sample_count sample_has_item_goal sample_has_item_goal_quantity
              sample_has_item_goal_minimum
              bridge [∅] [sample_full_state] sample_heap) as (_ & Hrun & _).
  destruct (Hrun _ sample_update_returns) as (_ & _ & Hexact).
  split; [exact sample_update_returns|]. split; [vm_compute; reflexivity|].
  etransitivity;
    [apply (Hexact 0 (set_g_category (Some "bridge") (sample_goal "tokens" 1))
              sample_full_state)|].
  - exists ∅, bridge. split_and!; [reflexivity | reflexivity|]. right. by left.
  - reflexivity.
  - intros index' goal' (state & wc & Hstate & _) _.
    apply list_lookup_singleton_Some in Hstate as [-> _]. reflexivity.
  - vm_compute. reflexivity.
Defined.

(** C3, as amended, on two worlds and two entrances. *)
Lemma unlock_restores_locked_entrances_witness :
  ∃ category_locks locked,
    lock_category_entrances sample_world bridge [0; 1] sample_entrances
    = Ok (category_locks, locked)
    ∧ (∀ state n, state ∈ [0; 1] → n ∈ default [] (c_lock_entrances bridge) →
         locked !! (w_id (sample_world state), n) = Some locked_rule)
    ∧ (default [] (c_lock_entrances bridge) = [] → locked = sample_entrances)
    ∧ unlock_category_entrances sample_world category_locks [0; 1] locked = Ok sample_entrances.
Proof.
  apply (unlock_restores_locked_entrances sample_world bridge [0; 1] sample_entrances).
  - apply (bool_decide_unpack _). vm_compute. exact I.
  - apply (bool_decide_unpack _). vm_compute. exact I.
  - intros state n Hstate Hn.
    apply elem_of_cons in Hstate as [->|Hstate];
      [|apply list_elem_of_singleton in Hstate as ->];
      (apply elem_of_cons in Hn as [->|Hn];
       [|apply list_elem_of_singleton in Hn as ->]); vm_compute; eauto.
Defined.

(** C3 as stated fails: when a category names an entrance twice, the second
    pass saves the constant-false rule over the rule saved first, and the
    entrance stays locked after unlocking. *)
Lemma lock_twice_loses_the_rule :
  passable sample_entrances (0, "Bridge") 0 = Ok true
  ∧ (restored ← lock_then_unlock sample_world twice_locked [0] sample_entrances;
     passable restored (0, "Bridge") 0) = Ok false.
Proof. split; vm_compute; reflexivity. Qed.

(** C9, as amended, on a goal of the small world: the items are shared, the
    empty list of required locations is not. *)
Lemma Goal_copy_shares_nonempty_lists_witness :
  "White" ∈ validColors
  ∧ ∃ g' h', Goal_copy sample_heap (sample_goal "open bridge" 0) = Ok (g', h')
      ∧ g_weight g' = 0%Z ∧ g_category g' = None
      ∧ g_items g' = 0
      ∧ (g_required_locations g' ∉ dom sample_heap)
      ∧ h' !! g_required_locations g' = Some (ReqList []).
Proof.
  split; [by left|].
  destruct (Goal_copy_shares_nonempty_lists sample_heap (sample_goal "open bridge" 0))
    as (g' & h' & Hcopy & Hw & Hc & _ & _ & _ & Hitems & Hreqs & _); [by left|].
  exists g', h'. split_and!; try done; apply Hreqs.
Defined.

(** C4 on two worlds whose way of the hero is the Deku Tree. *)
Lemma default_goal_synthesized_witness :
  ∃ worlds' spoiler' h',
    report_goal_items no_regroup [sample_world_without_ganon 0; sample_world_without_ganon 1]
      sample_spoiler ∅ {["way of the hero" := RLList [deku_tree]]} sample_heap
    = Ok (worlds', spoiler', h')
    ∧ Forall2 (λ world world',
         ∃ c g,
           world' = set_w_goal_categories (dict_set "ganon" c (w_goal_categories world)) world
           ∧ c_name c = "ganon" ∧ c_priority c = 30%Z ∧ c_goals c = [g]
           ∧ g_name g = "the hero"
           ∧ reqs_at h' (g_required_locations g)
             = (λ location, (location, 1, 1, [w_id world])%Z)
               <$> filter (λ location, loc_world location = w_id world) [deku_tree])
       [sample_world_without_ganon 0; sample_world_without_ganon 1] worlds'
    ∧ (∀ world, world ∈ [sample_world_without_ganon 0; sample_world_without_ganon 1] →
         sp_required_locations spoiler' !! w_id world
         = Some (filter (λ location, loc_world location = w_id world) [deku_tree])
         ∧ default_spoiler h' [deku_tree] (sp_goal_categories spoiler')
             (sp_goal_locations spoiler') world).
Proof.
  apply (default_goal_synthesized no_regroup
           [sample_world_without_ganon 0; sample_world_without_ganon 1] sample_spoiler ∅
           {["way of the hero" := RLList [deku_tree]]} sample_heap [deku_tree]
           (sample_world_without_ganon 0) [sample_world_without_ganon 1]).
  - vm_compute. reflexivity.
  - reflexivity.
  - reflexivity.
  - reflexivity.
  - reflexivity.
Defined.

(** ** The further properties on the small world *)

(** [get_item] on the goal on tokens, before and after
    [update_reachable_goals] has lowered the quantity from 100 to 70: the
    same dictionary, with the quantity it holds by then. *)
Lemma Goal_get_item_first_match_witness :
  Goal_get_item sample_heap (sample_goal "tokens" 1) "Gold Skulltula Token"
  = Ok (0, sample_cached_goal)
  ∧ Goal_get_item sample_updated_heap sample_cached_goal "Gold Skulltula Token"
    = Ok (0, sample_cached_goal)
  ∧ gi_quantity <$> item_at sample_heap sample_cached_goal 0 = Some 100%Z
  ∧ gi_quantity <$> item_at sample_updated_heap sample_cached_goal 0 = Some 70%Z.
Proof.
  assert (Goal_get_item sample_heap (sample_goal "tokens" 1) "Gold Skulltula Token"
          = Ok (0, sample_cached_goal)) as Hget by (vm_compute; reflexivity).
  destruct (Goal_get_item_first_match sample_heap (sample_goal "tokens" 1)
              "Gold Skulltula Token") as (_ & _ & _ & Hupdate).
  { intros name k Hk. cbn in Hk. by rewrite lookup_empty in Hk. }
  destruct (Hupdate 0 sample_cached_goal Hget _ _ _ _ _ _ _ _ sample_update_returns)
    as (_ & Hget' & _).
  split_and!; [exact Hget | exact Hget' | vm_compute; reflexivity..].
Defined.

Lemma bridge_cache_coherent : goal_cache_coherent bridge.
Proof.
  intros name k Hk. change (c_goal_cache bridge) with (∅ : gmap string nat) in Hk.
  by rewrite lookup_empty in Hk.
Qed.

Lemma sample_solver_keeps_names :
  same_names g_name (c_goals bridge) (c_goals sample_bridge_after).
Proof. vm_compute. by repeat constructor. Qed.

(** [get_goal] on the bridge category, before and after [search_goals] has
    set the weight of the goal of the bridge: the same goal, with the
    weight it has by then. *)
Lemma get_goal_first_match_witness :
  GoalCategory_get_goal bridge (inr "open bridge") = Ok (Listed 0, sample_cached_bridge)
  ∧ GoalCategory_get_goal sample_bridge_after (inr "open bridge")
    = Ok (Listed 0, sample_bridge_after)
  ∧ g_weight <$> goal_at sample_cached_bridge (Listed 0) = Some 0%Z
  ∧ g_weight <$> goal_at sample_bridge_after (Listed 0) = Some 1%Z.
Proof.
  assert (GoalCategory_get_goal bridge (inr "open bridge")
          = Ok (Listed 0, sample_cached_bridge)) as Hget by (vm_compute; reflexivity).
  destruct (get_goal_first_match bridge "open bridge" bridge_cache_coherent)
    as (_ & _ & _ & Hok & _).
  destruct (Hok _ _ Hget) as (k & [= <-] & _ & _ & Hagain).
  destruct (Hagain sample_bridge_after sample_solver_keeps_names eq_refl)
    as (_ & Hget' & _).
  split_and!; [exact Hget | exact Hget' | vm_compute; reflexivity..].
Defined.

(** A second goal named ['tokens'] added to the bridge category comes last
    and is not the one a lookup finds. *)
Lemma add_goal_then_get_goal_witness :
  goal_cache_coherent (add_goal bridge (sample_goal "tokens" 0))
  ∧ (∃ c', GoalCategory_get_goal (add_goal bridge (sample_goal "tokens" 0)) (inr "tokens")
           = Ok (Listed 1, c'))
  ∧ goal_at (add_goal bridge (sample_goal "tokens" 0)) (Listed 2)
    = Some (set_g_category (Some "bridge") (sample_goal "tokens" 0)).
Proof.
  destruct (add_goal_then_get_goal bridge (sample_goal "tokens" 0) "tokens"
              bridge_cache_coherent) as (Hcache & _ & Hlast & Hlookup).
  split_and!; [exact Hcache | | exact Hlast].
  apply Hlookup. left. eexists. vm_compute. reflexivity.
Defined.

(** A copy of the bridge category. *)
Lemma GoalCategory_copy_snapshot_witness :
  GoalCategory_copy sample_heap bridge = Ok (sample_copy.1, sample_copy.2)
  ∧ c_name sample_copy.1 = "bridge"
  ∧ c_weight sample_copy.1 = 0%Z
  ∧ Forall2 (goal_copied sample_heap sample_copy.2) (c_goals bridge) (c_goals sample_copy.1)
  ∧ (∀ a, items_at sample_copy.2 a = items_at sample_heap a
          ∧ reqs_at sample_copy.2 a = reqs_at sample_heap a).
Proof.
  assert (GoalCategory_copy sample_heap bridge = Ok (sample_copy.1, sample_copy.2)) as Hcopy
    by (vm_compute; reflexivity).
  split; [exact Hcopy|].
  destruct (GoalCategory_copy_snapshot sample_heap bridge sample_copy.1 sample_copy.2 Hcopy)
    as (Hname & _ & _ & _ & _ & _ & Hweight & _ & Hgoals & _ & Hlists).
  split_and!; [exact Hname | exact Hweight | exact Hgoals | exact Hlists].
Defined.

Lemma sample_replace_returns worlds :
  worlds = [naming_world 0; naming_world 1] ∨ worlds = [naming_world 1] →
  sample_replace worlds = Ok (sample_renamed worlds).
Proof. intros [-> | ->]; vm_compute; reflexivity. Qed.

(** [replace_goal_names] on the two worlds. *)
Lemma replace_goal_names_frame_witness :
  Forall2 (world_renamed goal_renamed) [naming_world 0; naming_world 1]
    (sample_renamed [naming_world 0; naming_world 1])
  ∧ Forall2 (world_renamed (λ g g', (∃ s, g_hint_text g = HintStr s) → g' = g))
      [naming_world 0; naming_world 1] (sample_renamed [naming_world 0; naming_world 1]).
Proof.
  apply (replace_goal_names_frame sample_settings sample_filled sample_type sample_boss_items
           sample_boss_table sample_reward_table).
  apply sample_replace_returns. by left.
Defined.

(** In world 0 the goal is named after Queen Gohma. *)
Lemma replace_goal_names_first_boss_witness :
  Forall2 (λ w w',
     shuffle_dungeon_rewards (sample_settings (w_id w)) ∈ ["vanilla"; "reward"] →
     world_renamed (λ g g',
        ∀ d wanted, g_hint_text g = HintDict d → d !! "replace" = Some wanted →
          ((∀ boss, boss ∈ bosses sample_settings sample_filled sample_type w →
              ¬ holds sample_boss_items wanted boss) → g' = g)
          ∧ (∀ boss,
               first_holding sample_boss_items wanted
                 (bosses sample_settings sample_filled sample_type w) boss →
               ∃ flavor_text clear_text color,
                 sample_boss_table !! loc_name boss = Some (flavor_text, clear_text, color)
                 ∧ g' = set_g_color color
                          (set_g_hint_text
                             (HintStr (if clearer_hints (sample_settings (w_id w))
                                       then clear_text else flavor_text)) g)))
       w w')
    [naming_world 0; naming_world 1] (sample_renamed [naming_world 0; naming_world 1]).
Proof.
  apply (replace_goal_names_first_boss sample_settings sample_filled sample_type
           sample_boss_items sample_boss_table sample_reward_table).
  apply sample_replace_returns. by left.
Defined.

(** In world 1 the goal is named after the reward it asks for. *)
Lemma replace_goal_names_rewards_witness :
  (∃ worlds', sample_replace [naming_world 1] = Ok worlds')
  ∧ (∀ g', goal_of (sample_renamed [naming_world 1]) g' → ∃ s, g_hint_text g' = HintStr s)
  ∧ Forall2 (world_renamed (λ g g', g_color g' = g_color g)) [naming_world 1]
      (sample_renamed [naming_world 1]).
Proof.
  destruct (replace_goal_names_rewards sample_settings sample_filled sample_type
              sample_boss_items sample_boss_table sample_reward_table [naming_world 1])
    as (_ & _ & Hok).
  - intros w ->%list_elem_of_singleton. apply (bool_decide_unpack _). vm_compute. exact I.
  - split; [eexists; apply sample_replace_returns; by right|].
    apply Hok, sample_replace_returns. by right.
Defined.

(** Running [replace_goal_names] again changes nothing. *)
Lemma replace_goal_names_idempotent_witness :
  sample_replace (sample_renamed [naming_world 0; naming_world 1])
  = Ok (sample_renamed [naming_world 0; naming_world 1]).
Proof.
  apply (replace_goal_names_idempotent sample_settings sample_filled sample_type
           sample_boss_items sample_boss_table sample_reward_table
           [naming_world 0; naming_world 1]).
  apply sample_replace_returns. by left.
Defined.

Lemma naming_goals_valid (g : Goal) :
  goal_of [naming_world 0; naming_world 1] g → g_color g ∈ validColors.
Proof.
  intros (w & e & Hw & He & Hg).
  assert (w_goal_categories w = [("stones", stones)]) as Hcats.
  { apply elem_of_cons in Hw as [->|Hw]; [done|]. by apply list_elem_of_singleton in Hw as ->. }
  rewrite Hcats in He. apply list_elem_of_singleton in He as ->. cbn in Hg.
  apply elem_of_cons in Hg as [->|Hg]; [by left|].
  apply list_elem_of_singleton in Hg as ->. by left.
Qed.

(** The colors stay valid, and the categories can be copied. *)
Lemma replace_goal_names_keeps_valid_colors_witness :
  (∀ g', goal_of (sample_renamed [naming_world 0; naming_world 1]) g' →
     g_color g' ∈ validColors)
  ∧ (∀ w' entry' h, w' ∈ sample_renamed [naming_world 0; naming_world 1] →
       entry' ∈ w_goal_categories w' → ∃ c h', GoalCategory_copy h entry'.2 = Ok (c, h')).
Proof.
  apply (replace_goal_names_keeps_valid_colors sample_settings sample_filled sample_type
           sample_boss_items sample_boss_table sample_reward_table
           [naming_world 0; naming_world 1]).
  - intros name flavor_text clear_text color Hentry. unfold sample_boss_table in Hentry.
    apply lookup_singleton_Some in Hentry as [_ [= _ _ <-]].
    apply (bool_decide_unpack _). vm_compute. exact I.
  - apply naming_goals_valid.
  - apply sample_replace_returns. by left.
Defined.

(** The items of the small world after the search. *)
Lemma search_goals_restores_items_witness :
  sample_search true = Some (Ok (sample_final true))
  ∧ ∀ L, sv_items (sample_final true) L = sample_items L.
Proof.
  split; [apply sample_search_returns|].
  apply (search_goals_restores_items sample_item_table sample_heap (λ _, [])
           (sample_valid_goals sample_heap sample_items sample_categories)
           [deku_tree; skull_house; sealed_cave] [deku_tree; skull_house] ["Skull House"]
           true sample_categories [deku_tree; skull_house] {[0 := ∅]} sample_items
           (sample_final true) (sample_search_returns true)).
Defined.

(** The three locations of the small world are each marked once. *)
Lemma search_goals_marks_every_location_witness :
  sv_misc_hints (sample_final true) ≡ₚ [deku_tree; skull_house; sealed_cave]
  ∧ sv_yielded (sample_final true) ++ sv_remaining (sample_final true)
    ≡ₚ [deku_tree; skull_house; sealed_cave]
  ∧ (∀ L, L ∈ sv_yielded (sample_final true) → L ∈ [deku_tree; skull_house; sealed_cave])
  ∧ (NoDup [deku_tree; skull_house; sealed_cave] → NoDup (sv_yielded (sample_final true))).
Proof.
  apply (search_goals_marks_every_location sample_item_table sample_heap (λ _, [])
           (sample_valid_goals sample_heap sample_items sample_categories)
           [deku_tree; skull_house; sealed_cave] [deku_tree; skull_house] ["Skull House"]
           true sample_categories [deku_tree; skull_house] {[0 := ∅]} sample_items
           (sample_final true) (sample_search_returns true)).
Defined.

(** The engine yields the sealed cave, which is not among the remaining
    locations: the loop raises [ValueError]. *)
Lemma search_goals_rejects_unlisted_location_witness :
  ∃ e, search_loop sample_item_table sample_heap (λ _, [])
         (sample_valid_goals sample_heap sample_items sample_categories)
         [deku_tree] [deku_tree] ["Skull House"] true [0] 1 sample_stray = Some (Raise e)
       ∧ (sealed_cave ∉ [deku_tree] → e = ValueError).
Proof.
  apply (search_goals_rejects_unlisted_location sample_item_table sample_heap (λ _, [])
           (sample_valid_goals sample_heap sample_items sample_categories)
           [deku_tree] [deku_tree] ["Skull House"] true [0] 1 sample_stray sealed_cave []).
  - reflexivity.
  - apply (bool_decide_unpack _). vm_compute. exact I.
Defined.

(** Why the Deku Tree is stored for the bridge. *)
Lemma search_goals_records_hintable_worlds_witness :
  deku_tree ∈ [deku_tree; skull_house]
  ∧ hintable sample_heap (sample_valid_goals sample_heap sample_items sample_categories)
      (state_world_ids [deku_tree; skull_house]) sample_items "bridge" "open bridge" 0
      deku_tree.
Proof.
  apply (search_goals_records_hintable_worlds sample_item_table sample_heap (λ _, [])
           (sample_valid_goals sample_heap sample_items sample_categories)
           [deku_tree; skull_house; sealed_cave] [deku_tree; skull_house] ["Skull House"]
           true sample_categories [deku_tree; skull_house] {[0 := ∅]} sample_items
           (sample_final true) (sample_search_returns true)
           "bridge" "open bridge" 0 (deku_tree, 1%Z, 1%Z) sample_recorded).
Defined.

Lemma sample_way_of_the_hero :
  sv_required (sample_final true) !! "way of the hero" = Some (RLList [deku_tree]).
Proof. vm_compute. reflexivity. Qed.

(** The way of the hero of the small world. *)
Lemma search_goals_way_of_the_hero_order_witness :
  sublist [deku_tree]
    (filter (λ L, L ∈ [deku_tree; skull_house]) (sv_yielded (sample_final true)))
  ∧ (∀ L, L ∈ [deku_tree] →
       L ∈ [deku_tree; skull_house] ∧ L ∈ [deku_tree; skull_house; sealed_cave])
  ∧ (NoDup [deku_tree; skull_house; sealed_cave] → NoDup [deku_tree]).
Proof.
  apply (search_goals_way_of_the_hero_order sample_item_table sample_heap (λ _, [])
           (sample_valid_goals sample_heap sample_items sample_categories)
           [deku_tree; skull_house; sealed_cave] [deku_tree; skull_house] ["Skull House"]
           true sample_categories [deku_tree; skull_house] {[0 := ∅]} sample_items
           (sample_final true) [deku_tree] (sample_search_returns true)
           sample_way_of_the_hero).
Defined.

(** The categories of the small world after the search. *)
Lemma search_goals_changes_weights_only_witness :
  Forall2 (category_step (sv_required (sample_final true))) sample_categories
    (sv_categories (sample_final true))
  ∧ (∀ L c, owner (sv_priority (sample_final true)) L = Some c →
       owner {[0 := ∅]} L = Some c
       ∨ ∃ g w x, recorded (sv_required (sample_final true)) c g w x
           ∧ loc_world x.1.1 = loc_world L ∧ loc_name x.1.1 = loc_name L).
Proof.
  apply (search_goals_changes_weights_only sample_item_table sample_heap (λ _, [])
           (sample_valid_goals sample_heap sample_items sample_categories)
           [deku_tree; skull_house; sealed_cave] [deku_tree; skull_house] ["Skull House"]
           true sample_categories [deku_tree; skull_house] {[0 := ∅]} sample_items
           (sample_final true) (sample_search_returns true)).
Defined.

Lemma sample_search_unhinted_returns :
  sample_search_unhinted = Some (Ok sample_final_unhinted).
Proof. vm_compute. reflexivity. Qed.

(** The small world with goal hints off: only the way of the hero is
    found. *)
Lemma search_goals_without_reachable_goals_witness :
  (∀ c g w x, ¬ recorded (sv_required sample_final_unhinted) c g w x)
  ∧ (∀ k, is_Some (sv_required sample_final_unhinted !! k) →
       k = "way of the hero" ∧ true = true)
  ∧ sv_priority sample_final_unhinted = {[0 := ∅]}
  ∧ sv_categories sample_final_unhinted = sample_categories.
Proof.
  apply (search_goals_without_reachable_goals sample_item_table sample_heap (λ _, []) ∅
           [deku_tree; skull_house; sealed_cave] [deku_tree; skull_house] ["Skull House"]
           true sample_categories [deku_tree; skull_house] {[0 := ∅]} sample_items
           sample_final_unhinted).
  - intros e re _ Hre. by rewrite lookup_empty in Hre.
  - apply sample_search_unhinted_returns.
Defined.

(** With 70 tokens obtainable the goal on tokens asks for at most 70. *)
Lemma update_reachable_goals_caps_quantities_witness :
  sample_count sample_full_state "Gold Skulltula Token" = 70%Z
  ∧ ∀ i, i ∈ items_at sample_updated_heap 1 →
      (gi_quantity i ≤ sample_count sample_full_state (gi_name i))%Z.
Proof.
  split; [reflexivity|].
  apply (update_reachable_goals_caps_quantities (λ _ : gmap string Z, sample_world 0)
           sample_count sample_has_item_goal sample_has_item_goal_quantity
           bridge [∅] [sample_full_state] sample_heap sample_updated_heap
           sample_update_returns 0
           (set_g_category (Some "bridge") (sample_goal "tokens" 1)) sample_full_state).
  - exists ∅, bridge. split_and!; [reflexivity | reflexivity|]. right. by left.
  - reflexivity.
  - vm_compute. reflexivity.
Defined.

(** A second call on the store with the tokens lowered to 70 changes
    nothing. *)
Lemma update_reachable_goals_idempotent_witness :
  update_reachable_goals (λ _, sample_world 0) sample_count sample_has_item_goal
    bridge [∅] [sample_full_state] sample_updated_heap = Ok sample_updated_heap.
Proof.
  apply (update_reachable_goals_idempotent (λ _ : gmap string Z, sample_world 0)
           sample_count sample_has_item_goal sample_has_item_goal_quantity
           bridge [∅] [sample_full_state] sample_heap sample_updated_heap
           sample_update_returns).
Defined.

Lemma sample_unlock_returns :
  unlock_category_entrances sample_world sample_locks [0; 1] sample_entrances
  = Ok sample_unlocked.
Proof. vm_compute. reflexivity. Qed.

(** Unlocking with a lock map for the bridge of world 0 leaves the castle
    door and the entrances of world 1 alone. *)
Lemma unlock_category_entrances_frame_witness :
  (∀ k, is_Some (sample_unlocked !! k) ↔ is_Some (sample_entrances !! k))
  ∧ (∀ k, (∀ entry saved state, entry ∈ sample_locks → saved ∈ entry.2 →
             [0; 1] !! entry.1 = Some state → k ≠ (w_id (sample_world state), saved.1)) →
          sample_unlocked !! k = sample_entrances !! k)
  ∧ (∀ entry, entry ∈ sample_locks → entry.2 ≠ [] → entry.1 < length [0; 1]).
Proof.
  apply (unlock_category_entrances_frame sample_world sample_locks [0; 1] sample_entrances
           sample_unlocked sample_unlock_returns).
Defined.
